(** * Slab containers (src/include/slab_containers.h)

    A shallow embedding of the slab allocators and of the containers built on
    them, and the properties of the allocator bookkeeping.

    Conventions of the embedding.
    - [size_t] is 64 bits wide and [uint32_t] 32 bits wide; both are values of
      [Z], every arithmetic operation of the source carries its wrap-around
      ([wrap64], [wrap32]).
    - A slab is named by its address ([slab_ptr]); a slot by its slab and its
      index in [slab->slot[]].  The word [slot->slab] that [initSlab] stamps
      into every slot is the first component of the slot pointer.
    - The intrusive lists of the source are sequences: the per-slab chain
      [freeHead -> storage[0] -> ...] is the list [freeHead], head first, and
      the sentinel-headed ring [freeSlabHeads] is the list of the linked
      slabs, [freeSlabHeads.next] first.
    - A failed [assert] and a dereference of a pointer that is not what the
      code takes it for make an operation return [None]. *)

From Stdlib Require Import ZArith Lia.
From stdpp Require Import base option list gmap fin_maps.

Local Open Scope Z_scope.

(** ** Machine integers *)

Definition wrap32 (z : Z) : Z := z mod 2 ^ 32.
Definition wrap64 (z : Z) : Z := z mod 2 ^ 64.

(** ** The mempool (include/mempool.h) *)

(** The counters of one pool, and the next address its heap hands out. *)
Record pool_t := mk_pool {
  allocated_items : Z;
  free_items : Z;
  slabs : Z;
  brk : nat
}.

(** Modelled from the spec: [pool_slab_allocator::slab_new] of
    include/mempool.h, which is not part of the sources at hand.  It is called
    whenever a slab is created (inline notification with [heap = false], heap
    slab or vector buffer with [heap = true]) and returns raw storage when
    [heap] is set.  Every slot of the new slab counts as allocated; the slab
    count grows by one.  The allocator never runs out of memory here. *)
Definition slab_new (headerSize slotSize slots : Z) (heap contiguous : bool)
    (p : pool_t) : pool_t * nat :=
  (mk_pool (allocated_items p + slots) (free_items p) (slabs p + 1)
           (if heap then S (brk p) else brk p),
   brk p).

(** Modelled from the spec: [pool_slab_allocator::slab_delete] of
    include/mempool.h, called when a slab is released ([ptr = None] is the
    [nullptr] of the inline notification).  The slots of a released slab are
    all free. *)
Definition slab_delete (ptr : option nat) (headerSize slotSize slots : Z)
    (p : pool_t) : pool_t :=
  mk_pool (allocated_items p - slots) (free_items p - slots) (slabs p - 1) (brk p).

(** Modelled from the spec: [pool_slab_allocator::slab_item_allocate] of
    include/mempool.h, the per-slot handout. *)
Definition slab_item_allocate (slotSize : Z) (p : pool_t) : pool_t :=
  mk_pool (allocated_items p) (free_items p - 1) (slabs p) (brk p).

(** Modelled from the spec: [pool_slab_allocator::slab_item_free] of
    include/mempool.h, the per-slot return. *)
Definition slab_item_free (slotSize : Z) (p : pool_t) : pool_t :=
  mk_pool (allocated_items p) (free_items p + 1) (slabs p) (brk p).

(** Modelled from the spec: the counter [inuse_items] of a pool; at rest
    [allocated_items = inuse_items + free_items]. *)
Definition inuse_items (p : pool_t) : Z := allocated_items p - free_items p.

(** ** slab_allocator *)

(** Address of a slab: the [stackSlab] member of the allocator object at
    [this], or a heap block returned by [slab_new]. *)
Inductive slab_ptr :=
  | StackSlab (this : nat)
  | HeapSlab (addr : nat).

Global Instance slab_ptr_eq_dec : EqDecision slab_ptr.
Proof. solve_decision. Defined.

Global Instance slab_ptr_countable : Countable slab_ptr.
Proof.
  refine (inj_countable'
    (λ sp, match sp with StackSlab t => inl t | HeapSlab a => inr a end)
    (λ s, match s with inl t => StackSlab t | inr a => HeapSlab a end) _).
  by intros [].
Defined.

(** [slot_t *]: the owning slab ([slot->slab]) and the index of the slot. *)
Definition slot_ptr : Type := slab_ptr * Z.

(** [slab_t]: [slabSize] and [freeSlots] are [uint32_t]; [freeHead] is the
    chain of free slots of the slab. *)
Record slab_t := mk_slab {
  slabSize : Z;
  freeSlots : Z;
  freeHead : list Z
}.

(** The allocator object.  [store] holds the slabs this allocator owns, the
    inline [stackSlab] under [StackSlab selfPointer]. *)
Record slab_allocator := mk_alloc {
  selfPointer : nat;
  freeSlabHeads : list slab_ptr;
  freeSlotCount : Z;
  allocSlotCount : Z;
  trueSlotSize : Z;
  store : gmap slab_ptr slab_t
}.

Definition state : Type := pool_t * slab_allocator.

(** Taking a slab out of the ring through its [prev]/[next] words. *)
Fixpoint unlink (sp : slab_ptr) (l : list slab_ptr) : list slab_ptr :=
  match l with
  | [] => []
  | x :: r => if decide (x = sp) then r else x :: unlink sp r
  end.

Section slab_allocator.

(** Template parameters, and [sizeof(T)]. *)
Variables (stackSize heapSize sizeof_T : Z).

(** [slot_t::OBJECT_IN_POINTERS], [sizeof(slot_t)] and [sizeof(slab_t)]. *)
Definition OBJECT_IN_POINTERS : Z := (sizeof_T + 8 - 1) / 8.
Definition sizeof_slot_t : Z := 8 + 8 * OBJECT_IN_POINTERS.
Definition sizeof_slab_t : Z := 32.

(** [freeslot(s, freeEmpty)].  The slot goes on the chain of its slab
    [s->slab]; a slab that had no free slot is linked at the head of the
    ring; a heap slab that has become entirely free is unlinked and deleted
    when [freeEmpty] is set.  Unlinking reads [slabHead.next] and
    [slabHead.prev], which are null in a slab that is not linked (first
    guard); the second guard is the [assert]. *)
Definition freeslot (s : slot_ptr) (freeEmpty : bool) (st : state) : option state :=
  let '(p, a) := st in
  let sp := s.1 in
  slab ← store a !! sp;
  let slab1 := mk_slab (slabSize slab) (wrap32 (freeSlots slab + 1)) (s.2 :: freeHead slab) in
  let fc1 := wrap64 (freeSlotCount a + 1) in
  let p1 := slab_item_free (trueSlotSize a) p in
  let heads1 :=
    if decide (freeSlots slab1 = 1) then sp :: freeSlabHeads a else freeSlabHeads a in
  if freeEmpty && bool_decide (freeSlots slab1 = slabSize slab1)
               && bool_decide (sp ≠ StackSlab (selfPointer a))
  then
    guard (sp ∈ heads1);;
    guard (slabSize slab1 ≤ fc1);;
    Some (slab_delete (match sp with HeapSlab x => Some x | StackSlab _ => None end)
            sizeof_slab_t (trueSlotSize a) (freeSlots slab1) p1,
          mk_alloc (selfPointer a) (unlink sp heads1) (wrap64 (fc1 - slabSize slab1))
            (allocSlotCount a) (trueSlotSize a) (delete sp (store a)))
  else
    Some (p1,
          mk_alloc (selfPointer a) heads1 fc1 (allocSlotCount a) (trueSlotSize a)
            (<[sp := slab1]> (store a))).

(** The loop of [initSlab]: [n] iterations are left, [i] is the loop index. *)
Fixpoint initSlab_loop (n : nat) (i : Z) (sp : slab_ptr) (st : state) : option state :=
  match n with
  | O => Some st
  | S n' => st' ← freeslot (sp, i) false st; initSlab_loop n' (i + 1) sp st'
  end.

(** [initSlab(slab, sz)]: the header is written ([slabSize] takes [sz]
    narrowed to 32 bits), then every slot is freed. *)
Definition initSlab (sp : slab_ptr) (sz : Z) (st : state) : option state :=
  let '(p, a) := st in
  let a0 := mk_alloc (selfPointer a) (freeSlabHeads a) (freeSlotCount a)
              (allocSlotCount a) (trueSlotSize a)
              (<[sp := mk_slab (wrap32 sz) 0 []]> (store a)) in
  initSlab_loop (Z.to_nat sz) 0 sp (p, a0).

(** [addSlab(slabSize)]: a heap block from the mempool, initialised. *)
Definition addSlab (slabSize : Z) (st : state) : option state :=
  let '(p, a) := st in
  let '(p1, addr) := slab_new sizeof_slab_t (trueSlotSize a) slabSize true false p in
  initSlab (HeapSlab addr) slabSize (p1, a).

(** [allocslot()].  With an empty ring a slab of [heapSize] slots is added
    first.  The first linked slab gives the head of its chain; with a ring
    that is still empty the code would take the sentinel for a slab, and
    with an empty chain it would read through a null pointer (the two
    [None] branches).  The guards are the two [assert]s. *)
Definition allocslot (st : state) : option (state * slot_ptr) :=
  '(p, a) ← (if decide (freeSlabHeads st.2 = []) then addSlab heapSize st else Some st);
  match freeSlabHeads a with
  | [] => None
  | sp :: rest =>
    freeSlab ← store a !! sp;
    match freeHead freeSlab with
    | [] => None
    | freeSlot :: chain =>
      guard (0 < freeSlots freeSlab);;
      let slab1 := mk_slab (slabSize freeSlab) (wrap32 (freeSlots freeSlab - 1)) chain in
      guard (freeSlots slab1 = 0 → chain = []);;
      let heads1 := if decide (freeSlots slab1 = 0) then rest else sp :: rest in
      Some (slab_item_allocate (trueSlotSize a) p,
            mk_alloc (selfPointer a) heads1 (wrap64 (freeSlotCount a - 1))
              (allocSlotCount a) (trueSlotSize a) (<[sp := slab1]> (store a)),
            (sp, freeSlot))
    end
  end.

Definition _reserve (freeCount : Z) (st : state) : option state :=
  if decide (freeSlotCount st.2 < freeCount)
  then addSlab (wrap64 (freeCount - freeSlotCount st.2)) st
  else Some st.

(** The constructor, for the allocator object at address [this].  The source
    sets [selfPointer = this] last; nothing reads it before ([initSlab] frees
    with [freeEmpty = false]), and the object's address is needed from the
    start to name [&stackSlab]. *)
Definition slab_allocator_ctor (this : nat) (p : pool_t) : option state :=
  let a := mk_alloc this [] 0 stackSize sizeof_slot_t ∅ in
  let '(p1, _) := slab_new sizeof_slab_t (trueSlotSize a) stackSize false false p in
  initSlab (StackSlab this) stackSize (p1, a).

(** The destructor: the notification for the inline slab, then the three
    [assert]s. *)
Definition slab_allocator_dtor (st : state) : option pool_t :=
  let '(p, a) := st in
  let p1 := slab_delete None sizeof_slab_t (trueSlotSize a) stackSize p in
  guard (freeSlotCount a = allocSlotCount a);;
  guard (freeSlotCount a = stackSize);;
  guard (head (freeSlabHeads a) = Some (StackSlab (selfPointer a)));;
  Some p1.

(** [allocate(cnt)].  The caller's pointer is the slot pointer moved past the
    word [slot->slab]; [deallocate] moves it back, so both are the slot
    pointer here. *)
Definition allocate (cnt : Z) (st : state) : option (state * slot_ptr) :=
  guard (cnt = 1);;
  guard (sizeof_slot_t = trueSlotSize st.2);;
  allocslot st.

Definition deallocate (ptr : slot_ptr) (s : Z) (st : state) : option state :=
  freeslot ptr true st.

Definition reserve (freeCount : Z) (st : state) : option state :=
  _reserve freeCount st.

End slab_allocator.

(** [selfCheck()], called on what is taken for the allocator at [this]. *)
Definition selfCheck (this : nat) (a : slab_allocator) : option unit :=
  guard (this = selfPointer a);; Some ().

(** ** Default heap slab size *)

Definition _desired_slab_size : Z := 256.

Definition _nodeSize (nodeSize extra : Z) : Z := wrap64 (nodeSize + wrap64 (extra * 8)).

Definition _slabSize (nodeSize extra : Z) : Z := _desired_slab_size / _nodeSize nodeSize extra.

Definition _defaultHS (nodeSize extra : Z) : Z :=
  if decide (_slabSize nodeSize extra ≠ 0) then _slabSize nodeSize extra else 1.

(** ** slab_list *)

(** [std::list<node, slab_allocator<...>>] is the library's list: a sequence
    of nodes, each in a slot that the list's own allocator handed out.  An
    iterator is the node it points to, [None] for [end()]. *)
Record slab_list (node : Type) := mk_list {
  alloc : slab_allocator;
  nodes : list (slot_ptr * node)
}.
Arguments mk_list {node} _ _.
Arguments alloc {node} _.
Arguments nodes {node} _.

Definition it : Type := option slot_ptr.

(** Releasing the nodes of a container one after the other, as the library's
    [clear()] does. *)
Fixpoint clear_nodes (ns : list slot_ptr) (st : state) : option state :=
  match ns with
  | [] => Some st
  | q :: r => st' ← deallocate q 1 st; clear_nodes r st'
  end.

Section slab_list.

Context {node : Type}.
Variables (stackCount heapCount sizeof_T : Z).

(** Index of the node at [q]. *)
Fixpoint pos_of (q : slot_ptr) (ns : list (slot_ptr * node)) : option nat :=
  match ns with
  | [] => None
  | x :: r => if decide (x.1 = q) then Some O else S <$> pos_of q r
  end.

Definition it_pos (l : slab_list node) (i : it) : option nat :=
  match i with
  | None => Some (length (nodes l))
  | Some q => pos_of q (nodes l)
  end.

Definition begin (l : slab_list node) : it := fst <$> head (nodes l).

Definition deref (l : slab_list node) (i : it) : option node :=
  q ← i; k ← pos_of q (nodes l); snd <$> nodes l !! k.

(** [std::next(i)]. *)
Definition next (l : slab_list node) (i : it) : option it :=
  q ← i; k ← pos_of q (nodes l); Some (fst <$> nodes l !! S k).

Definition slab_list_ctor (this : nat) (p : pool_t) : option (pool_t * slab_list node) :=
  '(p1, a) ← slab_allocator_ctor stackCount sizeof_T this p;
  Some (p1, mk_list a []).

Definition insert (pos : it) (v : node) (w : pool_t * slab_list node)
    : option (pool_t * slab_list node * it) :=
  let '(p, l) := w in
  k ← it_pos l pos;
  '(p1, a1, q) ← allocate heapCount sizeof_T 1 (p, alloc l);
  Some (p1, mk_list a1 (take k (nodes l) ++ (q, v) :: drop k (nodes l)), Some q).

Definition push_back (v : node) (w : pool_t * slab_list node)
    : option (pool_t * slab_list node) :=
  fst <$> insert None v w.

Definition push_front (v : node) (w : pool_t * slab_list node)
    : option (pool_t * slab_list node) :=
  fst <$> insert (begin w.2) v w.

Definition erase (i : it) (w : pool_t * slab_list node)
    : option (pool_t * slab_list node * it) :=
  let '(p, l) := w in
  q ← i;
  k ← pos_of q (nodes l);
  '(p1, a1) ← deallocate q 1 (p, alloc l);
  Some (p1, mk_list a1 (take k (nodes l) ++ drop (S k) (nodes l)),
        fst <$> nodes l !! S k).

Definition clear (w : pool_t * slab_list node) : option (pool_t * slab_list node) :=
  let '(p, l) := w in
  '(p1, a1) ← clear_nodes (nodes l).*1 (p, alloc l);
  Some (p1, mk_list a1 []).

(** [this->splice(pos, other, first, last)]: the world is the pool, [*this]
    and [other].  Every iteration erases one node of [other]; [fuel] bounds
    the number of iterations. *)
Fixpoint splice_loop (fuel : nat) (pos first last : it)
    (w : pool_t * slab_list node * slab_list node)
    : option (pool_t * slab_list node * slab_list node) :=
  if decide (first = last) then Some w
  else match fuel with
  | O => None
  | S fuel' =>
    let '(p, this, other) := w in
    v ← deref other first;
    '(p1, this1, ins) ← insert pos v (p, this);
    pos1 ← next this1 ins;
    '(p2, other1, first1) ← erase first (p1, other);
    splice_loop fuel' pos1 first1 last (p2, this1, other1)
  end.

(** The three overloads of [splice], named by their number of arguments. *)
Definition splice4 (pos first last : it) (w : pool_t * slab_list node * slab_list node)
    : option (pool_t * slab_list node * slab_list node) :=
  splice_loop (length (nodes w.2)) pos first last w.

Definition splice3 (pos i : it) (w : pool_t * slab_list node * slab_list node)
    : option (pool_t * slab_list node * slab_list node) :=
  last ← (if decide (i = None) then Some i else next w.2 i);
  splice4 pos i last w.

Definition splice2 (pos : it) (w : pool_t * slab_list node * slab_list node)
    : option (pool_t * slab_list node * slab_list node) :=
  splice4 pos (begin w.2) None w.

(** One loop of [swap]: the nodes of [src] from [first] on are pushed to the
    back of [dst] and erased from [src].  The world is the pool, [dst] and
    [src]; the result lists the worlds after every statement of the loop
    body, oldest first, and ends with the final world. *)
Fixpoint swap_loop (fuel : nat) (first last : it)
    (w : pool_t * slab_list node * slab_list node)
    : option (list (pool_t * slab_list node * slab_list node)
              * (pool_t * slab_list node * slab_list node)) :=
  if decide (first = last) then Some ([], w)
  else match fuel with
  | O => None
  | S fuel' =>
    let '(p, dst, src) := w in
    v ← deref src first;
    '(p1, dst1) ← push_back v (p, dst);
    '(p2, src1, first1) ← erase first (p1, src);
    '(tr, w') ← swap_loop fuel' first1 last (p2, dst1, src1);
    Some ((p1, dst1, src) :: (p2, dst1, src1) :: tr, w')
  end.

(** [this->swap(o)], with the worlds it goes through; the world is the pool,
    [*this] and [o]. *)
Definition swap_run (w : pool_t * slab_list node * slab_list node)
    : option (list (pool_t * slab_list node * slab_list node)
              * (pool_t * slab_list node * slab_list node)) :=
  let '(p, this, o) := w in
  let ofirst := begin o in
  let olast : it := None in
  let mfirst := begin this in
  let mlast : it := None in
  '(tr1, (p1, this1, o1)) ← swap_loop (length (nodes o)) ofirst olast (p, this, o);
  '(tr2, (p2, o2, this2)) ← swap_loop (length (nodes this1)) mfirst mlast (p1, o1, this1);
  Some (tr1 ++ ((λ x, (x.1.1, x.2, x.1.2)) <$> tr2), (p2, this2, o2)).

Definition swap (w : pool_t * slab_list node * slab_list node)
    : option (pool_t * slab_list node * slab_list node) :=
  snd <$> swap_run w.

(** [copy(o)] takes its argument by reference: the lists live in an object
    store and [this] and [o] are their addresses, which may coincide. *)
Fixpoint copy_loop (fuel : nat) (this o : nat) (i : it)
    (h : pool_t * gmap nat (slab_list node)) : option (pool_t * gmap nat (slab_list node)) :=
  match i with
  | None => Some h
  | Some _ =>
    match fuel with
    | O => None
    | S fuel' =>
      src ← h.2 !! o;
      e ← deref src i;
      dst ← h.2 !! this;
      '(p1, dst1) ← push_back e (h.1, dst);
      let objs1 := <[this := dst1]> h.2 in
      src1 ← objs1 !! o;
      i1 ← next src1 i;
      copy_loop fuel' this o i1 (p1, objs1)
    end
  end.

Definition copy (this o : nat) (h : pool_t * gmap nat (slab_list node))
    : option (pool_t * gmap nat (slab_list node)) :=
  dst ← h.2 !! this;
  '(p1, dst1) ← clear (h.1, dst);
  let objs1 := <[this := dst1]> h.2 in
  src ← objs1 !! o;
  copy_loop (length (nodes src)) this o (begin src) (p1, objs1).

(** [operator=]. *)
Definition slab_list_assign (this o : nat) (h : pool_t * gmap nat (slab_list node))
    : option (pool_t * gmap nat (slab_list node)) :=
  copy this o h.

(** The copy constructor, for a new list at [this]. *)
Definition slab_list_copy_ctor (this o : nat) (h : pool_t * gmap nat (slab_list node))
    : option (pool_t * gmap nat (slab_list node)) :=
  '(p1, l) ← slab_list_ctor this h.1;
  copy this o (p1, <[this := l]> h.2).

(** [get_my_actual_allocator()]: the list at [this] takes its own address for
    the address of its allocator, the first member of the library's list,
    and has the allocator check itself.  The maps and sets of the file reach
    their allocators by the same code. *)
Definition get_my_actual_allocator (this : nat) (l : slab_list node) : option slab_allocator :=
  selfCheck this (alloc l);; Some (alloc l).

(** [reserve(freeCount)] of the list at [this]. *)
Definition slab_list_reserve (this : nat) (freeCount : Z) (w : pool_t * slab_list node)
    : option (pool_t * slab_list node) :=
  a ← get_my_actual_allocator this w.2;
  '(p1, a1) ← reserve freeCount (w.1, a);
  Some (p1, mk_list a1 (nodes w.2)).

End slab_list.

(** ** The test helper do_push_back (test/test_slab_containers.cc) *)

(** [do_push_back(a, b, count, base)], on the slab list: the loop pushes
    [base + i] for [i] from 0 to [count - 1]; [n] iterations are left. *)
Fixpoint do_push_back_loop (heapCount sizeof_T : Z) (n : nat) (i base : Z)
    (w : pool_t * slab_list Z) : option (pool_t * slab_list Z) :=
  match n with
  | O => Some w
  | S n' =>
    w' ← push_back heapCount sizeof_T (base + i) w;
    do_push_back_loop heapCount sizeof_T n' (i + 1) base w'
  end.

Definition do_push_back (heapCount sizeof_T : Z) (count : nat) (base : Z)
    (w : pool_t * slab_list Z) : option (pool_t * slab_list Z) :=
  do_push_back_loop heapCount sizeof_T count 0 base w.

(** The start of the test [list_context]: two lists [b] and [c] of
    [slab_list<int,4>] in an unused pool, at the addresses 100 and 200, and
    [do_push_back(a, b, i, i)].  The heap slabs of such a list have
    [_defaultHS(sizeof(int), 2)] slots. *)
Definition list_context (i : nat) : option (pool_t * slab_list Z * slab_list Z) :=
  '(p, b) ← slab_list_ctor 4 24 100 (mk_pool 0 0 0 0);
  '(p, c) ← slab_list_ctor 4 24 200 p;
  '(p, b) ← do_push_back (_defaultHS 4 2) 24 i (Z.of_nat i) (p, b);
  Some (p, b, c).

(** The start of the second loop of the test [list_context]: the two lists,
    and [b.reserve(i); c.reserve(i)]. *)
Definition list_context_reserve (i : nat) : option (pool_t * slab_list Z * slab_list Z) :=
  '(p, b) ← slab_list_ctor 4 24 100 (mk_pool 0 0 0 0);
  '(p, c) ← slab_list_ctor 4 24 200 p;
  '(p, b) ← slab_list_reserve 100 (Z.of_nat i) (p, b);
  '(p, c) ← slab_list_reserve 200 (Z.of_nat i) (p, c);
  Some (p, b, c).

(** [eq_elements(a, b)] of the test, with [a] a standard list and [b] a slab
    list: both are walked from their first element, every element of [a] is
    compared with the element of [b] at the same place, and at the end of
    [a] the iterator of [b] is compared with [b.end()].  The result tells
    whether every [EXPECT_EQ] holds; an iterator of [b] that is at [b.end()]
    before the end of [a] is counted as a failure. *)
Fixpoint eq_elements_from (a : list Z) (rhs : list (slot_ptr * Z)) : bool :=
  match a, rhs with
  | [], [] => true
  | x :: a, (_, y) :: rhs => bool_decide (x = y) && eq_elements_from a rhs
  | _, _ => false
  end.

Definition eq_elements (a : list Z) (b : slab_list Z) : bool :=
  eq_elements_from a (nodes b).

(** The body of the first loop of the test [list_context], with the standard
    list [a] as a sequence: the result lists what [inuse_items()] returns at
    the six places where the test reads it, and the outcomes of the five
    calls of [eq_elements].  [do_push_back(a, b, i, i)] appends [i], ...,
    [2 * i - 1] to [a], and [a.erase(a.begin())] drops its first element. *)
Definition list_context_loop (i : nat) : option (list Z * list bool) :=
  let hs := _defaultHS 4 2 in
  let pushed := (λ j, Z.of_nat i + j) <$> seqZ 0 (Z.of_nat i) in
  '(p, b) ← slab_list_ctor 4 24 100 (mk_pool 0 0 0 0);
  '(p, c) ← slab_list_ctor 4 24 200 p;
  let a : list Z := [] in
  let e1 := eq_elements a b in
  '(p, b) ← do_push_back hs 24 i (Z.of_nat i) (p, b);
  let a := a ++ pushed in
  let o1 := inuse_items p in
  let e2 := eq_elements a b in
  '(p, c, b) ← swap hs 24 (p, c, b);
  let o2 := inuse_items p in
  let e3 := eq_elements a c in
  let a := drop 1 a in
  '(p, c, _) ← erase (begin c) (p, c);
  let o3 := inuse_items p in
  let e4 := eq_elements a c in
  let a : list Z := [] in
  '(p, b) ← clear (p, b);
  '(p, c) ← clear (p, c);
  let o4 := inuse_items p in
  '(p, b) ← do_push_back hs 24 i (Z.of_nat i) (p, b);
  let a := a ++ pushed in
  let o5 := inuse_items p in
  '(p, c, b) ← splice4 hs 24 (begin c) (begin b) None (p, c, b);
  let o6 := inuse_items p in
  let e5 := eq_elements a c in
  Some ([o1; o2; o3; o4; o5; o6], [e1; e2; e3; e4; e5]).

(** ** slab_vector_allocator *)

(** [T *] as the vector allocator hands it out: the inline array [stackSlot]
    of the allocator object at [this], or a heap buffer. *)
Inductive buf_ptr :=
  | StackSlot (this : nat)
  | HeapBuf (addr : nat).

Global Instance buf_ptr_eq_dec : EqDecision buf_ptr.
Proof. solve_decision. Defined.

Module slab_vector_allocator.
Section slab_vector_allocator.

Variables (stackSize sizeof_T : Z).

(** The object has no member but the array [stackSlot]; [this] names it. *)
Definition ctor (this : nat) (p : pool_t) : pool_t :=
  (slab_new 0 sizeof_T stackSize false true p).1.

Definition dtor (this : nat) (p : pool_t) : pool_t :=
  slab_delete None 0 sizeof_T stackSize p.

Definition allocate (this : nat) (cnt : Z) (p : pool_t) : pool_t * buf_ptr :=
  if decide (cnt ≤ stackSize) then (p, StackSlot this)
  else let '(p1, addr) := slab_new 0 sizeof_T cnt true true p in (p1, HeapBuf addr).

Definition deallocate (this : nat) (ptr : buf_ptr) (s : Z) (p : pool_t) : pool_t :=
  if decide (ptr ≠ StackSlot this)
  then slab_delete (match ptr with HeapBuf x => Some x | StackSlot _ => None end)
         0 sizeof_T s p
  else p.

End slab_vector_allocator.
End slab_vector_allocator.

(** ** slab_vector *)

(** [std::vector<value, slab_vector_allocator<...>>]: the buffer ([None]
    before the first allocation), the elements and the capacity.  [vthis] is
    the address of the object, hence of its allocator. *)
Record slab_vector (value : Type) := mk_vec {
  vthis : nat;
  start : option buf_ptr;
  elems : list value;
  capacity : Z
}.
Arguments mk_vec {value} _ _ _ _.
Arguments vthis {value} _.
Arguments start {value} _.
Arguments elems {value} _.
Arguments capacity {value} _.

Section slab_vector.

Context {value : Type}.
Variables (stackCount sizeof_T : Z).

Definition slab_vector_size (v : slab_vector value) : Z := Z.of_nat (length (elems v)).

(** The library's [reserve]: a larger buffer is allocated, the elements move,
    the old buffer is released. *)
Definition slab_vector_reserve (n : Z) (w : pool_t * slab_vector value)
    : pool_t * slab_vector value :=
  let '(p, v) := w in
  if decide (capacity v < n) then
    let '(p1, buf) := slab_vector_allocator.allocate stackCount sizeof_T (vthis v) n p in
    let p2 := match start v with
              | Some old => slab_vector_allocator.deallocate sizeof_T (vthis v) old (capacity v) p1
              | None => p1
              end in
    (p2, mk_vec (vthis v) (Some buf) (elems v) n)
  else w.

Definition slab_vector_clear (v : slab_vector value) : slab_vector value :=
  mk_vec (vthis v) (start v) [] (capacity v).

(** The library's [push_back]: a full buffer is replaced by one of twice the
    size (of one element when it was empty). *)
Definition slab_vector_push_back (x : value) (w : pool_t * slab_vector value)
    : pool_t * slab_vector value :=
  let '(p, v) := w in
  if decide (slab_vector_size v = capacity v) then
    let len := slab_vector_size v + Z.max (slab_vector_size v) 1 in
    let '(p1, buf) := slab_vector_allocator.allocate stackCount sizeof_T (vthis v) len p in
    let p2 := match start v with
              | Some old => slab_vector_allocator.deallocate sizeof_T (vthis v) old (capacity v) p1
              | None => p1
              end in
    (p2, mk_vec (vthis v) (Some buf) (elems v ++ [x]) len)
  else (p, mk_vec (vthis v) (start v) (elems v ++ [x]) (capacity v)).

Definition slab_vector_ctor (this : nat) (p : pool_t) : pool_t * slab_vector value :=
  slab_vector_reserve stackCount
    (slab_vector_allocator.ctor stackCount sizeof_T this p, mk_vec this None [] 0).

(** The loop of [operator=]: [n] elements of [rhs] are left, the next one is
    at index [k].  The vectors live in an object store; [this] and [rhs] are
    their addresses, which may coincide. *)
Fixpoint slab_vector_assign_loop (n k : nat) (this rhs : nat)
    (h : pool_t * gmap nat (slab_vector value))
    : option (pool_t * gmap nat (slab_vector value)) :=
  match n with
  | O => Some h
  | S n' =>
    src ← h.2 !! rhs;
    e ← elems src !! k;
    dst ← h.2 !! this;
    let '(p1, dst1) := slab_vector_push_back e (h.1, dst) in
    slab_vector_assign_loop n' (S k) this rhs (p1, <[this := dst1]> h.2)
  end.

(** [operator=]. *)
Definition slab_vector_assign (this rhs : nat) (h : pool_t * gmap nat (slab_vector value))
    : option (pool_t * gmap nat (slab_vector value)) :=
  src ← h.2 !! rhs;
  dst ← h.2 !! this;
  let '(p1, dst1) := slab_vector_reserve (slab_vector_size src) (h.1, dst) in
  let objs1 := <[this := dst1]> h.2 in
  dst2 ← objs1 !! this;
  let objs2 := <[this := slab_vector_clear dst2]> objs1 in
  src2 ← objs2 !! rhs;
  slab_vector_assign_loop (length (elems src2)) 0 this rhs (p1, objs2).

(** The loop of [slab_vector(initSize, val)]: [n] iterations are left. *)
Fixpoint slab_vector_fill (n : nat) (val : value) (w : pool_t * slab_vector value)
    : pool_t * slab_vector value :=
  match n with
  | O => w
  | S n' => slab_vector_fill n' val (slab_vector_push_back val w)
  end.

(** [slab_vector(initSize, val)], for the vector at [this]. *)
Definition slab_vector_ctor_n (this : nat) (initSize : Z) (val : value) (p : pool_t)
    : pool_t * slab_vector value :=
  slab_vector_fill (Z.to_nat initSize) val
    (slab_vector_reserve (Z.max initSize stackCount)
       (slab_vector_allocator.ctor stackCount sizeof_T this p, mk_vec this None [] 0)).

(** The copy constructor, for a new vector at [this]. *)
Definition slab_vector_copy_ctor (this rhs : nat) (h : pool_t * gmap nat (slab_vector value))
    : option (pool_t * gmap nat (slab_vector value)) :=
  let '(p1, v) := slab_vector_ctor this h.1 in
  slab_vector_assign this rhs (p1, <[this := v]> h.2).

(** [this->swap(rhs)], for two vectors: both reserve [stackCount + 1], then
    the library's [swap] exchanges the buffers, the elements and the
    capacities; the allocators stay where they are. *)
Definition slab_vector_swap (w : pool_t * slab_vector value * slab_vector value)
    : pool_t * slab_vector value * slab_vector value :=
  let '(p, this, rhs) := w in
  let '(p1, this1) := slab_vector_reserve (wrap64 (stackCount + 1)) (p, this) in
  let '(p2, rhs1) := slab_vector_reserve (wrap64 (stackCount + 1)) (p1, rhs) in
  (p2, mk_vec (vthis this1) (start rhs1) (elems rhs1) (capacity rhs1),
       mk_vec (vthis rhs1) (start this1) (elems this1) (capacity this1)).

(** The destructor: the library's vector releases its buffer, then the
    allocator is destroyed. *)
Definition slab_vector_dtor (w : pool_t * slab_vector value) : pool_t :=
  let '(p, v) := w in
  let p1 := match start v with
            | Some buf => slab_vector_allocator.deallocate sizeof_T (vthis v) buf (capacity v) p
            | None => p
            end in
  slab_vector_allocator.dtor stackCount sizeof_T (vthis v) p1.

End slab_vector.

(** ** The test vector_context (test/test_slab_containers.cc) *)

(** [do_push_back(a, b, count, base)], on the slab vector. *)
Fixpoint do_push_back_vector_loop (stackCount sizeof_T : Z) (n : nat) (i base : Z)
    (w : pool_t * slab_vector Z) : pool_t * slab_vector Z :=
  match n with
  | O => w
  | S n' =>
    do_push_back_vector_loop stackCount sizeof_T n' (i + 1) base
      (slab_vector_push_back stackCount sizeof_T (base + i) w)
  end.

Definition do_push_back_vector (stackCount sizeof_T : Z) (count : nat) (base : Z)
    (w : pool_t * slab_vector Z) : pool_t * slab_vector Z :=
  do_push_back_vector_loop stackCount sizeof_T count 0 base w.

(** One turn of the loop of the test [vector_context]: two vectors [b] and
    [c] of [slab_vector<int,4>] in an unused pool, at the addresses 100 and
    200, [do_push_back(a, b, i, i)], [c.swap(b)], the three [clear()] and, at
    the end of the block, the destructors of [c] and of [b].  The result is
    [allocated_items()] as read after the constructors, the elements of [c]
    and of [b] after the swap, their buffers, and the pool at the end. *)
Definition vector_context (i : nat)
    : Z * list Z * list Z * option buf_ptr * option buf_ptr * pool_t :=
  let '(p, b) := slab_vector_ctor 4 4 100 (mk_pool 0 0 0 0) in
  let '(p, c) := slab_vector_ctor 4 4 200 p in
  let seen := allocated_items p in
  let '(p, b) := do_push_back_vector 4 4 i (Z.of_nat i) (p, b) in
  let '(p, c, b) := slab_vector_swap 4 4 (p, c, b) in
  let p := slab_vector_dtor 4 4 (p, slab_vector_clear c) in
  let p := slab_vector_dtor 4 4 (p, slab_vector_clear b) in
  (seen, elems c, elems b, start c, start b, p).

(** * Specification *)

(** Sum of a field over the slabs of a store. *)
Definition map_sum (f : slab_t → Z) (m : gmap slab_ptr slab_t) : Z :=
  map_fold (λ _ sl acc, f sl + acc) 0 m.

Definition sum_free (m : gmap slab_ptr slab_t) : Z := map_sum freeSlots m.
Definition total_slots (m : gmap slab_ptr slab_t) : Z := map_sum slabSize m.

(** A slot is live when it lies in a slab of the allocator and is not on that
    slab's free chain: it has been handed out and not been returned. *)
Definition slot_live (m : gmap slab_ptr slab_t) (s : slot_ptr) : Prop :=
  ∃ sl, m !! s.1 = Some sl ∧ 0 ≤ s.2 < slabSize sl ∧ s.2 ∉ freeHead sl.

Definition live (a : slab_allocator) (s : slot_ptr) : Prop := slot_live (store a) s.

(** The slabs of the allocator fit in the 64-bit address space. *)
Definition fits (a : slab_allocator) : Prop := total_slots (store a) < 2 ^ 64.

(** Heap addresses in use lie below the break of the pool's heap. *)
Definition fresh (p : pool_t) (a : slab_allocator) : Prop :=
  ∀ addr, is_Some (store a !! HeapSlab addr) → (addr < brk p)%nat.

Record slab_ok (sl : slab_t) : Prop := mk_slab_ok {
  ok_size : 0 ≤ slabSize sl < 2 ^ 32;
  ok_count : freeSlots sl = Z.of_nat (length (freeHead sl));
  ok_nodup : NoDup (freeHead sl);
  ok_range : ∀ i, i ∈ freeHead sl → 0 ≤ i < slabSize sl
}.

(** The slab after slot [i] has been pushed on its free chain. *)
Definition push_slot (i : Z) (sl : slab_t) : slab_t :=
  mk_slab (slabSize sl) (freeSlots sl + 1) (i :: freeHead sl).

(** A slab of [c] slots, all on the free chain. *)
Definition full_slab (c : Z) : slab_t := mk_slab c c (reverse (seqZ 0 c)).

(** The invariant of the bookkeeping. *)
Record Inv_core (a : slab_allocator) : Prop := mk_Inv_core {
  inv_nodup : NoDup (freeSlabHeads a);
  inv_slab : ∀ sp sl, store a !! sp = Some sl → slab_ok sl;
  inv_linked : ∀ sp sl, store a !! sp = Some sl →
               (sp ∈ freeSlabHeads a ↔ 1 ≤ freeSlots sl);
  inv_heads : ∀ sp, sp ∈ freeSlabHeads a → is_Some (store a !! sp);
  inv_count : freeSlotCount a = sum_free (store a);
  inv_fits : fits a
}.

(** A further slab of [c] slots fits in the address space. *)
Definition room (a : slab_allocator) (c : Z) : Prop :=
  total_slots (store a) + c < 2 ^ 64.

(** What an operation leaves alone. *)
Definition frame (st st' : state) : Prop :=
  selfPointer st'.2 = selfPointer st.2 ∧ allocSlotCount st'.2 = allocSlotCount st.2 ∧
  trueSlotSize st'.2 = trueSlotSize st.2 ∧ (brk st.1 ≤ brk st'.1)%nat.

(** The counters of the pool follow the slabs of the allocator. *)
Definition pool_tracks (st st' : state) : Prop :=
  allocated_items st'.1 - allocated_items st.1
    = total_slots (store st'.2) - total_slots (store st.2) ∧
  free_items st'.1 - free_items st.1 = freeSlotCount st'.2 - freeSlotCount st.2 ∧
  slabs st'.1 - slabs st.1 = Z.of_nat (size (store st'.2)) - Z.of_nat (size (store st.2)).

(** Slots in use. *)
Definition used (a : slab_allocator) : Z := total_slots (store a) - freeSlotCount a.

(** Every heap slab has a slot in use. *)
Definition no_idle_heap (a : slab_allocator) : Prop :=
  ∀ addr sl, store a !! HeapSlab addr = Some sl → freeSlots sl < slabSize sl.

Section invariant.

Variables (stackSize sizeof_T : Z).

(** The inline slab is the only stack slab of the store; the fields set by
    the constructor keep their values. *)
Record Inv_stack (a : slab_allocator) : Prop := mk_Inv_stack {
  inv_stack_slab : ∃ sl, store a !! StackSlab (selfPointer a) = Some sl
                         ∧ slabSize sl = stackSize;
  inv_stack_only : ∀ t, is_Some (store a !! StackSlab t) → t = selfPointer a;
  inv_slot_size : trueSlotSize a = sizeof_slot_t sizeof_T;
  inv_alloc_count : allocSlotCount a = stackSize
}.

Definition Inv (st : state) : Prop :=
  Inv_core st.2 ∧ fresh st.1 st.2 ∧ Inv_stack st.2.

End invariant.

(** The counters of a pool that has served one allocator since [pinit]. *)
Definition pool_rel (pinit : pool_t) (st : state) : Prop :=
  allocated_items st.1 = allocated_items pinit + total_slots (store st.2) ∧
  free_items st.1 = free_items pinit + freeSlotCount st.2 ∧
  slabs st.1 = slabs pinit + Z.of_nat (size (store st.2)).

Section reachable.

Variables (stackSize heapSize sizeof_T : Z).
Variables (this : nat) (pinit : pool_t).

(** The states of the allocator constructed at [this] from the pool [pinit]
    that [allocate], [deallocate] of a live slot and, when [with_reserve] is
    set, [reserve] lead to.  A request for a new slab is made only when the
    slab fits in the address space, and [reserve] is asked for less than
    [2^32] slots, the range of the [uint32_t] fields of a slab. *)
Inductive reachable (with_reserve : bool) : state → Prop :=
  | reach_ctor st :
      slab_allocator_ctor stackSize sizeof_T this pinit = Some st →
      reachable with_reserve st
  | reach_allocate st st' q :
      reachable with_reserve st → room st.2 heapSize →
      allocate heapSize sizeof_T 1 st = Some (st', q) →
      reachable with_reserve st'
  | reach_deallocate st st' q s :
      reachable with_reserve st → live st.2 q →
      deallocate q s st = Some st' →
      reachable with_reserve st'
  | reach_reserve st st' n :
      with_reserve = true → reachable with_reserve st →
      0 ≤ n < 2 ^ 32 → room st.2 n →
      reserve n st = Some st' →
      reachable with_reserve st'.

End reachable.

Global Instance slot_live_dec m s : Decision (slot_live m s).
Proof.
  refine (match m !! s.1 as o return m !! s.1 = o → _ with
          | Some sl => λ E,
              cast_if (decide (0 ≤ s.2 < slabSize sl ∧ s.2 ∉ freeHead sl))
          | None => λ E, right _
          end eq_refl).
  - by exists sl.
  - intros (sl' & E' & H). rewrite E in E'. injection E' as <-. done.
  - intros (sl' & E' & _). congruence.
Defined.

Global Instance live_dec a s : Decision (live a s) := slot_live_dec (store a) s.

Global Instance room_dec a c : Decision (room a c).
Proof. unfold room. apply _. Defined.

(** The operations of a client. *)
Inductive op :=
  | Allocate
  | Deallocate (q : slot_ptr)
  | Reserve (n : Z).

Definition is_reserve (o : op) : bool :=
  match o with Reserve _ => true | _ => false end.

Section run.

Variables (stackSize heapSize sizeof_T : Z).

(** One operation, made under the conditions of [reachable]. *)
Definition step (o : op) (st : state) : option state :=
  match o with
  | Allocate =>
      guard (room st.2 heapSize);; fst <$> allocate heapSize sizeof_T 1 st
  | Deallocate q =>
      guard (live st.2 q);; deallocate q 1 st
  | Reserve n =>
      guard (0 ≤ n < 2 ^ 32);; guard (room st.2 n);; reserve n st
  end.

Fixpoint run (ops : list op) (st : state) : option state :=
  match ops with
  | [] => Some st
  | o :: ops' => st' ← step o st; run ops' st'
  end.

(** The allocator at [this], constructed from the pool [pinit], after [ops]. *)
Definition run_ctor (this : nat) (pinit : pool_t) (ops : list op) : option state :=
  st ← slab_allocator_ctor stackSize sizeof_T this pinit; run ops st.

End run.

(** The first linked slab is the inline slab or has a slot in use. *)
Definition head_in_use (a : slab_allocator) : Prop :=
  ∀ addr rest sl, freeSlabHeads a = HeapSlab addr :: rest →
                  store a !! HeapSlab addr = Some sl → freeSlots sl < slabSize sl.

(** The claim on the free-slab list as the specification words it: a slab is
    linked iff it has a free slot, except that the inline slab is always
    linked. *)
Definition inline_always_linked (a : slab_allocator) : Prop :=
  ∀ sp sl, store a !! sp = Some sl →
    (sp ∈ freeSlabHeads a ↔ 1 ≤ freeSlots sl ∨ sp = StackSlab (selfPointer a)).

(** The live slots of an allocator: the nodes of the container it serves. *)
Definition live_slots (a : slab_allocator) : list slot_ptr :=
  x ← map_to_list (store a);
  (λ j, (x.1, j)) <$> filter (λ j, j ∉ freeHead x.2) (seqZ 0 (slabSize x.2)).

(** The contents of a list. *)
Definition vals {node} (l : slab_list node) : list node := (nodes l).*2.

(** A well-formed list: its allocator satisfies the invariant and its nodes
    are exactly the live slots of its allocator, each once. *)
Definition list_ok {node} (stackCount sizeof_T : Z) (p : pool_t) (l : slab_list node) : Prop :=
  Inv stackCount sizeof_T (p, alloc l) ∧ NoDup (nodes l).*1 ∧
  (∀ q, q ∈ (nodes l).*1 ↔ live (alloc l) q).

(** The swap never holds more than [i] nodes, as the specification words
    it: every world the swap goes through has [i] nodes in use. *)
Definition never_exceeds {node} (i : Z)
    (tr : list (pool_t * slab_list node * slab_list node)) : Prop :=
  Forall (λ w, inuse_items w.1.1 = i) tr.

(** The storage of a constructed vector: its own inline array while the
    capacity is [stackCount], a heap buffer when it is larger; no buffer only
    when there is no inline array. *)
Definition vec_ok {value} (stackCount : Z) (v : slab_vector value) : Prop :=
  Z.of_nat (length (elems v)) ≤ capacity v ∧
  match start v with
  | None => capacity v = 0 ∧ stackCount = 0
  | Some (StackSlot t) => t = vthis v ∧ capacity v = stackCount
  | Some (HeapBuf _) => stackCount < capacity v
  end.

(** The items and the slabs that the pool counts for a vector. *)
Definition vec_items {value} (stackCount : Z) (v : slab_vector value) : Z :=
  stackCount + match start v with Some (HeapBuf _) => capacity v | _ => 0 end.

Definition vec_slabs {value} (v : slab_vector value) : Z :=
  1 + match start v with Some (HeapBuf _) => 1 | _ => 0 end.

(** * Properties *)

(** ** Arithmetic and lists *)

Lemma wrap32_id z : 0 ≤ z < 2 ^ 32 → wrap32 z = z.
Proof. intros. unfold wrap32. by rewrite Z.mod_small. Qed.

Lemma wrap64_id z : 0 ≤ z < 2 ^ 64 → wrap64 z = z.
Proof. intros. unfold wrap64. by rewrite Z.mod_small. Qed.

Lemma unlink_notin sp l : sp ∉ l → unlink sp l = l.
Proof.
  induction l as [|x l IH]; simpl; [done|].
  intros Hn. apply not_elem_of_cons in Hn as [Hne Hn].
  rewrite decide_False by done. by rewrite IH.
Qed.

Lemma elem_of_unlink_ne sp x l : x ≠ sp → x ∈ unlink sp l ↔ x ∈ l.
Proof.
  intros Hne. induction l as [|y l IH]; simpl; [done|].
  destruct (decide (y = sp)) as [->|Hy].
  - rewrite elem_of_cons. split; [by right | intros [?|?]; [congruence | done]].
  - rewrite !elem_of_cons, IH. done.
Qed.

Lemma unlink_NoDup sp l : NoDup l → NoDup (unlink sp l) ∧ sp ∉ unlink sp l.
Proof.
  induction 1 as [|x l Hx Hl IH]; simpl.
  - split; [constructor | apply not_elem_of_nil].
  - destruct (decide (x = sp)) as [->|Hy]; [done|].
    destruct IH as [IH1 IH2]. split.
    + constructor; [|done]. by rewrite elem_of_unlink_ne.
    + rewrite not_elem_of_cons. done.
Qed.

(** At most [n] distinct indices lie in [0, n). *)
Lemma NoDup_range_length (l : list Z) n :
  0 ≤ n → NoDup l → (∀ i, i ∈ l → 0 ≤ i < n) → Z.of_nat (length l) ≤ n.
Proof.
  intros Hn Hnd Hr.
  assert (l ⊆+ seqZ 0 n) as Hs.
  { apply NoDup_submseteq; [done|]. intros x Hx. apply elem_of_seqZ. specialize (Hr x Hx). lia. }
  apply submseteq_length in Hs. rewrite length_seqZ in Hs. lia.
Qed.

(** [n] distinct indices of [0, n) are all of them. *)
Lemma NoDup_range_full (l : list Z) n i :
  NoDup l → (∀ i, i ∈ l → 0 ≤ i < n) → Z.of_nat (length l) = n → 0 ≤ i < n → i ∈ l.
Proof.
  intros Hnd Hr Hlen Hi.
  assert (l ⊆+ seqZ 0 n) as Hs.
  { apply NoDup_submseteq; [done|]. intros x Hx. apply elem_of_seqZ. specialize (Hr x Hx). lia. }
  apply submseteq_length_Permutation in Hs.
  - rewrite Hs. apply elem_of_seqZ. lia.
  - rewrite length_seqZ. lia.
Qed.

(** ** Sums over a store *)

Lemma map_sum_empty f : map_sum f ∅ = 0.
Proof. unfold map_sum. by rewrite map_fold_empty. Qed.

Lemma map_sum_insert f m sp sl :
  m !! sp = None → map_sum f (<[sp := sl]> m) = f sl + map_sum f m.
Proof.
  intros Hn. unfold map_sum.
  rewrite map_fold_insert_L; [done| |done].
  intros. lia.
Qed.

Lemma map_sum_delete f m sp sl :
  m !! sp = Some sl → map_sum f m = f sl + map_sum f (delete sp m).
Proof.
  intros Hs. rewrite <- (insert_delete_id m sp sl) at 1 by done.
  rewrite map_sum_insert; [done|]. apply lookup_delete_eq.
Qed.

Lemma map_sum_insert_Some f m sp sl sl' :
  m !! sp = Some sl → map_sum f (<[sp := sl']> m) = map_sum f m - f sl + f sl'.
Proof.
  intros Hs. rewrite (map_sum_delete f m sp sl Hs).
  rewrite <- insert_delete_eq. rewrite map_sum_insert; [lia|]. apply lookup_delete_eq.
Qed.

Lemma map_sum_le f g m :
  (∀ sp sl, m !! sp = Some sl → f sl ≤ g sl) → map_sum f m ≤ map_sum g m.
Proof.
  induction m as [|sp sl m Hn IH] using map_ind; intros H.
  - by rewrite !map_sum_empty.
  - rewrite !map_sum_insert by done.
    assert (f sl ≤ g sl) by (apply (H sp); apply lookup_insert_eq).
    assert (map_sum f m ≤ map_sum g m); [|lia].
    apply IH. intros sp' sl' Hs. apply (H sp').
    rewrite lookup_insert_ne; [done|]. intros ->. congruence.
Qed.

(** ** Slabs *)

Lemma slab_free_range sl : slab_ok sl → 0 ≤ freeSlots sl ≤ slabSize sl.
Proof.
  intros [Hsz Hc Hnd Hr]. rewrite Hc. split; [lia|].
  apply NoDup_range_length; [lia|done|done].
Qed.

Lemma slab_live_lt sl i :
  slab_ok sl → 0 ≤ i < slabSize sl → i ∉ freeHead sl → freeSlots sl + 1 ≤ slabSize sl.
Proof.
  intros [Hsz Hc Hnd Hr] Hi Hn. rewrite Hc.
  assert (Z.of_nat (length (i :: freeHead sl)) ≤ slabSize sl) as Hl.
  { apply NoDup_range_length; [lia| |].
    - by constructor.
    - intros j Hj. apply elem_of_cons in Hj as [->|Hj]; [done|by apply Hr]. }
  simpl in Hl. lia.
Qed.

Lemma push_slot_ok sl i :
  slab_ok sl → 0 ≤ i < slabSize sl → i ∉ freeHead sl → slab_ok (push_slot i sl).
Proof.
  intros Hok Hi Hn. destruct Hok as [Hsz Hc Hnd Hr].
  constructor; simpl.
  - done.
  - rewrite Hc. lia.
  - by constructor.
  - intros j Hj. apply elem_of_cons in Hj as [->|Hj]; [done|by apply Hr].
Qed.

Lemma sum_free_slack a sp sl :
  Inv_core a → store a !! sp = Some sl →
  sum_free (store a) + (slabSize sl - freeSlots sl) ≤ total_slots (store a).
Proof.
  intros HI Hs. unfold sum_free, total_slots.
  rewrite (map_sum_delete freeSlots _ _ _ Hs), (map_sum_delete slabSize _ _ _ Hs).
  assert (map_sum freeSlots (delete sp (store a)) ≤ map_sum slabSize (delete sp (store a))); [|lia].
  apply map_sum_le. intros sp' sl' Hs'.
  apply lookup_delete_Some in Hs' as [_ Hs'].
  apply slab_free_range, (inv_slab a HI sp' sl' Hs').
Qed.

Lemma sum_free_nonneg a : Inv_core a → 0 ≤ sum_free (store a).
Proof.
  intros HI. unfold sum_free.
  rewrite <- (map_sum_empty freeSlots) at 1.
  transitivity (map_sum (λ _, 0) (store a)).
  - clear HI. induction (store a) as [|sp sl m Hn IH] using map_ind.
    + by rewrite !map_sum_empty.
    + rewrite map_sum_insert by done. rewrite map_sum_empty in *. lia.
  - apply map_sum_le. intros sp sl Hs.
    apply slab_free_range, (inv_slab a HI sp sl Hs).
Qed.

Lemma sum_free_ge a sp sl :
  Inv_core a → store a !! sp = Some sl → freeSlots sl ≤ sum_free (store a).
Proof.
  intros HI Hs. unfold sum_free. rewrite (map_sum_delete freeSlots _ _ _ Hs).
  assert (0 ≤ map_sum freeSlots (delete sp (store a))); [|lia].
  transitivity (map_sum (λ _, 0) (delete sp (store a))).
  - induction (delete sp (store a)) as [|sp' sl' m Hn IH] using map_ind.
    + by rewrite !map_sum_empty.
    + rewrite map_sum_insert by done. lia.
  - apply map_sum_le. intros sp' sl' Hs'.
    apply lookup_delete_Some in Hs' as [_ Hs'].
    apply slab_free_range, (inv_slab a HI sp' sl' Hs').
Qed.

(** ** freeslot *)

Lemma freeslot_eq p a sp i b sl :
  Inv_core a → store a !! sp = Some sl → 0 ≤ i < slabSize sl → i ∉ freeHead sl →
  freeslot (sp, i) b (p, a) =
  Some (if b && bool_decide (freeSlots sl + 1 = slabSize sl)
             && bool_decide (sp ≠ StackSlab (selfPointer a))
        then (slab_delete (match sp with HeapSlab x => Some x | StackSlab _ => None end)
                sizeof_slab_t (trueSlotSize a) (slabSize sl)
                (slab_item_free (trueSlotSize a) p),
              mk_alloc (selfPointer a) (unlink sp (freeSlabHeads a))
                (freeSlotCount a + 1 - slabSize sl) (allocSlotCount a) (trueSlotSize a)
                (delete sp (store a)))
        else (slab_item_free (trueSlotSize a) p,
              mk_alloc (selfPointer a)
                (if decide (freeSlots sl = 0) then sp :: freeSlabHeads a else freeSlabHeads a)
                (freeSlotCount a + 1) (allocSlotCount a) (trueSlotSize a)
                (<[sp := push_slot i sl]> (store a)))).
Proof.
  intros HI Hs Hi Hn.
  pose proof (inv_slab a HI sp sl Hs) as Hok.
  pose proof (slab_free_range sl Hok) as Hfr.
  pose proof (slab_live_lt sl i Hok Hi Hn) as Hlt.
  pose proof (ok_size sl Hok) as Hsz.
  pose proof (sum_free_slack a sp sl HI Hs) as Hslack.
  pose proof (sum_free_nonneg a HI) as Hnn.
  pose proof (sum_free_ge a sp sl HI Hs) as Hge.
  pose proof (inv_count a HI) as Hc.
  pose proof (inv_fits a HI) as Hf. unfold fits in Hf.
  unfold freeslot. simpl. rewrite Hs. simpl.
  rewrite (wrap32_id (freeSlots sl + 1)) by lia.
  rewrite (wrap64_id (freeSlotCount a + 1)) by lia.
  destruct (b && bool_decide (freeSlots sl + 1 = slabSize sl)
              && bool_decide (sp ≠ StackSlab (selfPointer a))) eqn:Hb.
  - apply andb_true_iff in Hb as [Hb _]. apply andb_true_iff in Hb as [_ Hb].
    apply bool_decide_eq_true in Hb.
    rewrite option_guard_True; last first.
    { destruct (decide (freeSlots sl + 1 = 1)); [apply elem_of_cons; by left|].
      apply (inv_linked a HI sp sl Hs). lia. }
    simpl. rewrite option_guard_True by lia. simpl.
    rewrite (wrap64_id (freeSlotCount a + 1 - slabSize sl)) by lia.
    assert (unlink sp (if decide (freeSlots sl + 1 = 1)
                       then sp :: freeSlabHeads a else freeSlabHeads a)
            = unlink sp (freeSlabHeads a)) as ->.
    { destruct (decide (freeSlots sl + 1 = 1)) as [H1|H1]; [|done]. simpl.
      rewrite decide_True by done. rewrite unlink_notin; [done|].
      rewrite (inv_linked a HI sp sl Hs). lia. }
    by rewrite Hb.
  - do 3 f_equal.
    destruct (decide (freeSlots sl + 1 = 1)), (decide (freeSlots sl = 0)); try lia; done.
Qed.

Lemma Inv_push a sp i sl :
  Inv_core a → store a !! sp = Some sl → 0 ≤ i < slabSize sl → i ∉ freeHead sl →
  Inv_core (mk_alloc (selfPointer a)
              (if decide (freeSlots sl = 0) then sp :: freeSlabHeads a else freeSlabHeads a)
              (freeSlotCount a + 1) (allocSlotCount a) (trueSlotSize a)
              (<[sp := push_slot i sl]> (store a))).
Proof.
  intros HI Hs Hi Hn.
  pose proof (inv_slab a HI sp sl Hs) as Hok.
  pose proof (slab_free_range sl Hok) as Hfr.
  pose proof (inv_linked a HI sp sl Hs) as Hl.
  constructor; simpl.
  - destruct (decide (freeSlots sl = 0)); [|apply HI].
    constructor; [|apply HI]. rewrite Hl. lia.
  - intros sp' sl' Hs'. destruct (decide (sp = sp')) as [<-|Hne].
    + rewrite lookup_insert_eq in Hs'. injection Hs' as <-. by apply push_slot_ok.
    + rewrite lookup_insert_ne in Hs' by done. by apply (inv_slab a HI sp').
  - intros sp' sl' Hs'. destruct (decide (sp = sp')) as [<-|Hne].
    + rewrite lookup_insert_eq in Hs'. injection Hs' as <-. simpl.
      destruct (decide (freeSlots sl = 0)).
      * rewrite elem_of_cons. split; [lia|by left].
      * rewrite Hl. lia.
    + rewrite lookup_insert_ne in Hs' by done.
      rewrite <- (inv_linked a HI sp' sl' Hs').
      destruct (decide (freeSlots sl = 0)); [|done].
      rewrite elem_of_cons. split; [intros [?|?]; [congruence|done] | by right].
  - intros sp' Hin. destruct (decide (sp = sp')) as [<-|Hne].
    + rewrite lookup_insert_eq. by eexists.
    + rewrite lookup_insert_ne by done. apply (inv_heads a HI).
      destruct (decide (freeSlots sl = 0)); [|done].
      apply elem_of_cons in Hin as [?|?]; [congruence|done].
  - unfold sum_free. rewrite (map_sum_insert_Some _ _ _ sl) by done. simpl.
    rewrite (inv_count a HI). unfold sum_free. lia.
  - unfold fits, total_slots. simpl.
    rewrite (map_sum_insert_Some _ _ _ sl) by done. simpl.
    pose proof (inv_fits a HI) as Hf. unfold fits, total_slots in Hf. lia.
Qed.

Lemma Inv_release a sp sl :
  Inv_core a → store a !! sp = Some sl →
  Inv_core (mk_alloc (selfPointer a) (unlink sp (freeSlabHeads a))
              (freeSlotCount a - freeSlots sl) (allocSlotCount a) (trueSlotSize a)
              (delete sp (store a))).
Proof.
  intros HI Hs.
  pose proof (inv_slab a HI sp sl Hs) as Hok.
  pose proof (unlink_NoDup sp _ (inv_nodup a HI)) as [Hnd Hnotin].
  constructor; simpl.
  - done.
  - intros sp' sl' Hs'. apply lookup_delete_Some in Hs' as [_ Hs'].
    by apply (inv_slab a HI sp').
  - intros sp' sl' Hs'. apply lookup_delete_Some in Hs' as [Hne Hs'].
    rewrite elem_of_unlink_ne by done. by apply (inv_linked a HI).
  - intros sp' Hin. destruct (decide (sp = sp')) as [<-|Hne]; [done|].
    rewrite lookup_delete_ne by done. apply (inv_heads a HI).
    by rewrite elem_of_unlink_ne in Hin.
  - rewrite (inv_count a HI). unfold sum_free.
    rewrite (map_sum_delete freeSlots _ _ _ Hs). lia.
  - pose proof (inv_fits a HI) as Hf. unfold fits, total_slots in *. simpl.
    rewrite (map_sum_delete slabSize _ _ _ Hs) in Hf.
    pose proof (ok_size sl Hok). lia.
Qed.

(** Returning a live slot succeeds and keeps the invariant. *)
Lemma freeslot_Inv p a s b :
  Inv_core a → live a s →
  ∃ p' a', freeslot s b (p, a) = Some (p', a') ∧ Inv_core a' ∧
           selfPointer a' = selfPointer a ∧ allocSlotCount a' = allocSlotCount a ∧
           trueSlotSize a' = trueSlotSize a ∧ brk p' = brk p.
Proof.
  intros HI (sl & Hs & Hi & Hn). destruct s as [sp i]. simpl in *.
  pose proof (freeslot_eq p a sp i b sl HI Hs Hi Hn) as Heq.
  destruct (b && _ && _) eqn:Hb.
  - eexists _, _. split; [exact Heq|]. split; [|done].
    apply andb_true_iff in Hb as [Hb _]. apply andb_true_iff in Hb as [_ Hb].
    apply bool_decide_eq_true in Hb.
    replace (freeSlotCount a + 1 - slabSize sl) with (freeSlotCount a - freeSlots sl) by lia.
    by apply Inv_release.
  - eexists _, _. split; [exact Heq|]. split; [|done]. by apply Inv_push.
Qed.

(** ** initSlab and addSlab *)

Lemma initSlab_loop_eq sp n : ∀ i p a sl,
  Inv_core a → store a !! sp = Some sl → 0 ≤ i →
  (∀ j, j ∈ freeHead sl → j < i) → i + Z.of_nat n ≤ slabSize sl →
  initSlab_loop n i sp (p, a) =
  Some (mk_pool (allocated_items p) (free_items p + Z.of_nat n) (slabs p) (brk p),
        mk_alloc (selfPointer a)
          (if decide (freeSlots sl = 0 ∧ n ≠ O) then sp :: freeSlabHeads a
           else freeSlabHeads a)
          (freeSlotCount a + Z.of_nat n) (allocSlotCount a) (trueSlotSize a)
          (<[sp := mk_slab (slabSize sl) (freeSlots sl + Z.of_nat n)
                     (reverse (seqZ i (Z.of_nat n)) ++ freeHead sl)]> (store a))).
Proof.
  induction n as [|n IH]; intros i p a sl HI Hs Hi Hlt Hle.
  - simpl. destruct p, a, sl; simpl in *.
    rewrite decide_False by (intros [_ ?]; done).
    rewrite !Z.add_0_r. by rewrite insert_id.
  - cbn [initSlab_loop].
    assert (i ∉ freeHead sl) as Hn by (intros Hin; apply Hlt in Hin; lia).
    rewrite (freeslot_eq p a sp i false sl HI Hs) by (done || lia).
    cbn [andb mbind option_bind].
    erewrite IH; cycle 1.
    + by apply Inv_push; [| |lia|].
    + cbn [store]. apply lookup_insert_eq.
    + lia.
    + cbn [push_slot freeHead]. intros j Hj.
      apply elem_of_cons in Hj as [->|Hj]; [lia|]. apply Hlt in Hj. lia.
    + cbn [push_slot slabSize]. lia.
    + cbn -[seqZ Z.of_nat]. f_equal. f_equal; [f_equal; lia|].
      rewrite insert_insert_eq.
      pose proof (slab_free_range sl (inv_slab a HI sp sl Hs)).
      f_equal.
      * destruct (decide (freeSlots sl = 0)) as [H0|H0].
        -- rewrite decide_False by lia. by rewrite decide_True.
        -- rewrite decide_False by lia. by rewrite decide_False by (intros [? _]; done).
      * lia.
      * f_equal. f_equal; [lia|].
        rewrite (seqZ_cons i (Z.of_nat (S n))) by lia.
        rewrite reverse_cons, <- app_assoc. simpl.
        do 3 f_equal; lia.
Qed.

Lemma Inv_fresh_slab a sp sz :
  Inv_core a → store a !! sp = None → 0 ≤ sz < 2 ^ 32 →
  total_slots (store a) + sz < 2 ^ 64 →
  Inv_core (mk_alloc (selfPointer a) (freeSlabHeads a) (freeSlotCount a)
              (allocSlotCount a) (trueSlotSize a) (<[sp := mk_slab sz 0 []]> (store a))).
Proof.
  intros HI Hs Hsz Hf.
  assert (sp ∉ freeSlabHeads a) as Hnotin.
  { intros Hin. apply (inv_heads a HI) in Hin as [? ?]. congruence. }
  constructor; simpl.
  - apply HI.
  - intros sp' sl' Hs'. apply lookup_insert_Some in Hs' as [[<- <-]|[Hne Hs']].
    + constructor; simpl; [done|done|constructor|]. intros i Hin. by apply elem_of_nil in Hin.
    + by apply (inv_slab a HI sp').
  - intros sp' sl' Hs'. apply lookup_insert_Some in Hs' as [[<- <-]|[Hne Hs']].
    + simpl. split; [done|lia].
    + by apply (inv_linked a HI).
  - intros sp' Hin. rewrite lookup_insert_is_Some. right.
    split; [congruence|]. by apply (inv_heads a HI).
  - unfold sum_free. rewrite map_sum_insert by done. simpl. apply (inv_count a HI).
  - unfold fits, total_slots. simpl. rewrite map_sum_insert by done. simpl.
    unfold total_slots in Hf. lia.
Qed.

Lemma initSlab_eq p a sp sz :
  Inv_core a → store a !! sp = None → 0 ≤ sz < 2 ^ 32 →
  total_slots (store a) + sz < 2 ^ 64 →
  initSlab sp sz (p, a) =
  Some (mk_pool (allocated_items p) (free_items p + sz) (slabs p) (brk p),
        mk_alloc (selfPointer a)
          (if decide (sz = 0) then freeSlabHeads a else sp :: freeSlabHeads a)
          (freeSlotCount a + sz) (allocSlotCount a) (trueSlotSize a)
          (<[sp := full_slab sz]> (store a))).
Proof.
  intros HI Hs Hsz Hf. unfold initSlab. rewrite wrap32_id by done.
  erewrite initSlab_loop_eq; cycle 1.
  - by apply Inv_fresh_slab.
  - cbn [store]. apply lookup_insert_eq.
  - done.
  - simpl. intros j Hj. by apply elem_of_nil in Hj.
  - simpl. lia.
  - cbn -[seqZ Z.of_nat]. rewrite Z2Nat.id by lia.
    rewrite insert_insert_eq, app_nil_r. unfold full_slab.
    do 3 f_equal.
    destruct (decide (sz = 0)) as [->|H0].
    + by rewrite decide_False by (intros [_ ?]; done).
    + rewrite decide_True; [done|]. split; [done|lia].
Qed.

Lemma full_slab_ok c : 0 ≤ c < 2 ^ 32 → slab_ok (full_slab c).
Proof.
  intros Hc. constructor; simpl.
  - done.
  - rewrite length_reverse, length_seqZ. lia.
  - rewrite reverse_Permutation. apply NoDup_seqZ.
  - intros i Hi. rewrite elem_of_reverse, elem_of_seqZ in Hi. lia.
Qed.

Lemma Inv_full_slab a sp sz :
  Inv_core a → store a !! sp = None → 0 ≤ sz < 2 ^ 32 →
  total_slots (store a) + sz < 2 ^ 64 →
  Inv_core (mk_alloc (selfPointer a)
              (if decide (sz = 0) then freeSlabHeads a else sp :: freeSlabHeads a)
              (freeSlotCount a + sz) (allocSlotCount a) (trueSlotSize a)
              (<[sp := full_slab sz]> (store a))).
Proof.
  intros HI Hs Hsz Hf.
  assert (sp ∉ freeSlabHeads a) as Hnotin.
  { intros Hin. apply (inv_heads a HI) in Hin as [? ?]. congruence. }
  constructor; simpl.
  - destruct (decide (sz = 0)); [apply HI|]. constructor; [done|apply HI].
  - intros sp' sl' Hs'. apply lookup_insert_Some in Hs' as [[<- <-]|[Hne Hs']].
    + by apply full_slab_ok.
    + by apply (inv_slab a HI sp').
  - intros sp' sl' Hs'. apply lookup_insert_Some in Hs' as [[<- <-]|[Hne Hs']].
    + simpl. destruct (decide (sz = 0)).
      * split; [done|lia].
      * rewrite elem_of_cons. split; [lia|by left].
    + rewrite <- (inv_linked a HI sp' sl' Hs').
      destruct (decide (sz = 0)); [done|].
      rewrite elem_of_cons. split; [intros [?|?]; [congruence|done] | by right].
  - intros sp' Hin. rewrite lookup_insert_is_Some.
    destruct (decide (sp = sp')) as [?|Hne]; [by left|right].
    split; [done|]. apply (inv_heads a HI).
    destruct (decide (sz = 0)); [done|].
    apply elem_of_cons in Hin as [?|?]; [congruence|done].
  - unfold sum_free. rewrite map_sum_insert by done. simpl.
    rewrite (inv_count a HI). unfold sum_free. lia.
  - unfold fits, total_slots. simpl. rewrite map_sum_insert by done. simpl.
    unfold total_slots in Hf. lia.
Qed.

Lemma fresh_lookup p a : fresh p a → store a !! HeapSlab (brk p) = None.
Proof.
  intros Hfr. destruct (store a !! HeapSlab (brk p)) eqn:E; [|done].
  assert (brk p < brk p)%nat; [|lia]. apply Hfr. by eexists.
Qed.

Lemma addSlab_eq p a c :
  Inv_core a → fresh p a → 0 ≤ c < 2 ^ 32 → total_slots (store a) + c < 2 ^ 64 →
  addSlab c (p, a) =
  Some (mk_pool (allocated_items p + c) (free_items p + c) (slabs p + 1) (S (brk p)),
        mk_alloc (selfPointer a)
          (if decide (c = 0) then freeSlabHeads a else HeapSlab (brk p) :: freeSlabHeads a)
          (freeSlotCount a + c) (allocSlotCount a) (trueSlotSize a)
          (<[HeapSlab (brk p) := full_slab c]> (store a))).
Proof.
  intros HI Hfr Hc Hf. unfold addSlab, slab_new.
  rewrite initSlab_eq; [done|done| |done|done].
  by apply fresh_lookup.
Qed.

Lemma fresh_insert p p' a a' sl :
  fresh p a → store a' = <[HeapSlab (brk p) := sl]> (store a) → brk p' = S (brk p) →
  fresh p' a'.
Proof.
  intros Hfr Hst Hbrk addr Hs. rewrite Hst in Hs. rewrite Hbrk.
  apply lookup_insert_is_Some in Hs as [Heq|[_ Hs]].
  - injection Heq as <-. lia.
  - apply Hfr in Hs. lia.
Qed.

Lemma fresh_subset p p' a a' :
  fresh p a → (∀ sp, is_Some (store a' !! sp) → is_Some (store a !! sp)) →
  (brk p ≤ brk p')%nat → fresh p' a'.
Proof.
  intros Hfr Hsub Hbrk addr Hs. apply Hsub, Hfr in Hs. lia.
Qed.

(** ** allocslot *)

Lemma allocslot_pop heapSize p a sp rest sl :
  Inv_core a → freeSlabHeads a = sp :: rest → store a !! sp = Some sl →
  ∃ i chain, freeHead sl = i :: chain ∧
    allocslot heapSize (p, a) =
    Some (slab_item_allocate (trueSlotSize a) p,
          mk_alloc (selfPointer a)
            (if decide (freeSlots sl = 1) then rest else sp :: rest)
            (freeSlotCount a - 1) (allocSlotCount a) (trueSlotSize a)
            (<[sp := mk_slab (slabSize sl) (freeSlots sl - 1) chain]> (store a)),
          (sp, i)).
Proof.
  intros HI Hh Hs.
  pose proof (inv_slab a HI sp sl Hs) as Hok.
  pose proof (slab_free_range sl Hok) as Hfr.
  pose proof (ok_size sl Hok) as Hsz.
  pose proof (ok_count sl Hok) as Hcnt.
  pose proof (sum_free_ge a sp sl HI Hs) as Hge.
  pose proof (sum_free_slack a sp sl HI Hs) as Hslack.
  pose proof (inv_count a HI) as Hc.
  pose proof (inv_fits a HI) as Hf. unfold fits in Hf.
  assert (1 ≤ freeSlots sl) as H1.
  { apply (inv_linked a HI sp sl Hs). rewrite Hh. by left. }
  destruct (freeHead sl) as [|i chain] eqn:Hfh; [simpl in Hcnt; lia|].
  exists i, chain. split; [done|].
  unfold allocslot. cbn [snd]. rewrite Hh.
  rewrite decide_False by done. cbn [mbind option_bind]. rewrite Hh, Hs. cbn [mbind option_bind].
  rewrite Hfh. rewrite option_guard_True by lia. cbn [mbind option_bind].
  cbn [freeSlots]. rewrite (wrap32_id (freeSlots sl - 1)) by lia.
  rewrite option_guard_True; last first.
  { intros H0. destruct chain; [done|]. simpl in Hcnt. lia. }
  cbn [mbind option_bind].
  rewrite (wrap64_id (freeSlotCount a - 1)) by lia.
  do 4 f_equal.
  destruct (decide (freeSlots sl - 1 = 0)), (decide (freeSlots sl = 1)); try lia; done.
Qed.

Lemma Inv_pop a sp rest sl i chain :
  Inv_core a → freeSlabHeads a = sp :: rest → store a !! sp = Some sl →
  freeHead sl = i :: chain →
  Inv_core (mk_alloc (selfPointer a)
              (if decide (freeSlots sl = 1) then rest else sp :: rest)
              (freeSlotCount a - 1) (allocSlotCount a) (trueSlotSize a)
              (<[sp := mk_slab (slabSize sl) (freeSlots sl - 1) chain]> (store a))).
Proof.
  intros HI Hh Hs Hfh.
  pose proof (inv_slab a HI sp sl Hs) as Hok.
  pose proof (inv_nodup a HI) as Hnd. rewrite Hh in Hnd. apply NoDup_cons in Hnd as [Hsp Hnd].
  destruct Hok as [Hsz Hcnt Hndf Hr]. rewrite Hfh in *.
  apply NoDup_cons in Hndf as [Hi Hndf]. simpl in Hcnt.
  constructor; simpl.
  - destruct (decide (freeSlots sl = 1)); [done|]. by constructor.
  - intros sp' sl' Hs'. apply lookup_insert_Some in Hs' as [[<- <-]|[Hne Hs']].
    + constructor; simpl; [done|lia|done|]. intros j Hj. apply Hr. by right.
    + by apply (inv_slab a HI sp').
  - intros sp' sl' Hs'. apply lookup_insert_Some in Hs' as [[<- <-]|[Hne Hs']].
    + simpl. destruct (decide (freeSlots sl = 1)).
      * split; [done|lia].
      * rewrite elem_of_cons. split; [lia|by left].
    + rewrite <- (inv_linked a HI sp' sl' Hs'), Hh.
      destruct (decide (freeSlots sl = 1)); [|done].
      rewrite elem_of_cons. split; [by right | intros [?|?]; [congruence|done]].
  - intros sp' Hin. rewrite lookup_insert_is_Some.
    destruct (decide (sp = sp')) as [?|Hne]; [by left|right].
    split; [done|]. apply (inv_heads a HI). rewrite Hh.
    destruct (decide (freeSlots sl = 1)); [by right|done].
  - unfold sum_free. rewrite (map_sum_insert_Some _ _ _ sl) by done. simpl.
    rewrite (inv_count a HI). unfold sum_free. lia.
  - unfold fits, total_slots. simpl.
    rewrite (map_sum_insert_Some _ _ _ sl) by done. simpl.
    pose proof (inv_fits a HI) as Hf. unfold fits, total_slots in Hf. lia.
Qed.

Lemma allocslot_grow heapSize p a p1 a1 :
  freeSlabHeads a = [] → addSlab heapSize (p, a) = Some (p1, a1) →
  freeSlabHeads a1 ≠ [] → allocslot heapSize (p, a) = allocslot heapSize (p1, a1).
Proof.
  intros Hh Hadd Hne. unfold allocslot at 1. cbn [snd].
  rewrite decide_True by done. rewrite Hadd. cbn [mbind option_bind].
  unfold allocslot. cbn [snd]. by rewrite decide_False by done.
Qed.

Lemma live_insert_ne m sp sl x :
  x.1 ≠ sp → slot_live (<[sp := sl]> m) x ↔ slot_live m x.
Proof. intros Hne. unfold slot_live. by rewrite lookup_insert_ne. Qed.

Lemma live_insert_eq m sp sl j :
  slot_live (<[sp := sl]> m) (sp, j) ↔ 0 ≤ j < slabSize sl ∧ j ∉ freeHead sl.
Proof.
  unfold slot_live. simpl. rewrite lookup_insert_eq. split.
  - intros (sl' & Heq & H). by injection Heq as <-.
  - intros H. by exists sl.
Qed.

Lemma live_lookup m sp sl j :
  m !! sp = Some sl → slot_live m (sp, j) ↔ 0 ≤ j < slabSize sl ∧ j ∉ freeHead sl.
Proof.
  intros Hs. unfold slot_live. simpl. rewrite Hs. split.
  - intros (sl' & Heq & H). by injection Heq as <-.
  - intros H. by exists sl.
Qed.

Lemma live_None m sp j : m !! sp = None → ¬ slot_live m (sp, j).
Proof. intros Hs (sl & Hs' & _). simpl in Hs'. congruence. Qed.

Lemma live_delete_ne m sp x :
  x.1 ≠ sp → slot_live (delete sp m) x ↔ slot_live m x.
Proof. intros Hne. unfold slot_live. by rewrite lookup_delete_ne. Qed.

Lemma pool_tracks_refl st : pool_tracks st st.
Proof. unfold pool_tracks. lia. Qed.

Lemma pool_tracks_trans st1 st2 st3 :
  pool_tracks st1 st2 → pool_tracks st2 st3 → pool_tracks st1 st3.
Proof. unfold pool_tracks. lia. Qed.

Lemma frame_refl st : frame st st.
Proof. unfold frame. auto. Qed.

Lemma frame_trans st1 st2 st3 : frame st1 st2 → frame st2 st3 → frame st1 st3.
Proof. unfold frame. intros (?&?&?&?) (?&?&?&?). repeat split; try congruence. lia. Qed.

(** Taking a slot from the first linked slab. *)
Lemma allocslot_pop_spec heapSize p a sp rest :
  Inv_core a → fresh p a → freeSlabHeads a = sp :: rest →
  ∃ p' a' i sl chain,
    allocslot heapSize (p, a) = Some (p', a', (sp, i)) ∧
    store a !! sp = Some sl ∧ freeHead sl = i :: chain ∧
    store a' = <[sp := mk_slab (slabSize sl) (freeSlots sl - 1) chain]> (store a) ∧
    freeSlotCount a' = freeSlotCount a - 1 ∧
    Inv_core a' ∧ fresh p' a' ∧ frame (p, a) (p', a') ∧ pool_tracks (p, a) (p', a') ∧
    ¬ live a (sp, i) ∧ (∀ x, live a' x ↔ live a x ∨ x = (sp, i)).
Proof.
  intros HI Hfr Hh.
  destruct (inv_heads a HI sp) as [sl Hs]; [rewrite Hh; by left|].
  destruct (allocslot_pop heapSize p a sp rest sl HI Hh Hs) as (i & chain & Hfh & Heq).
  pose proof (inv_slab a HI sp sl Hs) as Hok.
  eexists _, _, i, sl, chain. split; [exact Heq|].
  split; [done|]. split; [done|]. split; [done|]. split; [done|].
  split; [by apply (Inv_pop a sp rest sl i chain)|].
  split.
  { eapply fresh_subset; [done| |done]. simpl. intros sp' Hs'.
    apply lookup_insert_is_Some in Hs' as [<-|[_ ?]]; [by eexists|done]. }
  split; [done|].
  split.
  { unfold pool_tracks. simpl. unfold total_slots.
    rewrite (map_sum_insert_Some _ _ _ sl) by done. simpl.
    rewrite map_size_insert_Some by (by eexists). lia. }
  destruct Hok as [Hsz Hcnt Hndf Hr]. rewrite Hfh in *.
  apply NoDup_cons in Hndf as [Hi Hndf].
  split.
  { unfold live. rewrite (live_lookup _ sp sl i Hs). rewrite Hfh. intros [_ Hn]. apply Hn. by left. }
  unfold live. cbn [store].
  intros [sp' j]. destruct (decide (sp' = sp)) as [->|Hne].
  - rewrite live_insert_eq. simpl.
    rewrite (live_lookup _ sp sl j Hs), Hfh, not_elem_of_cons.
    split.
    + intros [Hj Hn]. destruct (decide (j = i)) as [->|?]; [by right|by left].
    + intros [[Hj [_ Hn]]|Heq']; [done|]. injection Heq' as ->.
      split; [|done]. apply Hr. by left.
  - rewrite live_insert_ne by done.
    split; [by left|]. intros [?|?]; [done|congruence].
Qed.

Lemma full_slab_not_live m sp c j :
  ¬ slot_live (<[sp := full_slab c]> m) (sp, j).
Proof.
  rewrite live_insert_eq. simpl. intros [Hj Hn]. apply Hn.
  rewrite elem_of_reverse, elem_of_seqZ. lia.
Qed.

Lemma addSlab_spec p a c :
  Inv_core a → fresh p a → 0 ≤ c < 2 ^ 32 → room a c →
  ∃ p' a',
    addSlab c (p, a) = Some (p', a') ∧
    store a !! HeapSlab (brk p) = None ∧
    store a' = <[HeapSlab (brk p) := full_slab c]> (store a) ∧
    freeSlabHeads a' =
      (if decide (c = 0) then freeSlabHeads a else HeapSlab (brk p) :: freeSlabHeads a) ∧
    freeSlotCount a' = freeSlotCount a + c ∧
    brk p' = S (brk p) ∧
    Inv_core a' ∧ fresh p' a' ∧ frame (p, a) (p', a') ∧ pool_tracks (p, a) (p', a') ∧
    (∀ x, live a' x ↔ live a x).
Proof.
  intros HI Hfr Hc Hroom. pose proof (fresh_lookup p a Hfr) as Hnone.
  eexists _, _. split; [by apply addSlab_eq|].
  split; [done|]. split; [done|]. split; [done|]. split; [done|]. split; [done|].
  split; [by apply Inv_full_slab|].
  split; [by eapply fresh_insert|].
  split; [unfold frame; simpl; repeat split; lia|].
  split.
  { unfold pool_tracks, total_slots. simpl. rewrite map_sum_insert by done.
    rewrite map_size_insert_None by done. simpl. lia. }
  unfold live. cbn [store]. intros [sp j].
  destruct (decide (sp = HeapSlab (brk p))) as [->|Hne].
  - split; intros H; [by apply full_slab_not_live in H | by apply live_None in H].
  - by rewrite live_insert_ne.
Qed.

(** ** The inline slab *)

Lemma Inv_stack_update stackSize sizeof_T a a' sp sl sl' :
  Inv_stack stackSize sizeof_T a →
  selfPointer a' = selfPointer a → allocSlotCount a' = allocSlotCount a →
  trueSlotSize a' = trueSlotSize a →
  store a' = <[sp := sl']> (store a) → store a !! sp = Some sl →
  slabSize sl' = slabSize sl → Inv_stack stackSize sizeof_T a'.
Proof.
  intros [(s0 & Hs0 & Hsz0) Honly Hts Hac] Hself Hcount Hslot Hst Hs Hsz.
  constructor.
  - rewrite Hself, Hst. destruct (decide (sp = StackSlab (selfPointer a))) as [->|Hne].
    + exists sl'. rewrite lookup_insert_eq. split; [done|]. congruence.
    + exists s0. by rewrite lookup_insert_ne.
  - intros t Ht. rewrite Hself. apply Honly. rewrite Hst in Ht.
    apply lookup_insert_is_Some in Ht as [<-|[_ ?]]; [by eexists|done].
  - congruence.
  - congruence.
Qed.

Lemma Inv_stack_heap_insert stackSize sizeof_T a a' h sl' :
  Inv_stack stackSize sizeof_T a →
  selfPointer a' = selfPointer a → allocSlotCount a' = allocSlotCount a →
  trueSlotSize a' = trueSlotSize a →
  store a' = <[HeapSlab h := sl']> (store a) → Inv_stack stackSize sizeof_T a'.
Proof.
  intros [(s0 & Hs0 & Hsz0) Honly Hts Hac] Hself Hcount Hslot Hst.
  constructor.
  - rewrite Hself, Hst. exists s0. by rewrite lookup_insert_ne.
  - intros t Ht. rewrite Hself. apply Honly. rewrite Hst in Ht.
    by rewrite lookup_insert_ne in Ht.
  - congruence.
  - congruence.
Qed.

Lemma Inv_stack_delete stackSize sizeof_T a a' sp :
  Inv_stack stackSize sizeof_T a →
  selfPointer a' = selfPointer a → allocSlotCount a' = allocSlotCount a →
  trueSlotSize a' = trueSlotSize a →
  store a' = delete sp (store a) → sp ≠ StackSlab (selfPointer a) →
  Inv_stack stackSize sizeof_T a'.
Proof.
  intros [(s0 & Hs0 & Hsz0) Honly Hts Hac] Hself Hcount Hslot Hst Hne.
  constructor.
  - rewrite Hself, Hst. exists s0. by rewrite lookup_delete_ne.
  - intros t Ht. rewrite Hself. apply Honly. rewrite Hst in Ht.
    apply lookup_delete_is_Some in Ht as [_ ?]. done.
  - congruence.
  - congruence.
Qed.

(** ** allocate *)

Section allocate.

Variables (stackSize heapSize sizeof_T : Z).
Hypothesis heapSize_range : 1 ≤ heapSize < 2 ^ 32.

Local Abbreviation Inv := (Inv stackSize sizeof_T).

Lemma allocate_eq st :
  trueSlotSize st.2 = sizeof_slot_t sizeof_T →
  allocate heapSize sizeof_T 1 st = allocslot heapSize st.
Proof.
  intros Hts. unfold allocate.
  rewrite option_guard_True by done. simpl.
  by rewrite option_guard_True by done.
Qed.

Lemma pop_full_spec p a sp rest :
  Inv (p, a) → freeSlabHeads a = sp :: rest →
  ∃ p' a' i,
    allocslot heapSize (p, a) = Some (p', a', (sp, i)) ∧
    Inv (p', a') ∧ frame (p, a) (p', a') ∧ pool_tracks (p, a) (p', a') ∧
    ¬ live a (sp, i) ∧ (∀ x, live a' x ↔ live a x ∨ x = (sp, i)) ∧
    used a' = used a + 1 ∧
    ((∀ addr sl, store a !! HeapSlab addr = Some sl → HeapSlab addr ≠ sp →
                 freeSlots sl < slabSize sl) → no_idle_heap a') ∧
    (∀ sp', is_Some (store a' !! sp') ↔ is_Some (store a !! sp')) ∧
    total_slots (store a') = total_slots (store a).
Proof.
  intros (HI & Hfr & HS) Hh. simpl in *.
  destruct (allocslot_pop_spec heapSize p a sp rest HI Hfr Hh)
    as (p' & a' & i & sl & chain & Heq & Hs & Hfh & Hst & Hfc & HI' & Hfr' & Hframe & Htr & Hnl & Hl).
  exists p', a', i. split; [done|].
  destruct Hframe as (Hf1 & Hf2 & Hf3 & Hf4). simpl in *.
  pose proof (slab_free_range sl (inv_slab a HI sp sl Hs)) as Hrange.
  split; [|split; [done|split; [done|split; [done|split; [done|split; [|split; [|split]]]]]]].
  - split; [done|]. split; [done|]. simpl.
    by eapply (Inv_stack_update _ _ a a' sp sl).
  - unfold used. rewrite Hst, Hfc. unfold total_slots.
    rewrite (map_sum_insert_Some _ _ _ sl) by done. simpl. lia.
  - intros Hidle addr sl' Hs'. rewrite Hst in Hs'.
    apply lookup_insert_Some in Hs' as [[_ <-]|[Hne Hs']]; simpl; [lia|].
    by apply (Hidle addr).
  - intros sp'. rewrite Hst, lookup_insert_is_Some.
    split; [intros [<-|[_ ?]]; [by eexists|done]|].
    intros ?. destruct (decide (sp = sp')); [by left|by right].
  - rewrite Hst. unfold total_slots.
    rewrite (map_sum_insert_Some _ _ _ sl) by done. simpl. lia.
Qed.

Lemma allocate_spec st :
  Inv st → room st.2 heapSize →
  ∃ st' q,
    allocate heapSize sizeof_T 1 st = Some (st', q) ∧
    Inv st' ∧ frame st st' ∧ pool_tracks st st' ∧
    ¬ live st.2 q ∧ (∀ x, live st'.2 x ↔ live st.2 x ∨ x = q) ∧
    used st'.2 = used st.2 + 1 ∧
    (no_idle_heap st.2 → no_idle_heap st'.2) ∧
    (∀ sp, is_Some (store st.2 !! sp) → is_Some (store st'.2 !! sp)) ∧
    total_slots (store st.2) ≤ total_slots (store st'.2) ≤ total_slots (store st.2) + heapSize.
Proof.
  destruct st as [p a]. intros HInv Hroom.
  pose proof HInv as (HI & Hfr & HS). simpl in *.
  rewrite allocate_eq by apply HS.
  destruct (freeSlabHeads a) as [|sp rest] eqn:Hh.
  - destruct (addSlab_spec p a heapSize HI Hfr) as
      (p1 & a1 & Hadd & Hnone & Hst1 & Hh1 & Hfc1 & Hbrk1 & HI1 & Hfr1 & Hframe1 & Htr1 & Hl1);
      [lia|done|].
    rewrite decide_False in Hh1 by lia. rewrite Hh in Hh1.
    rewrite (allocslot_grow heapSize p a p1 a1 Hh Hadd) by (by rewrite Hh1).
    assert (Inv (p1, a1)) as HInv1.
    { split; [done|]. split; [done|]. simpl.
      destruct Hframe1 as (?&?&?&?).
      by eapply (Inv_stack_heap_insert _ _ a a1). }
    destruct (pop_full_spec p1 a1 _ _ HInv1 Hh1)
      as (p' & a' & i & Heq & HInv' & Hframe & Htr & Hnl & Hl & Hused & Hidle & Hdom & Htot).
    exists (p', a'), (HeapSlab (brk p), i). cbn [fst snd]. split; [done|].
    split; [done|].
    split; [by eapply frame_trans|].
    split; [by eapply pool_tracks_trans|].
    split; [by apply live_None|].
    split; [intros x; by rewrite Hl, Hl1|].
    split.
    { rewrite Hused. unfold used. rewrite Hst1, Hfc1. unfold total_slots.
      rewrite map_sum_insert by done. simpl. lia. }
    split.
    { intros Hni. apply Hidle. intros addr sl Hs Hne. rewrite Hst1 in Hs.
      rewrite lookup_insert_ne in Hs by done. by apply (Hni addr). }
    split.
    { simpl. intros sp' Hs'. apply Hdom. rewrite Hst1, lookup_insert_is_Some.
      destruct (decide (HeapSlab (brk p) = sp')); [by left|by right]. }
    rewrite Htot, Hst1. unfold total_slots. rewrite map_sum_insert by done. simpl. lia.
  - destruct (pop_full_spec p a sp rest HInv Hh)
      as (p' & a' & i & Heq & HInv' & Hframe & Htr & Hnl & Hl & Hused & Hidle & Hdom & Htot).
    exists (p', a'), (sp, i). cbn [fst snd]. split; [done|].
    split; [done|]. split; [done|]. split; [done|]. split; [done|]. split; [done|].
    split; [done|].
    split.
    { intros Hni. apply Hidle. intros addr sl Hs _. by apply (Hni addr). }
    split; [simpl; intros sp' Hs'; by apply Hdom|]. lia.
Qed.

End allocate.

(** ** deallocate *)

Section deallocate.

Variables (stackSize sizeof_T : Z).

Local Abbreviation Inv := (Inv stackSize sizeof_T).

Lemma deallocate_spec p a q s :
  Inv (p, a) → live a q →
  ∃ p' a' sl,
    deallocate q s (p, a) = Some (p', a') ∧
    store a !! q.1 = Some sl ∧
    Inv (p', a') ∧ frame (p, a) (p', a') ∧ pool_tracks (p, a) (p', a') ∧
    (∀ x, live a' x ↔ live a x ∧ x ≠ q) ∧
    used a' = used a - 1 ∧
    (no_idle_heap a → no_idle_heap a') ∧
    ((freeSlots sl + 1 = slabSize sl ∧ q.1 ≠ StackSlab (selfPointer a) ∧
      store a' = delete q.1 (store a) ∧
      freeSlabHeads a' = unlink q.1 (freeSlabHeads a) ∧
      freeSlotCount a' = freeSlotCount a + 1 - slabSize sl ∧
      p' = slab_delete (match q.1 with HeapSlab x => Some x | StackSlab _ => None end)
             sizeof_slab_t (trueSlotSize a) (slabSize sl)
             (slab_item_free (trueSlotSize a) p))
     ∨
     (¬ (freeSlots sl + 1 = slabSize sl ∧ q.1 ≠ StackSlab (selfPointer a)) ∧
      store a' = <[q.1 := push_slot q.2 sl]> (store a) ∧
      freeSlabHeads a' =
        (if decide (freeSlots sl = 0) then q.1 :: freeSlabHeads a else freeSlabHeads a) ∧
      freeSlotCount a' = freeSlotCount a + 1 ∧
      p' = slab_item_free (trueSlotSize a) p)).
Proof.
  intros (HI & Hfr & HS) (sl & Hs & Hi & Hn). destruct q as [sp i]. simpl in *.
  pose proof (freeslot_eq p a sp i true sl HI Hs Hi Hn) as Heq.
  pose proof (inv_slab a HI sp sl Hs) as Hok.
  pose proof (slab_live_lt sl i Hok Hi Hn) as Hlt.
  pose proof (ok_size sl Hok) as Hsz.
  unfold deallocate.
  destruct (true && bool_decide (freeSlots sl + 1 = slabSize sl)
              && bool_decide (sp ≠ StackSlab (selfPointer a))) eqn:Hb.
  - simpl in Hb. apply andb_true_iff in Hb as [Hb1 Hb2].
    apply bool_decide_eq_true in Hb1, Hb2.
    eexists _, _, sl. split; [exact Heq|]. split; [done|].
    split.
    { split; [|split]; simpl.
      - replace (freeSlotCount a + 1 - slabSize sl) with (freeSlotCount a - freeSlots sl) by lia.
        by apply Inv_release.
      - eapply fresh_subset; [done| |done]. simpl. intros sp' Hs'.
        by apply lookup_delete_is_Some in Hs' as [_ ?].
      - by eapply (Inv_stack_delete _ _ a _ sp). }
    split; [unfold frame; simpl; repeat split; lia|].
    split.
    { unfold pool_tracks, total_slots. simpl.
      rewrite (map_sum_delete slabSize _ _ _ Hs).
      rewrite map_size_delete_Some by (by eexists).
      assert (size (store a) ≠ 0%nat).
      { intros H0. apply map_size_empty_inv in H0. rewrite H0 in Hs. by rewrite lookup_empty in Hs. }
      lia. }
    split.
    { unfold live. cbn [store]. intros [sp' j].
      destruct (decide (sp' = sp)) as [->|Hne].
      - split.
        + intros (? & Hd & _). simpl in Hd. by rewrite lookup_delete_eq in Hd.
        + rewrite (live_lookup _ sp sl j Hs). intros [[Hj Hnj] Hneq]. exfalso.
          assert (j ∈ i :: freeHead sl) as Hin.
          { destruct Hok as [_ Hcnt Hnd Hr].
            apply (NoDup_range_full _ (slabSize sl)); [by constructor| | |done].
            - intros k Hk. apply elem_of_cons in Hk as [->|Hk]; [done|by apply Hr].
            - simpl. lia. }
          apply elem_of_cons in Hin as [->|Hin]; [by apply Hneq|done].
      - rewrite live_delete_ne by done. split; [|by intros [? _]].
        intros H. split; [done|]. intros Heq'. by injection Heq'. }
    split.
    { unfold used, total_slots. simpl. rewrite (map_sum_delete slabSize _ _ _ Hs). lia. }
    split.
    { intros Hni addr sl' Hs'. simpl in Hs'.
      apply lookup_delete_Some in Hs' as [_ Hs']. by apply (Hni addr). }
    left. done.
  - simpl in Hb. apply andb_false_iff in Hb.
    assert (¬ (freeSlots sl + 1 = slabSize sl ∧ sp ≠ StackSlab (selfPointer a))) as Hnot.
    { intros [H1 H2]. destruct Hb as [Hb|Hb]; apply bool_decide_eq_false in Hb; done. }
    eexists _, _, sl. split; [exact Heq|]. split; [done|].
    split.
    { split; [|split]; simpl.
      - by apply Inv_push.
      - eapply fresh_subset; [done| |done]. simpl. intros sp' Hs'.
        apply lookup_insert_is_Some in Hs' as [<-|[_ ?]]; [by eexists|done].
      - by eapply (Inv_stack_update _ _ a _ sp sl). }
    split; [unfold frame; simpl; repeat split; lia|].
    split.
    { unfold pool_tracks, total_slots. simpl.
      rewrite (map_sum_insert_Some _ _ _ sl) by done. simpl.
      rewrite map_size_insert_Some by (by eexists). lia. }
    split.
    { unfold live. cbn [store]. intros [sp' j].
      destruct (decide (sp' = sp)) as [->|Hne].
      - rewrite live_insert_eq, (live_lookup _ sp sl j Hs). simpl.
        rewrite not_elem_of_cons. split.
        + intros (Hj & Hji & Hnj). split; [done|]. intros Heq'. by injection Heq'.
        + intros [[Hj Hnj] Hneq]. split; [done|]. split; [|done]. intros ->. done.
      - rewrite live_insert_ne by done. split; [|by intros [? _]].
        intros H. split; [done|]. intros Heq'. by injection Heq'. }
    split.
    { unfold used, total_slots. simpl.
      rewrite (map_sum_insert_Some _ _ _ sl) by done. simpl. lia. }
    split.
    { intros Hni addr sl' Hs'. simpl in Hs'.
      apply lookup_insert_Some in Hs' as [[-> <-]|[Hne Hs']]; [|by apply (Hni addr)].
      simpl. assert (freeSlots sl + 1 ≠ slabSize sl); [|lia].
      intros H1. apply Hnot. split; [done|]. done. }
    right. done.
Qed.

End deallocate.

(** ** reserve and the constructor *)

Section reserve.

Variables (stackSize sizeof_T : Z).

Local Abbreviation Inv := (Inv stackSize sizeof_T).

Lemma reserve_spec p a n :
  Inv (p, a) → 0 ≤ n < 2 ^ 32 → room a n →
  ∃ p' a',
    reserve n (p, a) = Some (p', a') ∧
    Inv (p', a') ∧ frame (p, a) (p', a') ∧ pool_tracks (p, a) (p', a') ∧
    (∀ x, live a' x ↔ live a x) ∧ used a' = used a ∧
    (∀ sp, is_Some (store a !! sp) → is_Some (store a' !! sp)) ∧
    n ≤ freeSlotCount a'.
Proof.
  intros (HI & Hfr & HS) Hn Hroom. simpl in *.
  pose proof (sum_free_nonneg a HI) as Hnn. rewrite <- (inv_count a HI) in Hnn.
  unfold reserve, _reserve. cbn [snd].
  destruct (decide (freeSlotCount a < n)) as [Hlt|Hge].
  - rewrite wrap64_id by lia.
    destruct (addSlab_spec p a (n - freeSlotCount a) HI Hfr) as
      (p1 & a1 & Hadd & Hnone & Hst1 & Hh1 & Hfc1 & Hbrk1 & HI1 & Hfr1 & Hframe1 & Htr1 & Hl1);
      [lia|unfold room in *; lia|].
    exists p1, a1. split; [done|].
    split.
    { split; [done|]. split; [done|]. simpl. destruct Hframe1 as (?&?&?&?).
      by eapply (Inv_stack_heap_insert _ _ a a1). }
    split; [done|]. split; [done|]. split; [done|].
    split.
    { unfold used. rewrite Hst1, Hfc1. unfold total_slots.
      rewrite map_sum_insert by done. simpl. lia. }
    split; [|lia].
    intros sp Hs. rewrite Hst1, lookup_insert_is_Some.
    destruct (decide (HeapSlab (brk p) = sp)); [by left|by right].
  - exists p, a. split; [done|]. split; [done|].
    split; [apply frame_refl|]. split; [apply pool_tracks_refl|].
    split; [done|]. split; [done|]. split; [done|]. lia.
Qed.

Lemma Inv_core_empty this c ts : Inv_core (mk_alloc this [] 0 c ts ∅).
Proof.
  constructor; simpl.
  - constructor.
  - intros sp sl Hs. by rewrite lookup_empty in Hs.
  - intros sp sl Hs. by rewrite lookup_empty in Hs.
  - intros sp Hin. by apply elem_of_nil in Hin.
  - unfold sum_free. by rewrite map_sum_empty.
  - unfold fits, total_slots. rewrite map_sum_empty. lia.
Qed.

Lemma ctor_eq this p :
  0 ≤ stackSize < 2 ^ 32 →
  slab_allocator_ctor stackSize sizeof_T this p =
  Some (mk_pool (allocated_items p + stackSize) (free_items p + stackSize)
          (slabs p + 1) (brk p),
        mk_alloc this (if decide (stackSize = 0) then [] else [StackSlab this])
          stackSize stackSize (sizeof_slot_t sizeof_T)
          (<[StackSlab this := full_slab stackSize]> ∅)).
Proof.
  intros Hsz. unfold slab_allocator_ctor, slab_new.
  rewrite initSlab_eq; [done|apply Inv_core_empty|apply lookup_empty|done|].
  simpl. unfold total_slots. rewrite map_sum_empty. lia.
Qed.

Lemma ctor_spec this p st :
  0 ≤ stackSize < 2 ^ 32 →
  slab_allocator_ctor stackSize sizeof_T this p = Some st →
  Inv st ∧ pool_rel p st ∧ no_idle_heap st.2 ∧ selfPointer st.2 = this ∧
  (∀ x, ¬ live st.2 x) ∧ brk st.1 = brk p.
Proof.
  intros Hsz Hc. rewrite ctor_eq in Hc by done. injection Hc as <-. simpl.
  split; [split; [|split]|split; [|split; [|split; [|split]]]]; simpl.
  - apply (Inv_full_slab (mk_alloc this [] 0 stackSize (sizeof_slot_t sizeof_T) ∅)
             (StackSlab this) stackSize); simpl.
    + apply Inv_core_empty.
    + apply lookup_empty.
    + done.
    + unfold total_slots. rewrite map_sum_empty. lia.
  - intros addr Hs. simpl in Hs. rewrite lookup_insert_ne in Hs by done.
    rewrite lookup_empty in Hs. by destruct Hs.
  - constructor; simpl.
    + exists (full_slab stackSize). by rewrite lookup_insert_eq.
    + intros t Hs. apply lookup_insert_is_Some in Hs as [Heq|[_ Hs]].
      * by injection Heq.
      * rewrite lookup_empty in Hs. by destruct Hs.
    + done.
    + done.
  - unfold pool_rel, total_slots. simpl.
    rewrite map_sum_insert by apply lookup_empty. rewrite map_sum_empty.
    rewrite map_size_insert_None by apply lookup_empty. rewrite map_size_empty. simpl. lia.
  - intros addr sl Hs. cbn [store] in Hs. rewrite lookup_insert_ne in Hs by done.
    by rewrite lookup_empty in Hs.
  - done.
  - unfold live. cbn [store]. intros [sp j] Hl.
    destruct (decide (sp = StackSlab this)) as [->|Hne].
    + by apply full_slab_not_live in Hl.
    + rewrite live_insert_ne in Hl by done. destruct Hl as (sl & Hs & _).
      simpl in Hs. by rewrite lookup_empty in Hs.
  - done.
Qed.

End reserve.

(** ** Reachable states *)

Lemma pool_rel_step pinit st st' :
  pool_rel pinit st → pool_tracks st st' → pool_rel pinit st'.
Proof. unfold pool_rel, pool_tracks. lia. Qed.

Section reachable_facts.

Variables (stackSize heapSize sizeof_T : Z).
Variables (this : nat) (pinit : pool_t).
Hypothesis stackSize_range : 0 ≤ stackSize < 2 ^ 32.
Hypothesis heapSize_range : 1 ≤ heapSize < 2 ^ 32.

Local Abbreviation Inv := (Inv stackSize sizeof_T).
Local Abbreviation reachable := (reachable stackSize heapSize sizeof_T this pinit).

Lemma reachable_Inv b st :
  reachable b st →
  Inv st ∧ pool_rel pinit st ∧ selfPointer st.2 = this ∧
  (b = false → no_idle_heap st.2).
Proof.
  induction 1 as [st Hc | st st' q Hr IH Hroom Ha | st st' q s Hr IH Hl Hd
                  | st st' n Hb Hr IH Hn Hroom Hres].
  - destruct (ctor_spec stackSize sizeof_T this pinit st stackSize_range Hc)
      as (HI & Hp & Hni & Hself & _). done.
  - destruct IH as (HI & Hp & Hself & Hni).
    destruct (allocate_spec stackSize heapSize sizeof_T heapSize_range st HI Hroom)
      as (st2 & q2 & Ha2 & HI2 & Hf2 & Ht2 & _ & _ & _ & Hni2 & _ & _).
    rewrite Ha in Ha2. injection Ha2 as <- <-.
    split; [done|]. split; [by eapply pool_rel_step|].
    split; [destruct Hf2 as (-> & _); done|]. auto.
  - destruct IH as (HI & Hp & Hself & Hni). destruct st as [p a].
    destruct (deallocate_spec stackSize sizeof_T p a q s HI Hl)
      as (p2 & a2 & sl & Hd2 & _ & HI2 & Hf2 & Ht2 & _ & _ & Hni2 & _).
    rewrite Hd in Hd2. injection Hd2 as ->.
    split; [done|]. split; [by eapply pool_rel_step|].
    split; [destruct Hf2 as (-> & _); done|]. auto.
  - destruct IH as (HI & Hp & Hself & Hni). destruct st as [p a].
    destruct (reserve_spec stackSize sizeof_T p a n HI Hn Hroom)
      as (p2 & a2 & Hres2 & HI2 & Hf2 & Ht2 & _).
    rewrite Hres in Hres2. injection Hres2 as ->.
    split; [done|]. split; [by eapply pool_rel_step|].
    split; [destruct Hf2 as (-> & _); done|]. intros ->. done.
Qed.

Lemma reachable_weaken st : reachable false st → reachable true st.
Proof.
  induction 1.
  - by apply reach_ctor.
  - by eapply reach_allocate.
  - by eapply reach_deallocate.
  - done.
Qed.

End reachable_facts.

Section run_facts.

Variables (stackSize heapSize sizeof_T : Z).
Variables (this : nat) (pinit : pool_t).

Local Abbreviation reachable := (reachable stackSize heapSize sizeof_T this pinit).

Lemma step_reachable b o st st' :
  (is_reserve o = true → b = true) →
  reachable b st → step heapSize sizeof_T o st = Some st' → reachable b st'.
Proof.
  intros Hb Hr Hs. destruct o as [|q|n]; unfold step in Hs.
  - case_guard; [|discriminate Hs]. cbn [mbind option_bind] in Hs.
    destruct (allocate heapSize sizeof_T 1 st) as [[st2 q]|] eqn:Ha; [|done].
    injection Hs as <-. by eapply reach_allocate.
  - case_guard; [|discriminate Hs]. cbn [mbind option_bind] in Hs.
    by apply (reach_deallocate stackSize heapSize sizeof_T this pinit b st st' q 1).
  - do 2 case_guard; simpl in Hs; try discriminate Hs.
    apply (reach_reserve stackSize heapSize sizeof_T this pinit b st st' n);
      [by apply Hb|done..].
Qed.

Lemma run_reachable b ops : ∀ st st',
  (b = false → Forall (λ o, is_reserve o = false) ops) →
  reachable b st → run heapSize sizeof_T ops st = Some st' → reachable b st'.
Proof.
  induction ops as [|o ops IH]; intros st st' Hb Hr Hrun; simpl in Hrun.
  - by injection Hrun as <-.
  - destruct (step heapSize sizeof_T o st) as [st1|] eqn:Hs; [|done]. simpl in Hrun.
    apply (IH st1 st'); [| |done].
    + intros Hf. specialize (Hb Hf). by inversion Hb.
    + apply (step_reachable b o st st1); [|done|done].
      destruct b; [done|]. intros Hres. specialize (Hb eq_refl).
      inversion Hb; subst. congruence.
Qed.

Lemma run_ctor_reachable b ops st :
  (b = false → Forall (λ o, is_reserve o = false) ops) →
  run_ctor stackSize heapSize sizeof_T this pinit ops = Some st → reachable b st.
Proof.
  intros Hb Hrun. unfold run_ctor in Hrun.
  destruct (slab_allocator_ctor stackSize sizeof_T this pinit) as [st0|] eqn:Hc; [|done].
  simpl in Hrun. eapply run_reachable; [done| |done]. by apply reach_ctor.
Qed.

End run_facts.

(** * The claims *)

(** ** C1: the free-slab list *)

(** C1 (as amended).  In every state that [allocate], [deallocate] and
    [reserve] reach, a slab of the allocator, the inline slab included, is
    linked on the free-slab list if and only if its [freeSlots] count is at
    least 1. *)
Theorem C1_linked_iff_free_slot stackSize heapSize sizeof_T this pinit b st sp sl :
  0 ≤ stackSize < 2 ^ 32 → 1 ≤ heapSize < 2 ^ 32 →
  reachable stackSize heapSize sizeof_T this pinit b st →
  store st.2 !! sp = Some sl →
  (sp ∈ freeSlabHeads st.2 ↔ 1 ≤ freeSlots sl).
Proof.
  intros Hss Hhs Hr Hs.
  destruct (reachable_Inv stackSize heapSize sizeof_T this pinit Hss Hhs b st Hr)
    as ((HI & _) & _).
  by apply (inv_linked st.2 HI).
Qed.

(** A list of four inline slots and heap slabs of twelve, its inline slab
    exhausted by four allocations. *)
Lemma C1_witness :
  ∃ st sl,
    run_ctor 4 12 24 0 (mk_pool 0 0 0 0) [Allocate; Allocate; Allocate; Allocate; Allocate]
      = Some st ∧
    store st.2 !! HeapSlab 0 = Some sl ∧
    (HeapSlab 0 ∈ freeSlabHeads st.2 ↔ 1 ≤ freeSlots sl).
Proof.
  eexists _, _. split; [vm_compute; reflexivity|]. split; [vm_compute; reflexivity|].
  apply (C1_linked_iff_free_slot 4 12 24 0 (mk_pool 0 0 0 0) true); [lia|lia| |].
  - apply (run_ctor_reachable 4 12 24 0 (mk_pool 0 0 0 0) true
             [Allocate; Allocate; Allocate; Allocate; Allocate]); [done|].
    vm_compute. reflexivity.
  - vm_compute. reflexivity.
Defined.

(** C1, counterexample: after four allocations from a list with four inline
    slots the inline slab has no free slot and is not on the free-slab list,
    so the inline slab is not always linked. *)
Lemma C1_inline_slab_unlinked :
  ∃ st, run_ctor 4 12 24 0 (mk_pool 0 0 0 0) [Allocate; Allocate; Allocate; Allocate]
          = Some st ∧
        reachable 4 12 24 0 (mk_pool 0 0 0 0) true st ∧
        store st.2 !! StackSlab 0 = Some (mk_slab 4 0 []) ∧
        freeSlabHeads st.2 = [] ∧
        ¬ inline_always_linked st.2.
Proof.
  eexists. split; [vm_compute; reflexivity|].
  split.
  { apply (run_ctor_reachable 4 12 24 0 (mk_pool 0 0 0 0) true
             [Allocate; Allocate; Allocate; Allocate]); [done|].
    vm_compute. reflexivity. }
  split; [vm_compute; reflexivity|]. split; [vm_compute; reflexivity|].
  intros H. specialize (H (StackSlab 0) (mk_slab 4 0 []) ltac:(vm_compute; reflexivity)).
  destruct H as [_ H]. specialize (H (or_intror eq_refl)).
  vm_compute in H. by apply elem_of_nil in H.
Qed.

(** ** C2: reserve *)

Lemma wrap64_succ z : wrap64 (wrap64 z + 1) = wrap64 (z + 1).
Proof. unfold wrap64. by rewrite Zplus_mod_idemp_l. Qed.

Lemma freeslot_false_count s p a :
  is_Some (store a !! s.1) →
  ∃ p' a',
    freeslot s false (p, a) = Some (p', a') ∧
    freeSlotCount a' = wrap64 (freeSlotCount a + 1) ∧
    allocSlotCount a' = allocSlotCount a ∧
    is_Some (store a' !! s.1) ∧
    allocated_items p' = allocated_items p ∧ slabs p' = slabs p ∧ brk p' = brk p.
Proof.
  intros [sl Hs]. unfold freeslot. rewrite Hs. simpl.
  eexists _, _. split; [done|]. simpl.
  rewrite lookup_insert_eq. repeat split; eauto.
Qed.

Lemma initSlab_loop_count sp n : ∀ i p a,
  is_Some (store a !! sp) →
  ∃ p' a',
    initSlab_loop n i sp (p, a) = Some (p', a') ∧
    wrap64 (freeSlotCount a') = wrap64 (freeSlotCount a + Z.of_nat n) ∧
    (n ≠ O → freeSlotCount a' = wrap64 (freeSlotCount a + Z.of_nat n)) ∧
    allocSlotCount a' = allocSlotCount a ∧
    allocated_items p' = allocated_items p ∧ slabs p' = slabs p ∧ brk p' = brk p.
Proof.
  induction n as [|n IH]; intros i p a Hs.
  - exists p, a. simpl. rewrite Z.add_0_r. done.
  - cbn [initSlab_loop].
    destruct (freeslot_false_count (sp, i) p a Hs)
      as (p1 & a1 & Hf & Hfc & Hac & Hs1 & Hal & Hsl & Hbrk).
    rewrite Hf. cbn [mbind option_bind].
    destruct (IH (i + 1) p1 a1 Hs1) as (p2 & a2 & Hl & Hfc2 & Hfc2' & Hac2 & Hal2 & Hsl2 & Hbrk2).
    exists p2, a2. split; [done|].
    assert (wrap64 (freeSlotCount a2) = wrap64 (freeSlotCount a + Z.of_nat (S n))) as Hw.
    { rewrite Hfc2, Hfc. unfold wrap64. rewrite Zplus_mod_idemp_l. f_equal. lia. }
    split; [done|]. split; [|repeat split; congruence].
    intros _. destruct n as [|n].
    + simpl in Hl. injection Hl as <- <-. rewrite Hfc. done.
    + rewrite <- Hw. rewrite Hfc2' by done. unfold wrap64. by rewrite Zmod_mod.
Qed.

Lemma addSlab_count c p a :
  0 < c →
  ∃ p' a',
    addSlab c (p, a) = Some (p', a') ∧
    freeSlotCount a' = wrap64 (freeSlotCount a + c) ∧
    allocSlotCount a' = allocSlotCount a ∧
    allocated_items p' = allocated_items p + c ∧ slabs p' = slabs p + 1 ∧
    brk p' = S (brk p).
Proof.
  intros Hc. unfold addSlab, slab_new, initSlab.
  edestruct (initSlab_loop_count (HeapSlab (brk p)) (Z.to_nat c) 0) as
    (p' & a' & Hl & _ & Hfc & Hac & Hal & Hsl & Hbrk); cycle 1.
  - exists p', a'. split; [exact Hl|]. simpl in *.
    rewrite Hfc by lia. rewrite Z2Nat.id by lia. done.
  - simpl. rewrite lookup_insert_eq. by eexists.
Qed.

(** C2.  Whatever the state of the allocator and whatever [n]: when
    [freeSlotCount < n], [reserve(n)] is the single call
    [addSlab(n - freeSlotCount)], which makes one request to the heap, for
    one slab of that many slots, and leaves [freeSlotCount] at [n]; when
    [freeSlotCount >= n] it changes nothing.  A second [reserve(n)] right
    after the first changes nothing. *)
Theorem C2_reserve_single_slab n p a :
  0 ≤ freeSlotCount a < 2 ^ 64 → 0 ≤ n < 2 ^ 64 →
  (freeSlotCount a < n →
   ∃ p' a',
     reserve n (p, a) = addSlab (n - freeSlotCount a) (p, a) ∧
     reserve n (p, a) = Some (p', a') ∧
     brk p' = S (brk p) ∧ slabs p' = slabs p + 1 ∧
     allocated_items p' = allocated_items p + (n - freeSlotCount a) ∧
     n ≤ freeSlotCount a' ∧
     reserve n (p', a') = Some (p', a')) ∧
  (n ≤ freeSlotCount a → reserve n (p, a) = Some (p, a)).
Proof.
  intros Hfc Hn. split.
  - intros Hlt.
    destruct (addSlab_count (n - freeSlotCount a) p a) as
      (p' & a' & Hadd & Hfc' & _ & Hal & Hsl & Hbrk); [lia|].
    assert (reserve n (p, a) = addSlab (n - freeSlotCount a) (p, a)) as Hres.
    { unfold reserve, _reserve. cbn [snd]. rewrite decide_True by done.
      by rewrite wrap64_id by lia. }
    replace (freeSlotCount a + (n - freeSlotCount a)) with n in Hfc' by lia.
    rewrite wrap64_id in Hfc' by done.
    exists p', a'. split; [done|]. split; [by rewrite Hres|].
    split; [done|]. split; [done|]. split; [done|]. split; [lia|].
    unfold reserve, _reserve. cbn [snd]. by rewrite decide_False by lia.
  - intros Hge. unfold reserve, _reserve. cbn [snd]. by rewrite decide_False by lia.
Qed.

(** [b.reserve(9)] on a fresh list of four inline slots, then once more. *)
Lemma C2_witness :
  ∃ p a, slab_allocator_ctor 4 24 0 (mk_pool 0 0 0 0) = Some (p, a) ∧
   (freeSlotCount a < 9 →
    ∃ p' a',
     reserve 9 (p, a) = addSlab (9 - freeSlotCount a) (p, a) ∧
     reserve 9 (p, a) = Some (p', a') ∧
     brk p' = S (brk p) ∧ slabs p' = slabs p + 1 ∧
     allocated_items p' = allocated_items p + (9 - freeSlotCount a) ∧
     9 ≤ freeSlotCount a' ∧
     reserve 9 (p', a') = Some (p', a')) ∧
   (9 ≤ freeSlotCount a → reserve 9 (p, a) = Some (p, a)).
Proof.
  eexists _, _. split; [vm_compute; reflexivity|].
  apply (C2_reserve_single_slab 9); simpl; lia.
Defined.

(** ** C7: addSlab *)

(** C7 (as amended).  For every capacity [c] that fits the [uint32_t] fields
    of a slab, [addSlab(c)] obtains a new heap slab from the mempool, pushes
    all [c] slots on that slab's free chain, links the slab at the head of
    the free-slab list (a slab without slots is left unlinked) and adds [c]
    to [freeSlotCount]; [allocSlotCount] keeps its value. *)
Theorem C7_addSlab c p a :
  Inv_core a → fresh p a → 0 ≤ c < 2 ^ 32 → room a c →
  ∃ p' a',
    addSlab c (p, a) = Some (p', a') ∧
    store a !! HeapSlab (brk p) = None ∧
    brk p' = S (brk p) ∧ slabs p' = slabs p + 1 ∧
    store a' = <[HeapSlab (brk p) := full_slab c]> (store a) ∧
    slabSize (full_slab c) = c ∧ freeSlots (full_slab c) = c ∧
    (∀ i, i ∈ freeHead (full_slab c) ↔ 0 ≤ i < c) ∧
    freeSlabHeads a' =
      (if decide (c = 0) then freeSlabHeads a else HeapSlab (brk p) :: freeSlabHeads a) ∧
    freeSlotCount a' = freeSlotCount a + c ∧
    allocSlotCount a' = allocSlotCount a.
Proof.
  intros HI Hfr Hc Hroom.
  destruct (addSlab_spec p a c HI Hfr Hc Hroom) as
    (p' & a' & Hadd & Hnone & Hst & Hh & Hfc & Hbrk & _ & _ & Hframe & Htr & _).
  exists p', a'. split; [done|]. split; [done|]. split; [done|].
  split.
  { destruct Htr as (_ & _ & Hsl). simpl in Hsl. rewrite Hst in Hsl.
    rewrite map_size_insert_None in Hsl by done. lia. }
  split; [done|]. split; [done|]. split; [done|].
  split.
  { intros i. simpl. rewrite elem_of_reverse, elem_of_seqZ. lia. }
  split; [done|]. split; [done|]. by destruct Hframe as (_ & ? & _).
Qed.

Lemma C7_witness :
  ∃ p a p' a',
    slab_allocator_ctor 4 24 0 (mk_pool 0 0 0 0) = Some (p, a) ∧
    addSlab 5 (p, a) = Some (p', a') ∧
    store a !! HeapSlab (brk p) = None ∧
    brk p' = S (brk p) ∧ slabs p' = slabs p + 1 ∧
    store a' = <[HeapSlab (brk p) := full_slab 5]> (store a) ∧
    slabSize (full_slab 5) = 5 ∧ freeSlots (full_slab 5) = 5 ∧
    (∀ i, i ∈ freeHead (full_slab 5) ↔ 0 ≤ i < 5) ∧
    freeSlabHeads a' =
      (if decide (5 = 0) then freeSlabHeads a else HeapSlab (brk p) :: freeSlabHeads a) ∧
    freeSlotCount a' = freeSlotCount a + 5 ∧
    allocSlotCount a' = allocSlotCount a.
Proof.
  destruct (ctor_spec 4 24 0 (mk_pool 0 0 0 0) _ ltac:(lia) (ctor_eq 4 24 0 (mk_pool 0 0 0 0) ltac:(lia)))
    as ((HI & Hfr & _) & _).
  eexists _, _. 
  edestruct (C7_addSlab 5 _ _ HI Hfr) as (p' & a' & H); [lia|vm_compute; reflexivity|].
  exists p', a'. split; [apply ctor_eq; lia|]. exact H.
Defined.

(** C7, counterexample: [reserve(9)] on a fresh list of four inline slots
    calls [addSlab(5)]; [allocSlotCount] is 4 before and after. *)
Lemma C7_allocSlotCount_unchanged :
  ∃ st st',
    slab_allocator_ctor 4 24 0 (mk_pool 0 0 0 0) = Some st ∧
    addSlab 5 st = Some st' ∧
    allocSlotCount st.2 = 4 ∧ allocSlotCount st'.2 = 4 ∧
    allocSlotCount st'.2 ≠ allocSlotCount st.2 + 5.
Proof.
  eexists _, _. split; [vm_compute; reflexivity|]. split; [vm_compute; reflexivity|].
  split; [reflexivity|]. split; [reflexivity|]. simpl. lia.
Qed.

(** ** C10: the inline array of the vector allocator *)

(** C10.  Two requests for at most [stackSize] elements are answered with the
    same pointer, the inline array, whether or not the first request has been
    returned; neither touches the pool; and [deallocate] of that pointer does
    nothing, whatever its size argument. *)
Theorem C10_inline_array stackSize sizeof_T this c1 c2 s p :
  c1 ≤ stackSize → c2 ≤ stackSize →
  let r1 := slab_vector_allocator.allocate stackSize sizeof_T this c1 p in
  let r2 := slab_vector_allocator.allocate stackSize sizeof_T this c2 r1.1 in
  r1 = (p, StackSlot this) ∧ r2 = (p, StackSlot this) ∧ r1.2 = r2.2 ∧
  slab_vector_allocator.allocate stackSize sizeof_T this c2
    (slab_vector_allocator.deallocate sizeof_T this r1.2 s r1.1) = (p, StackSlot this) ∧
  slab_vector_allocator.deallocate sizeof_T this r1.2 s p = p.
Proof.
  intros H1 H2 r1 r2.
  assert (∀ c q, c ≤ stackSize →
            slab_vector_allocator.allocate stackSize sizeof_T this c q = (q, StackSlot this))
    as Ha.
  { intros c q Hc. unfold slab_vector_allocator.allocate. by rewrite decide_True. }
  assert (∀ q, slab_vector_allocator.deallocate sizeof_T this (StackSlot this) s q = q)
    as Hd.
  { intros q. unfold slab_vector_allocator.deallocate.
    by rewrite decide_False by (intros H; by apply H). }
  subst r1 r2. rewrite !Ha by done. cbn [fst snd]. by rewrite !Hd.
Qed.

Lemma C10_witness :
  let r1 := slab_vector_allocator.allocate 4 4 7 3 (mk_pool 4 0 1 0) in
  let r2 := slab_vector_allocator.allocate 4 4 7 4 r1.1 in
  r1 = (mk_pool 4 0 1 0, StackSlot 7) ∧ r2 = (mk_pool 4 0 1 0, StackSlot 7) ∧ r1.2 = r2.2 ∧
  slab_vector_allocator.allocate 4 4 7 4
    (slab_vector_allocator.deallocate 4 7 r1.2 9 r1.1) = (mk_pool 4 0 1 0, StackSlot 7) ∧
  slab_vector_allocator.deallocate 4 7 r1.2 9 (mk_pool 4 0 1 0) = mk_pool 4 0 1 0.
Proof. apply (C10_inline_array 4 4 7 3 4 9 (mk_pool 4 0 1 0)); lia. Defined.

(** ** C4: release of slabs *)

Section release.

Variables (stackSize heapSize sizeof_T : Z).
Variables (this : nat) (pinit : pool_t).
Hypothesis stackSize_range : 0 ≤ stackSize < 2 ^ 32.
Hypothesis heapSize_range : 1 ≤ heapSize < 2 ^ 32.

Local Abbreviation reachable := (reachable stackSize heapSize sizeof_T this pinit).

Lemma reachable_true b st : reachable b st → reachable true st.
Proof. destruct b; [done|]. by apply reachable_weaken. Qed.

(** C4.  From a reachable state, one operation releases a slab [sp] exactly
    when it is the [deallocate] of a slot of [sp], the free makes the slab
    entirely empty ([freeSlots == slabSize]) and [sp] is not the inline slab.
    The released slab is then a heap slab, is off the free-slab list,
    [freeSlotCount] has gone down by [slabSize] (after the increment for the
    freed slot), and the pool has one slab and [slabSize] slots less.  The
    inline slab is in the store after every operation. *)
Theorem C4_release_only_when_empty b st o st' :
  reachable b st → step heapSize sizeof_T o st = Some st' →
  is_Some (store st'.2 !! StackSlab this) ∧
  (∀ sp sl, store st.2 !! sp = Some sl →
    (store st'.2 !! sp = None ↔
       ((∃ i, o = Deallocate (sp, i)) ∧ freeSlots sl + 1 = slabSize sl ∧
        sp ≠ StackSlab this)) ∧
    (store st'.2 !! sp = None →
       (∃ addr, sp = HeapSlab addr) ∧
       (sp ∉ freeSlabHeads st'.2) ∧
       freeSlotCount st'.2 = freeSlotCount st.2 + 1 - slabSize sl ∧
       slabs st'.1 = slabs st.1 - 1 ∧
       allocated_items st'.1 = allocated_items st.1 - slabSize sl)).
Proof.
  intros Hr Hstep.
  pose proof (reachable_true b st Hr) as Hrt.
  assert (reachable true st') as Hrt'.
  { by apply (step_reachable stackSize heapSize sizeof_T this pinit true o st st'). }
  destruct (reachable_Inv stackSize heapSize sizeof_T this pinit
              stackSize_range heapSize_range true st Hrt) as (HInv & _ & Hself & _).
  destruct (reachable_Inv stackSize heapSize sizeof_T this pinit
              stackSize_range heapSize_range true st' Hrt') as (HInv' & _ & Hself' & _).
  split.
  { destruct HInv' as (_ & _ & [(sl0 & Hs0 & _) _ _ _]). rewrite Hself' in Hs0. by eexists. }
  intros sp sl Hs.
  assert (∀ st2 : state, (∀ sp', is_Some (store st.2 !! sp') → is_Some (store st2.2 !! sp')) →
                 store st2.2 !! sp = None → False) as Hkeep.
  { intros st2 Hdom Hnone. destruct (Hdom sp) as [? ?]; [by eexists|congruence]. }
  destruct o as [|q|n]; unfold step in Hstep.
  - case_guard; [|discriminate Hstep]. cbn [mbind option_bind] in Hstep.
    destruct (allocate_spec stackSize heapSize sizeof_T heapSize_range st HInv)
      as (st2 & q2 & Ha2 & _ & _ & _ & _ & _ & _ & _ & Hdom & _); [done|].
    rewrite Ha2 in Hstep. injection Hstep as <-.
    split; [split|]; intros Hx; [by destruct (Hkeep st2)|by destruct Hx as [[? ?] _]
                                |by destruct (Hkeep st2)].
  - case_guard; [|discriminate Hstep]. cbn [mbind option_bind] in Hstep.
    destruct st as [p a]. cbn [fst snd] in *.
    destruct (deallocate_spec stackSize sizeof_T p a q 1 HInv)
      as (p2 & a2 & sl2 & Hd2 & Hs2 & _ & _ & _ & _ & _ & _ & Hcase); [done|].
    rewrite Hd2 in Hstep. injection Hstep as <-. cbn [fst snd] in *.
    destruct HInv as (HI & _ & HS).
    destruct Hcase as [(Hfull & Hne & Hst & Hh & Hfc & Hp)|(Hnot & Hst & Hh & Hfc & Hp)].
    + destruct (decide (sp = q.1)) as [->|Hsp].
      * rewrite Hs in Hs2. injection Hs2 as <-. rewrite Hself in Hne.
        split.
        -- split; [intros _|intros _; rewrite Hst; apply lookup_delete_eq].
           split; [exists q.2; by destruct q|done].
        -- intros _. split.
           { destruct (q.1) as [t|addr] eqn:Eq; [|by eexists].
             exfalso. apply Hne. f_equal. rewrite <- Hself.
             apply (inv_stack_only _ _ a HS). by eexists. }
           split.
           { rewrite Hh. apply unlink_NoDup, (inv_nodup a HI). }
           split; [done|]. rewrite Hp. simpl. lia.
      * rewrite Hst, lookup_delete_ne by done. rewrite Hs.
        split; [split; [done|]|done].
        intros [[i Hi] _]. injection Hi as Hi. destruct q; simpl in *; congruence.
    + rewrite Hst.
      destruct (decide (sp = q.1)) as [->|Hsp].
      * rewrite lookup_insert_eq. rewrite Hs in Hs2. injection Hs2 as <-.
        rewrite Hself in Hnot.
        split; [split; [done|]|done]. intros (_ & ? & ?). by destruct Hnot.
      * rewrite lookup_insert_ne by done. rewrite Hs.
        split; [split; [done|]|done].
        intros [[i Hi] _]. injection Hi as Hi. destruct q; simpl in *; congruence.
  - do 2 case_guard; simpl in Hstep; try discriminate Hstep.
    destruct st as [p a]. cbn [fst snd] in *.
    destruct (reserve_spec stackSize sizeof_T p a n HInv)
      as (p2 & a2 & Hr2 & _ & _ & _ & _ & _ & Hdom & _); [done|done|].
    rewrite Hr2 in Hstep. injection Hstep as <-.
    split; [split|]; intros Hx; [by destruct (Hkeep (p2, a2))|by destruct Hx as [[? ?] _]
                                |by destruct (Hkeep (p2, a2))].
Qed.

End release.

Lemma C4_witness :
  ∃ st st',
    run_ctor 4 12 24 0 (mk_pool 0 0 0 0) [Allocate; Allocate; Allocate; Allocate; Allocate]
      = Some st ∧
    step 12 24 (Deallocate (HeapSlab 0, 11)) st = Some st' ∧
    store st.2 !! HeapSlab 0 = Some (mk_slab 12 11 (reverse (seqZ 0 11))) ∧
    store st'.2 !! HeapSlab 0 = None ∧
    is_Some (store st'.2 !! StackSlab 0) ∧
    (∀ sp sl, store st.2 !! sp = Some sl →
      (store st'.2 !! sp = None ↔
         ((∃ i, Deallocate (HeapSlab 0, 11) = Deallocate (sp, i)) ∧
          freeSlots sl + 1 = slabSize sl ∧ sp ≠ StackSlab 0)) ∧
      (store st'.2 !! sp = None →
         (∃ addr, sp = HeapSlab addr) ∧
         (sp ∉ freeSlabHeads st'.2) ∧
         freeSlotCount st'.2 = freeSlotCount st.2 + 1 - slabSize sl ∧
         slabs st'.1 = slabs st.1 - 1 ∧
         allocated_items st'.1 = allocated_items st.1 - slabSize sl)).
Proof.
  eexists _, _. split; [vm_compute; reflexivity|]. split; [vm_compute; reflexivity|].
  split; [vm_compute; reflexivity|]. split; [vm_compute; reflexivity|].
  apply (C4_release_only_when_empty 4 12 24 0 (mk_pool 0 0 0 0)
           ltac:(lia) ltac:(lia) true _ (Deallocate (HeapSlab 0, 11))).
  - apply (run_ctor_reachable 4 12 24 0 (mk_pool 0 0 0 0) true
             [Allocate; Allocate; Allocate; Allocate; Allocate]); [done|].
    vm_compute. reflexivity.
  - vm_compute. reflexivity.
Defined.

(** ** C3: clear *)

Lemma map_sum_ext f g m :
  (∀ sp sl, m !! sp = Some sl → f sl = g sl) → map_sum f m = map_sum g m.
Proof.
  intros H. apply Z.le_antisymm; apply map_sum_le; intros sp sl Hs;
    rewrite (H sp sl Hs); lia.
Qed.

(** A slab without a live slot has all its slots on the free chain. *)
Lemma no_live_full a sp sl :
  Inv_core a → (∀ x, ¬ live a x) → store a !! sp = Some sl →
  freeSlots sl = slabSize sl.
Proof.
  intros HI Hnl Hs.
  pose proof (inv_slab a HI sp sl Hs) as Hok.
  pose proof (slab_free_range sl Hok) as Hr.
  destruct Hok as [Hsz Hcnt Hnd Hrange].
  assert (seqZ 0 (slabSize sl) ⊆+ freeHead sl) as Hsub.
  { apply NoDup_submseteq; [apply NoDup_seqZ|].
    intros j Hj. apply elem_of_seqZ in Hj.
    destruct (decide (j ∈ freeHead sl)) as [|Hn]; [done|].
    exfalso. apply (Hnl (sp, j)). exists sl. simpl. split; [done|]. split; [lia|done]. }
  apply submseteq_length in Hsub. rewrite length_seqZ in Hsub. lia.
Qed.

Section clear.

Variables (stackSize sizeof_T : Z).

Local Abbreviation Inv := (Inv stackSize sizeof_T).

Lemma clear_nodes_spec ns : ∀ st,
  Inv st → NoDup ns → (∀ q, q ∈ ns → live st.2 q) →
  ∃ st',
    clear_nodes ns st = Some st' ∧ Inv st' ∧ frame st st' ∧ pool_tracks st st' ∧
    (∀ x, live st'.2 x ↔ live st.2 x ∧ x ∉ ns) ∧
    used st'.2 = used st.2 - Z.of_nat (length ns) ∧
    (no_idle_heap st.2 → no_idle_heap st'.2).
Proof.
  induction ns as [|q ns IH]; intros st HInv Hnd Hlive.
  - exists st. split; [done|]. split; [done|].
    split; [apply frame_refl|]. split; [apply pool_tracks_refl|].
    split.
    { intros x. split; [intros ?; split; [done|apply not_elem_of_nil]|by intros [? _]]. }
    split; [simpl; lia|done].
  - apply NoDup_cons in Hnd as [Hq Hnd]. destruct st as [p a].
    destruct (deallocate_spec stackSize sizeof_T p a q 1 HInv)
      as (p1 & a1 & sl & Hd & _ & HInv1 & Hf1 & Ht1 & Hl1 & Hu1 & Hni1 & _).
    { apply Hlive. by left. }
    destruct (IH (p1, a1) HInv1 Hnd) as (st' & Hc & HInv' & Hf' & Ht' & Hl' & Hu' & Hni').
    { intros x Hx. cbn [snd]. rewrite Hl1. split; [apply Hlive; by right|].
      intros ->. done. }
    exists st'. cbn [clear_nodes]. rewrite Hd. cbn [mbind option_bind].
    split; [done|]. split; [done|].
    split; [by eapply frame_trans|]. split; [by eapply pool_tracks_trans|].
    split.
    { intros x. rewrite Hl'. cbn [snd]. rewrite Hl1, not_elem_of_cons. tauto. }
    split.
    { rewrite Hu'. cbn [snd length]. rewrite Hu1. lia. }
    auto.
Qed.

End clear.

Section clear_claim.

Variables (stackSize heapSize sizeof_T : Z).
Variables (this : nat) (pinit : pool_t).
Hypothesis stackSize_range : 0 ≤ stackSize < 2 ^ 32.
Hypothesis heapSize_range : 1 ≤ heapSize < 2 ^ 32.

Local Abbreviation reachable := (reachable stackSize heapSize sizeof_T this pinit).

Lemma clear_all_spec st ns :
  reachable false st → NoDup ns → (∀ q, q ∈ ns ↔ live st.2 q) →
  ∃ st' sl,
    clear_nodes ns st = Some st' ∧
    Inv stackSize sizeof_T st' ∧ pool_rel pinit st' ∧ selfPointer st'.2 = this ∧
    (∀ q, ¬ live st'.2 q) ∧
    store st'.2 = {[ StackSlab this := sl ]} ∧
    slabSize sl = stackSize ∧ freeSlots sl = stackSize ∧
    freeSlotCount st'.2 = stackSize.
Proof.
  intros Hr Hnd Hns.
  destruct (reachable_Inv stackSize heapSize sizeof_T this pinit
              stackSize_range heapSize_range false st Hr) as (HInv & Hp & Hself & Hni).
  specialize (Hni eq_refl).
  destruct (clear_nodes_spec stackSize sizeof_T ns st HInv Hnd)
    as (st' & Hc & HInv' & Hf & Ht & Hl & _ & Hni'); [intros q; apply Hns|].
  specialize (Hni' Hni).
  pose proof (pool_rel_step pinit st st' Hp Ht) as Hp'.
  assert (∀ x, ¬ live st'.2 x) as Hnl.
  { intros x Hx. apply Hl in Hx as [Hx Hn]. apply Hn, Hns, Hx. }
  pose proof HInv' as (HI' & _ & HS').
  destruct (inv_stack_slab _ _ _ HS') as (sl & Hs & Hsz).
  assert (selfPointer st'.2 = this) as Hself'.
  { destruct Hf as (-> & _). done. }
  rewrite Hself' in Hs.
  assert (store st'.2 = {[ StackSlab this := sl ]}) as Hst.
  { apply map_eq. intros sp. destruct (decide (sp = StackSlab this)) as [->|Hne].
    - by rewrite lookup_singleton_eq.
    - rewrite lookup_singleton_ne by done.
      destruct (store st'.2 !! sp) as [sl'|] eqn:Hs'; [exfalso|done].
      pose proof (no_live_full _ sp sl' HI' Hnl Hs') as Hfull.
      destruct sp as [t|addr].
      + apply Hne. f_equal. rewrite <- Hself'.
        apply (inv_stack_only _ _ _ HS'). by eexists.
      + specialize (Hni' addr sl' Hs'). lia. }
  pose proof (no_live_full _ _ sl HI' Hnl Hs) as Hfull.
  exists st', sl. split; [done|]. split; [done|]. split; [done|]. split; [done|].
  split; [done|]. split; [done|]. split; [done|]. split; [lia|].
  rewrite (inv_count _ HI'), Hst. unfold sum_free. rewrite <- insert_empty.
  rewrite map_sum_insert by apply lookup_empty. rewrite map_sum_empty. lia.
Qed.

(** C3.  Take a container that has never called [reserve], in any state its
    inserts and erases (allocations and deallocations of single nodes) lead
    to, and let [ns] be its nodes: the live slots of its allocator, in the
    order in which [clear()] walks them.  Then [clear()] succeeds, leaves no
    node in use -- the pool's [inuse_items] is back at its value from before
    the container was constructed -- and the only slab left in the allocator
    is the inline slab, all of whose slots are free. *)
Theorem C3_clear_releases_heap_slabs st ns :
  reachable false st → NoDup ns → (∀ q, q ∈ ns ↔ live st.2 q) →
  ∃ st' sl,
    clear_nodes ns st = Some st' ∧
    inuse_items st'.1 = inuse_items pinit ∧
    (∀ q, ¬ live st'.2 q) ∧
    store st'.2 = {[ StackSlab this := sl ]} ∧
    slabSize sl = stackSize ∧ freeSlots sl = stackSize ∧
    slabs st'.1 = slabs pinit + 1.
Proof.
  intros Hr Hnd Hns.
  destruct (clear_all_spec st ns Hr Hnd Hns)
    as (st' & sl & Hc & _ & (Hal & Hfr & Hsl) & _ & Hnl & Hst & Hsz & Hfs & Hfc).
  exists st', sl. split; [done|].
  assert (total_slots (store st'.2) = stackSize) as Htot.
  { rewrite Hst. unfold total_slots. rewrite <- insert_empty.
    rewrite map_sum_insert by apply lookup_empty. rewrite map_sum_empty. lia. }
  split; [unfold inuse_items; lia|].
  split; [done|]. split; [done|]. split; [done|]. split; [done|].
  rewrite Hsl, Hst, map_size_singleton. lia.
Qed.

(** X6.  The life of a container that does not call [reserve]: when all
    its nodes have been released, as the library's destructor does first,
    the destructor of the allocator passes its three assertions, and the
    counters of the pool are as they were before the constructor. *)
Lemma dtor_after_clear st ns :
  1 ≤ stackSize →
  reachable false st → NoDup ns → (∀ q, q ∈ ns ↔ live st.2 q) →
  ∃ st' p',
    clear_nodes ns st = Some st' ∧
    slab_allocator_dtor stackSize st' = Some p' ∧
    allocated_items p' = allocated_items pinit ∧
    free_items p' = free_items pinit ∧ slabs p' = slabs pinit.
Proof.
  intros Hpos Hr Hnd Hns.
  destruct (clear_all_spec st ns Hr Hnd Hns)
    as ([p a] & sl & Hc & (HI & _ & HS) & (Hal & Hfr & Hsl) & Hself & Hnl & Hst & Hsz & Hfs & Hfc).
  cbn [fst snd] in *.
  assert (total_slots (store a) = stackSize) as Htot.
  { rewrite Hst. unfold total_slots. rewrite <- insert_empty.
    rewrite map_sum_insert by apply lookup_empty. rewrite map_sum_empty. lia. }
  assert (head (freeSlabHeads a) = Some (StackSlab (selfPointer a))) as Hhead.
  { rewrite Hself.
    assert (StackSlab this ∈ freeSlabHeads a) as Hin.
    { apply (inv_linked a HI _ sl); [by rewrite Hst, lookup_singleton_eq|lia]. }
    destruct (freeSlabHeads a) as [|sp rest] eqn:Hh; [by apply elem_of_nil in Hin|].
    simpl. f_equal.
    destruct (inv_heads a HI sp) as [sl' Hs']; [rewrite Hh; by left|].
    rewrite Hst in Hs'. apply lookup_singleton_Some in Hs' as [<- _]. done. }
  eexists (p, a), _. split; [done|].
  unfold slab_allocator_dtor.
  rewrite option_guard_True by (rewrite (inv_alloc_count _ _ a HS); lia).
  cbn [mbind option_bind]. rewrite option_guard_True by done.
  cbn [mbind option_bind]. rewrite option_guard_True by done.
  cbn [mbind option_bind]. split; [done|]. simpl.
  rewrite Hst, map_size_singleton in Hsl. lia.
Qed.

End clear_claim.


Lemma elem_of_live_slots a q : q ∈ live_slots a ↔ live a q.
Proof.
  unfold live_slots, live, slot_live. rewrite list_elem_of_bind. split.
  - intros ([sp sl] & Hq & Hx). apply elem_of_map_to_list in Hx.
    apply list_elem_of_fmap in Hq as (j & -> & Hj). simpl in *.
    apply list_elem_of_filter in Hj as [Hn Hj]. apply elem_of_seqZ in Hj.
    exists sl. split; [done|]. split; [lia|done].
  - intros (sl & Hs & Hj & Hn). exists (q.1, sl). split.
    + apply list_elem_of_fmap. exists q.2. split; [by destruct q|].
      apply list_elem_of_filter. split; [done|]. apply elem_of_seqZ. simpl. lia.
    + by apply elem_of_map_to_list.
Qed.

Lemma NoDup_live_slots a : NoDup (live_slots a).
Proof.
  unfold live_slots. apply NoDup_bind.
  - intros [sp1 sl1] [sp2 sl2] y H1 H2 Hy1 Hy2.
    apply elem_of_map_to_list in H1, H2.
    apply list_elem_of_fmap in Hy1 as (j1 & -> & _).
    apply list_elem_of_fmap in Hy2 as (j2 & Heq & _). simpl in *.
    injection Heq as -> _. congruence.
  - intros [sp sl] _. apply NoDup_fmap_2.
    + intros j1 j2 Heq. by injection Heq.
    + apply NoDup_filter, NoDup_seqZ.
  - apply NoDup_map_to_list.
Qed.

(** A list of four inline slots after seven insertions and two erasures,
    then cleared. *)
Lemma C3_witness :
  ∃ st st' sl,
    run_ctor 4 12 24 0 (mk_pool 0 0 0 0)
      [Allocate; Allocate; Allocate; Allocate; Allocate; Allocate; Allocate;
       Deallocate (StackSlab 0, 2); Deallocate (HeapSlab 0, 10)] = Some st ∧
    live_slots st.2 = [(HeapSlab 0, 9); (HeapSlab 0, 11); (StackSlab 0, 0);
                       (StackSlab 0, 1); (StackSlab 0, 3)] ∧
    clear_nodes (live_slots st.2) st = Some st' ∧
    inuse_items st'.1 = inuse_items (mk_pool 0 0 0 0) ∧
    (∀ q, ¬ live st'.2 q) ∧
    store st'.2 = {[ StackSlab 0 := sl ]} ∧
    slabSize sl = 4 ∧ freeSlots sl = 4 ∧
    slabs st'.1 = slabs (mk_pool 0 0 0 0) + 1.
Proof.
  eexists.
  edestruct (C3_clear_releases_heap_slabs 4 12 24 0 (mk_pool 0 0 0 0) ltac:(lia) ltac:(lia))
    as (st' & sl & H).
  - apply (run_ctor_reachable 4 12 24 0 (mk_pool 0 0 0 0) false
      [Allocate; Allocate; Allocate; Allocate; Allocate; Allocate; Allocate;
       Deallocate (StackSlab 0, 2); Deallocate (HeapSlab 0, 10)]).
    + intros _. repeat constructor.
    + vm_compute. reflexivity.
  - apply NoDup_live_slots.
  - intros q. apply elem_of_live_slots.
  - exists st', sl. split; [vm_compute; reflexivity|]. split; [vm_compute; reflexivity|].
    exact H.
Defined.

(** ** C8: allocate, then deallocate *)

Section restore.

Variables (stackSize heapSize sizeof_T : Z).
Variables (this : nat) (pinit : pool_t).
Hypothesis stackSize_range : 0 ≤ stackSize < 2 ^ 32.
Hypothesis heapSize_range : 1 ≤ heapSize < 2 ^ 32.

Local Abbreviation reachable := (reachable stackSize heapSize sizeof_T this pinit).
Local Abbreviation Inv := (Inv stackSize sizeof_T).

Lemma allocate_deallocate_Inv p a :
  Inv (p, a) → room a heapSize → head_in_use a →
  ∃ st1 q st2,
    allocate heapSize sizeof_T 1 (p, a) = Some (st1, q) ∧
    deallocate q 1 st1 = Some st2 ∧
    freeSlotCount st2.2 = freeSlotCount a ∧
    allocSlotCount st2.2 = allocSlotCount a ∧
    store st2.2 = store a ∧
    freeSlabHeads st2.2 = freeSlabHeads a ∧
    allocated_items st2.1 = allocated_items p ∧
    free_items st2.1 = free_items p ∧
    slabs st2.1 = slabs p.
Proof.
  intros HInv Hroom Hhead.
  destruct (allocate_spec stackSize heapSize sizeof_T heapSize_range (p, a) HInv Hroom)
    as ([p1 a1] & q & Ha & HInv1 & Hf1 & _ & _ & Hl1 & _).
  assert (live a1 q) as Hlq by (apply Hl1; by right).
  destruct (deallocate_spec stackSize sizeof_T p1 a1 q 1 HInv1 Hlq)
    as (p2 & a2 & sl1 & Hd & Hs1 & _ & Hf2 & _ & _ & _ & _ & Hcase).
  exists (p1, a1), q, (p2, a2). split; [done|]. split; [done|]. cbn [fst snd].
  pose proof HInv as (HI & Hfr & HS). cbn [fst snd] in HI, Hfr, HS.
  rewrite allocate_eq in Ha by apply HS.
  assert (allocSlotCount a2 = allocSlotCount a) as Hac.
  { destruct Hf1 as (_ & ? & _), Hf2 as (_ & ? & _). simpl in *. congruence. }
  assert (selfPointer a1 = selfPointer a) as Hself1 by (by destruct Hf1 as (? & _)).
  destruct (freeSlabHeads a) as [|sp rest] eqn:Hh.
  - (* a heap slab is added, and released again *)
    pose proof (addSlab_eq p a heapSize HI Hfr ltac:(lia) Hroom) as Hadd.
    rewrite decide_False, Hh in Hadd by lia.
    pose proof (Inv_full_slab a (HeapSlab (brk p)) heapSize HI (fresh_lookup p a Hfr)
                  ltac:(lia) Hroom) as HI0.
    rewrite decide_False, Hh in HI0 by lia.
    rewrite (allocslot_grow heapSize p a _ _ Hh Hadd) in Ha by done.
    edestruct (allocslot_pop heapSize) as (i & chain & Hfh & Heq);
      [exact HI0|reflexivity|apply lookup_insert_eq|].
    rewrite Heq in Ha. injection Ha as Hp1 Ha1 Hq. subst p1 a1 q.
    cbn [fst snd store freeSlotCount freeSlabHeads trueSlotSize selfPointer
         full_slab slabSize freeSlots] in *.
    rewrite lookup_insert_eq in Hs1. injection Hs1 as <-.
    cbn [slabSize freeSlots] in Hcase.
    destruct Hcase as [(_ & _ & Hst2 & Hh2 & Hfc2 & Hp2)|(Hnot & _)].
    + split; [lia|]. split; [done|].
      split.
      { rewrite Hst2, insert_insert_eq, delete_insert_eq.
        apply delete_id, (fresh_lookup p a Hfr). }
      split.
      { rewrite Hh2. destruct (decide (heapSize = 1)); [done|].
        simpl. by rewrite decide_True. }
      rewrite Hp2. simpl. lia.
    + exfalso. apply Hnot. split; [lia|done].
  - (* the slot comes from the first linked slab and goes back to it *)
    destruct (inv_heads a HI sp) as [sl Hs]; [rewrite Hh; by left|].
    destruct (allocslot_pop heapSize p a sp rest sl HI Hh Hs)
      as (i & chain & Hfh & Heq).
    rewrite Heq in Ha. injection Ha as Hp1 Ha1 Hq. subst p1 a1 q.
    cbn [fst snd store freeSlotCount freeSlabHeads trueSlotSize selfPointer
         slabSize freeSlots] in *.
    rewrite lookup_insert_eq in Hs1. injection Hs1 as <-.
    cbn [slabSize freeSlots] in Hcase.
    pose proof (inv_slab a HI sp sl Hs) as Hok.
    pose proof (slab_free_range sl Hok) as Hrange.
    destruct Hcase as [(Hfull & Hne & _)|(_ & Hst2 & Hh2 & Hfc2 & Hp2)].
    + exfalso. destruct sp as [t|addr].
      * apply Hne. f_equal. apply (inv_stack_only _ _ a HS). by eexists.
      * specialize (Hhead addr rest sl Hh Hs). lia.
    + split; [lia|]. split; [done|].
      split.
      { rewrite Hst2, insert_insert_eq.
        apply insert_id. rewrite Hs. f_equal. unfold push_slot. simpl.
        destruct sl as [sz fs fh]. simpl in *. subst fh. f_equal. lia. }
      split.
      { rewrite Hh2.
        destruct (decide (freeSlots sl = 1)) as [H1|H1].
        - by rewrite decide_True by lia.
        - by rewrite decide_False by lia. }
      rewrite Hp2. simpl. lia.
Qed.

(** C8 (as amended).  In a reachable state whose first linked slab is the
    inline slab or a heap slab with a slot in use (as is every heap slab as
    long as [reserve] has not been called), [allocate(1)] followed by
    [deallocate] of the returned pointer restores [freeSlotCount] and
    [allocSlotCount], the slabs and the free-slab list of the allocator, and
    the pool's [inuse_items], [free_items], [allocated_items] and [slabs]. *)
Theorem C8_allocate_deallocate_restores b st :
  reachable b st → room st.2 heapSize → head_in_use st.2 →
  ∃ st1 q st2,
    allocate heapSize sizeof_T 1 st = Some (st1, q) ∧
    deallocate q 1 st1 = Some st2 ∧
    freeSlotCount st2.2 = freeSlotCount st.2 ∧
    allocSlotCount st2.2 = allocSlotCount st.2 ∧
    store st2.2 = store st.2 ∧
    freeSlabHeads st2.2 = freeSlabHeads st.2 ∧
    inuse_items st2.1 = inuse_items st.1 ∧
    free_items st2.1 = free_items st.1 ∧
    allocated_items st2.1 = allocated_items st.1 ∧
    slabs st2.1 = slabs st.1.
Proof.
  intros Hr Hroom Hhead. destruct st as [p a].
  destruct (reachable_Inv stackSize heapSize sizeof_T this pinit
              stackSize_range heapSize_range b (p, a) Hr) as (HInv & _).
  destruct (allocate_deallocate_Inv p a HInv Hroom Hhead)
    as (st1 & q & st2 & Ha & Hd & Hfc & Hac & Hst & Hh & Hal & Hfr & Hsl).
  exists st1, q, st2. cbn [fst snd]. unfold inuse_items.
  repeat split; try done. lia.
Qed.

(** Without [reserve], the first linked slab is always in use or inline. *)
Lemma no_idle_head_in_use a : no_idle_heap a → head_in_use a.
Proof. intros Hni addr rest sl _ Hs. by apply (Hni addr). Qed.

End restore.

(** A list of four inline slots with five nodes: the sixth goes to the heap
    slab and comes back. *)
Lemma C8_witness :
  ∃ st st1 q st2,
    run_ctor 4 12 24 0 (mk_pool 0 0 0 0) [Allocate; Allocate; Allocate; Allocate; Allocate]
      = Some st ∧
    allocate 12 24 1 st = Some (st1, q) ∧
    deallocate q 1 st1 = Some st2 ∧
    freeSlotCount st2.2 = freeSlotCount st.2 ∧
    allocSlotCount st2.2 = allocSlotCount st.2 ∧
    store st2.2 = store st.2 ∧
    freeSlabHeads st2.2 = freeSlabHeads st.2 ∧
    inuse_items st2.1 = inuse_items st.1 ∧
    free_items st2.1 = free_items st.1 ∧
    allocated_items st2.1 = allocated_items st.1 ∧
    slabs st2.1 = slabs st.1.
Proof.
  destruct (run_ctor 4 12 24 0 (mk_pool 0 0 0 0)
              [Allocate; Allocate; Allocate; Allocate; Allocate]) as [st|] eqn:Hrun;
    [|vm_compute in Hrun; discriminate Hrun].
  assert (reachable 4 12 24 0 (mk_pool 0 0 0 0) false st) as Hr.
  { apply (run_ctor_reachable 4 12 24 0 (mk_pool 0 0 0 0) false
             [Allocate; Allocate; Allocate; Allocate; Allocate]); [|done].
    intros _. repeat constructor. }
  destruct (C8_allocate_deallocate_restores 4 12 24 0 (mk_pool 0 0 0 0)
              ltac:(lia) ltac:(lia) false st Hr) as (st1 & q & st2 & H).
  - vm_compute in Hrun. injection Hrun as <-. vm_compute. reflexivity.
  - apply no_idle_head_in_use.
    by apply (reachable_Inv 4 12 24 0 (mk_pool 0 0 0 0) ltac:(lia) ltac:(lia) false st Hr).
  - exists st, st1, q, st2. split; [reflexivity|]. exact H.
Defined.

(** C8, counterexample: after [reserve(9)] on a fresh list of four inline
    slots the first linked slab is the reserved heap slab, all free; one
    [allocate] and the [deallocate] of its result release that slab, and the
    counters are not back at their values. *)
Lemma C8_reserved_slab_not_restored :
  ∃ st st1 q st2,
    run_ctor 4 12 24 0 (mk_pool 0 0 0 0) [Reserve 9] = Some st ∧
    reachable 4 12 24 0 (mk_pool 0 0 0 0) true st ∧
    allocate 12 24 1 st = Some (st1, q) ∧
    deallocate q 1 st1 = Some st2 ∧
    freeSlotCount st.2 = 9 ∧ freeSlotCount st2.2 = 4 ∧
    free_items st.1 = 9 ∧ free_items st2.1 = 4 ∧
    slabs st.1 = 2 ∧ slabs st2.1 = 1 ∧
    freeSlotCount st2.2 ≠ freeSlotCount st.2 ∧
    free_items st2.1 ≠ free_items st.1 ∧
    slabs st2.1 ≠ slabs st.1.
Proof.
  eexists _, _, _, _. split; [vm_compute; reflexivity|].
  split.
  { apply (run_ctor_reachable 4 12 24 0 (mk_pool 0 0 0 0) true [Reserve 9]); [done|].
    vm_compute. reflexivity. }
  split; [vm_compute; reflexivity|]. split; [vm_compute; reflexivity|].
  repeat split; try reflexivity; simpl; lia.
Qed.

(** * Lists *)

Section list_facts.

Context {node : Type}.
Implicit Types (ns : list (slot_ptr * node)) (l : slab_list node).

Lemma pos_of_Some q ns k :
  pos_of q ns = Some k → ∃ v, ns !! k = Some (q, v) ∧ q ∉ (take k ns).*1.
Proof.
  revert k. induction ns as [|[q' v'] ns IH]; intros k H; simpl in H; [done|].
  destruct (decide (q' = q)) as [->|Hne].
  - injection H as <-. exists v'. split; [done|]. simpl. apply not_elem_of_nil.
  - destruct (pos_of q ns) as [k'|] eqn:E; [|done]. injection H as <-.
    destruct (IH k' eq_refl) as (v & Hl & Hn). exists v. split; [done|].
    simpl. rewrite not_elem_of_cons. done.
Qed.

Lemma pos_of_lookup q v ns k :
  NoDup ns.*1 → ns !! k = Some (q, v) → pos_of q ns = Some k.
Proof.
  revert k. induction ns as [|[q' v'] ns IH]; intros k Hnd Hl; [done|].
  simpl in Hnd. apply NoDup_cons in Hnd as [Hq Hnd]. simpl.
  destruct k as [|k]; simpl in Hl.
  - injection Hl as -> ->. by rewrite decide_True.
  - rewrite decide_False.
    + by rewrite (IH k Hnd Hl).
    + intros ->. apply Hq. apply list_elem_of_fmap. exists (q, v). split; [done|].
      by eapply list_elem_of_lookup_2.
Qed.

Lemma it_pos_lookup l k :
  NoDup (nodes l).*1 → (k ≤ length (nodes l))%nat →
  it_pos l (fst <$> nodes l !! k) = Some k.
Proof.
  intros Hnd Hk. destruct (nodes l !! k) as [[q v]|] eqn:E; simpl.
  - by apply (pos_of_lookup q v).
  - apply lookup_ge_None in E. f_equal. lia.
Qed.

Lemma it_pos_le l i k : it_pos l i = Some k → (k ≤ length (nodes l))%nat.
Proof.
  destruct i as [q|]; simpl.
  - intros H. apply pos_of_Some in H as (v & Hl & _).
    apply lookup_lt_Some in Hl. lia.
  - intros H. injection H as <-. done.
Qed.

Lemma nodes_split ns k q v :
  ns !! k = Some (q, v) → ns = take k ns ++ (q, v) :: drop (S k) ns.
Proof. intros H. by rewrite <- (take_drop_middle ns k (q, v) H) at 1. Qed.

End list_facts.

Lemma inuse_step st st' :
  pool_tracks st st' →
  inuse_items st'.1 - inuse_items st.1 = used st'.2 - used st.2.
Proof. unfold pool_tracks, inuse_items, used. lia. Qed.

Section list_ops.

Context {node : Type}.
Variables (stackCount heapCount sizeof_T : Z).
Hypothesis heapCount_range : 1 ≤ heapCount < 2 ^ 32.

Implicit Types (ns : list (slot_ptr * node)) (l : slab_list node).

Local Abbreviation list_ok := (list_ok (node := node) stackCount sizeof_T).

Lemma list_ok_mono p p' l : list_ok p l → (brk p ≤ brk p')%nat → list_ok p' l.
Proof.
  intros ((HI & Hfr & HS) & Hnd & Hl) Hbrk. split; [|done].
  split; [done|]. split; [|done]. simpl in *.
  intros addr Hs. apply Hfr in Hs. lia.
Qed.

Lemma middle_Permutation ns k (x : slot_ptr * node) :
  take k ns ++ x :: drop k ns ≡ₚ x :: ns.
Proof. rewrite <- Permutation_middle. by rewrite take_drop. Qed.

Lemma insert_spec pos v p l k :
  list_ok p l → room (alloc l) heapCount → it_pos l pos = Some k →
  ∃ p' a' q,
    insert heapCount sizeof_T pos v (p, l) =
      Some (p', mk_list a' (take k (nodes l) ++ (q, v) :: drop k (nodes l)), Some q) ∧
    list_ok p' (mk_list a' (take k (nodes l) ++ (q, v) :: drop k (nodes l))) ∧
    inuse_items p' = inuse_items p + 1 ∧ (brk p ≤ brk p')%nat ∧
    total_slots (store a') ≤ total_slots (store (alloc l)) + heapCount.
Proof.
  intros (HInv & Hnd & Hl) Hroom Hpos.
  destruct (allocate_spec stackCount heapCount sizeof_T heapCount_range (p, alloc l) HInv Hroom)
    as ([p' a'] & q & Ha & HInv' & Hf & Ht & Hnl & Hl' & Hu & _ & _ & Htot).
  exists p', a', q. unfold insert. rewrite Hpos. cbn [mbind option_bind].
  rewrite Ha. cbn [mbind option_bind]. split; [done|].
  cbn [fst snd] in *.
  split; [split; [done|split]|].
  - cbn [nodes]. rewrite middle_Permutation. simpl. constructor; [|done].
    by rewrite Hl.
  - intros x. cbn [nodes alloc]. rewrite middle_Permutation. simpl.
    rewrite elem_of_cons, Hl', Hl. tauto.
  - pose proof (inuse_step _ _ Ht) as Hin. cbn [fst snd] in Hin.
    split; [lia|]. split; [by destruct Hf as (_ & _ & _ & ?)|lia].
Qed.

Lemma erase_spec q p l k :
  list_ok p l → pos_of q (nodes l) = Some k →
  ∃ p' a',
    erase (Some q) (p, l) =
      Some (p', mk_list a' (take k (nodes l) ++ drop (S k) (nodes l)),
            fst <$> nodes l !! S k) ∧
    list_ok p' (mk_list a' (take k (nodes l) ++ drop (S k) (nodes l))) ∧
    inuse_items p' = inuse_items p - 1 ∧ (brk p ≤ brk p')%nat.
Proof.
  intros (HInv & Hnd & Hl) Hpos.
  destruct (pos_of_Some q (nodes l) k Hpos) as (v & Hk & _).
  assert (live (alloc l) q) as Hlq.
  { apply Hl. apply list_elem_of_fmap. exists (q, v). split; [done|].
    by eapply list_elem_of_lookup_2. }
  destruct (deallocate_spec stackCount sizeof_T p (alloc l) q 1 HInv Hlq)
    as (p' & a' & sl & Hd & _ & HInv' & Hf & Ht & Hl' & Hu & _).
  exists p', a'. unfold erase. cbn [mbind option_bind]. rewrite Hpos.
  cbn [mbind option_bind]. rewrite Hd. cbn [mbind option_bind]. split; [done|].
  pose proof (nodes_split (nodes l) k q v Hk) as Hsplit.
  assert (nodes l ≡ₚ (q, v) :: (take k (nodes l) ++ drop (S k) (nodes l))) as Hperm.
  { rewrite Hsplit at 1. by rewrite <- Permutation_middle. }
  assert (NoDup (q :: (take k (nodes l) ++ drop (S k) (nodes l)).*1)) as Hnd'.
  { change (NoDup (((q, v) :: (take k (nodes l) ++ drop (S k) (nodes l))).*1)).
    by rewrite <- Hperm. }
  apply NoDup_cons in Hnd' as [Hq Hnd'].
  split; [split; [done|split]|].
  - done.
  - intros x. cbn [nodes alloc]. rewrite Hl', <- Hl.
    rewrite (list_elem_of_fmap fst (nodes l)).
    split.
    + intros Hx. split; [|intros ->; done].
      apply list_elem_of_fmap in Hx as (y & -> & Hy). exists y. split; [done|].
      rewrite Hperm. by right.
    + intros [(y & -> & Hy) Hne]. rewrite Hperm in Hy.
      apply elem_of_cons in Hy as [->|Hy]; [done|].
      apply list_elem_of_fmap. by exists y.
  - pose proof (inuse_step _ _ Ht) as Hin. cbn [fst snd] in Hin.
    split; [lia|]. by destruct Hf as (_ & _ & _ & ?).
Qed.

Lemma clear_spec p l :
  list_ok p l →
  ∃ p' a',
    clear (p, l) = Some (p', mk_list a' []) ∧ list_ok p' (mk_list a' []) ∧
    inuse_items p' = inuse_items p - Z.of_nat (length (nodes l)) ∧
    (brk p ≤ brk p')%nat.
Proof.
  clear heapCount_range. intros (HInv & Hnd & Hl).
  destruct (clear_nodes_spec stackCount sizeof_T (nodes l).*1 (p, alloc l) HInv Hnd)
    as ([p' a'] & Hc & HInv' & Hf & Ht & Hl' & Hu & _); [intros q; apply Hl|].
  exists p', a'. unfold clear. rewrite Hc. cbn [mbind option_bind]. split; [done|].
  split; [split; [done|split]|].
  - constructor.
  - intros x. cbn [nodes alloc fst snd] in *. rewrite Hl', <- Hl. simpl.
    split; [intros H; by apply elem_of_nil in H|tauto].
  - pose proof (inuse_step _ _ Ht) as Hin. cbn [fst snd] in *.
    rewrite length_fmap in Hu. split; [lia|]. by destruct Hf as (_ & _ & _ & ?).
Qed.

End list_ops.

(** ** C5: splice *)

Section splice.

Context {node : Type}.
Variables (stackCount heapCount sizeof_T : Z).
Hypothesis heapCount_range : 1 ≤ heapCount < 2 ^ 32.

Implicit Types (ns : list (slot_ptr * node)) (l : slab_list node).

Local Abbreviation list_ok := (list_ok (node := node) stackCount sizeof_T).

Lemma take_S_middle {A} (xs : list A) k x :
  (k ≤ length xs)%nat →
  take (S k) (take k xs ++ x :: drop k xs) = take k xs ++ [x] ∧
  drop (S k) (take k xs ++ x :: drop k xs) = drop k xs ∧
  (take k xs ++ x :: drop k xs) !! k = Some x.
Proof.
  intros Hk. assert (length (take k xs) = k) as Hlen by (rewrite length_take; lia).
  split; [|split].
  - rewrite (cons_middle x), app_assoc.
    apply take_app_length'. rewrite length_app. simpl. lia.
  - rewrite (cons_middle x), app_assoc.
    apply drop_app_length'. rewrite length_app. simpl. lia.
  - by rewrite list_lookup_middle.
Qed.

Lemma splice_loop_done fuel pos last (w : pool_t * slab_list node * slab_list node) :
  splice_loop heapCount sizeof_T fuel pos last last w = Some w.
Proof. destruct fuel; simpl; by rewrite decide_True. Qed.

Lemma splice_loop_spec nb : ∀ fuel pos p c b k,
  nodes b = nb → (length nb ≤ fuel)%nat →
  list_ok p c → list_ok p b → it_pos c pos = Some k →
  total_slots (store (alloc c)) + Z.of_nat (length nb) * heapCount < 2 ^ 64 →
  ∃ p' c' b',
    splice_loop heapCount sizeof_T fuel pos (begin b) None (p, c, b) = Some (p', c', b') ∧
    nodes b' = [] ∧
    vals c' = take k (vals c) ++ vals b ++ drop k (vals c) ∧
    list_ok p' c' ∧ list_ok p' b' ∧
    inuse_items p' = inuse_items p.
Proof.
  induction nb as [|[q v] nb IH]; intros fuel pos p c b k Hb Hfuel Hc Hbok Hpos Hroom.
  - exists p, c, b. unfold begin, vals. rewrite Hb. simpl.
    rewrite splice_loop_done. by rewrite take_drop.
  - destruct fuel as [|fuel]; [simpl in Hfuel; lia|].
    pose proof (it_pos_le c pos k Hpos) as Hk.
    (* the first node of [b] is copied in front of [pos] *)
    destruct (insert_spec stackCount heapCount sizeof_T heapCount_range pos v p c k Hc)
      as (p1 & a1 & q1 & Hins & Hc1 & Hin1 & Hbrk1 & Htot1); [unfold room; simpl in Hroom; lia|done|].
    set (c1 := mk_list a1 (take k (nodes c) ++ (q1, v) :: drop k (nodes c))) in *.
    destruct (take_S_middle (nodes c) k (q1, v) Hk) as (Htk & Hdr & Hlk).
    assert (next c1 (Some q1) = Some (fst <$> nodes c1 !! S k)) as Hnext.
    { unfold next. cbn [mbind option_bind].
      rewrite (pos_of_lookup q1 v (nodes c1) k); [done|apply Hc1|done]. }
    assert (it_pos c1 (fst <$> nodes c1 !! S k) = Some (S k)) as Hpos1.
    { apply it_pos_lookup; [apply Hc1|]. subst c1. cbn [nodes].
      rewrite length_app, length_take. simpl. rewrite length_drop. lia. }
    (* and erased from [b] *)
    assert (pos_of q (nodes b) = Some O) as Hq.
    { rewrite Hb. simpl. by rewrite decide_True. }
    destruct (erase_spec stackCount sizeof_T q p1 b O (list_ok_mono _ _ p p1 b Hbok Hbrk1) Hq)
      as (p2 & a2 & Her & Hb1 & Hin2 & Hbrk2).
    rewrite Hb in Her, Hb1. cbn [take drop app lookup list_lookup] in Her, Hb1.
    set (b1 := mk_list a2 nb) in *.
    destruct (IH fuel (fst <$> nodes c1 !! S k) p2 c1 b1 (S k))
      as (p' & c' & b' & Hloop & Hnb' & Hvals & Hc' & Hb' & Hin');
      [done|simpl in Hfuel; lia|by eapply list_ok_mono|done|done| |].
    { subst c1. cbn [alloc]. simpl length in Hroom. lia. }
    exists p', c', b'. split.
    { assert (begin b = Some q) as Hbeg by (unfold begin; by rewrite Hb).
      cbn [splice_loop]. rewrite Hbeg. rewrite decide_False by done.
      unfold deref. cbn [mbind option_bind]. rewrite Hq. cbn [mbind option_bind].
      rewrite Hb. cbn [lookup list_lookup fmap option_fmap option_map snd mbind option_bind].
      rewrite Hins. cbn [mbind option_bind]. fold c1. rewrite Hnext.
      cbn [mbind option_bind]. rewrite Her. cbn [mbind option_bind].
      unfold begin in Hloop. subst b1. cbn [nodes] in Hloop.
      clear -Hloop. by destruct nb. }
    split; [done|]. split; [|split; [done|split; [done|lia]]].
    rewrite Hvals. unfold vals. subst c1 b1. cbn [nodes]. rewrite Hb.
    rewrite !fmap_app, !fmap_cons, fmap_take, fmap_drop. cbn [snd fmap list_fmap].
    destruct (take_S_middle (nodes c).*2 k v) as (-> & -> & _);
      [by rewrite length_fmap|].
    by rewrite <- !app_assoc.
Qed.

(** C5.  For well-formed lists [b] and [c] of one pool and a position [pos]
    of [c] (the [k]th, counted from [c.begin()]),
    [c.splice(pos, b, b.begin(), b.end())] returns; afterwards [b] is empty,
    [c] holds the elements of [b], in their order, in front of [pos], both
    lists are well-formed -- every node of [c] is a live slot of [c]'s own
    allocator -- and the pool has as many nodes in use as before. *)
Theorem C5_splice_moves_all p c b pos k :
  list_ok p c → list_ok p b → it_pos c pos = Some k →
  total_slots (store (alloc c)) + Z.of_nat (length (nodes b)) * heapCount < 2 ^ 64 →
  ∃ p' c' b',
    splice4 heapCount sizeof_T pos (begin b) None (p, c, b) = Some (p', c', b') ∧
    nodes b' = [] ∧
    vals c' = take k (vals c) ++ vals b ++ drop k (vals c) ∧
    (∀ q, q ∈ (nodes c').*1 → live (alloc c') q) ∧
    list_ok p' c' ∧ list_ok p' b' ∧
    inuse_items p' = inuse_items p.
Proof.
  intros Hc Hb Hpos Hroom.
  destruct (splice_loop_spec (nodes b) (length (nodes b)) pos p c b k)
    as (p' & c' & b' & Hloop & Hnb' & Hvals & Hc' & Hb' & Hin'); [done..|].
  exists p', c', b'. unfold splice4. cbn [snd].
  split; [done|]. split; [done|]. split; [done|].
  split; [intros q Hq; by apply Hc'|done].
Qed.

End splice.

(** ** Constructing and filling a list *)

Section list_build.

Context {node : Type}.
Variables (stackCount heapCount sizeof_T : Z).
Hypothesis stackCount_range : 0 ≤ stackCount < 2 ^ 32.
Hypothesis heapCount_range : 1 ≤ heapCount < 2 ^ 32.

Local Abbreviation list_ok := (list_ok (node := node) stackCount sizeof_T).

Lemma slab_list_ctor_spec this p p' (l : slab_list node) :
  slab_list_ctor stackCount sizeof_T this p = Some (p', l) →
  list_ok p' l ∧ nodes l = [] ∧ inuse_items p' = inuse_items p ∧
  brk p' = brk p ∧ total_slots (store (alloc l)) = stackCount.
Proof.
  unfold slab_list_ctor. intros H.
  destruct (slab_allocator_ctor stackCount sizeof_T this p) as [[p1 a]|] eqn:Hc; [|done].
  simpl in H. injection H as <- <-.
  destruct (ctor_spec stackCount sizeof_T this p (p1, a) stackCount_range Hc)
    as (HInv & Hp & _ & _ & Hnl & Hbrk).
  rewrite ctor_eq in Hc by done. injection Hc as Hp1 Ha.
  assert (total_slots (store a) = stackCount) as Htot.
  { rewrite <- Ha. simpl. unfold total_slots.
    rewrite map_sum_insert by apply lookup_empty. rewrite map_sum_empty. simpl. lia. }
  split; [split; [done|split]|].
  - constructor.
  - intros q. simpl. split; [intros H; by apply elem_of_nil in H|intros H; by apply Hnl in H].
  - split; [done|]. split; [|done]. rewrite <- Hp1. unfold inuse_items. simpl. lia.
Qed.

Lemma push_back_spec v p (l : slab_list node) :
  list_ok p l → room (alloc l) heapCount →
  ∃ p' l' q,
    push_back heapCount sizeof_T v (p, l) = Some (p', l') ∧
    list_ok p' l' ∧ nodes l' = nodes l ++ [(q, v)] ∧
    inuse_items p' = inuse_items p + 1 ∧ (brk p ≤ brk p')%nat ∧
    total_slots (store (alloc l')) ≤ total_slots (store (alloc l)) + heapCount.
Proof.
  intros Hok Hroom.
  destruct (insert_spec stackCount heapCount sizeof_T heapCount_range None v p l
              (length (nodes l)) Hok Hroom eq_refl)
    as (p' & a' & q & Hins & Hok' & Hin & Hbrk & Htot).
  rewrite take_ge, drop_ge in Hins, Hok' by lia.
  exists p', (mk_list a' (nodes l ++ [(q, v)])), q.
  unfold push_back. rewrite Hins. done.
Qed.

End list_build.

Section do_push_back.

Variables (stackCount heapCount sizeof_T : Z).
Hypothesis stackCount_range : 0 ≤ stackCount < 2 ^ 32.
Hypothesis heapCount_range : 1 ≤ heapCount < 2 ^ 32.

Local Abbreviation list_ok := (list_ok (node := Z) stackCount sizeof_T).

Lemma do_push_back_loop_spec n : ∀ i base p l,
  list_ok p l →
  total_slots (store (alloc l)) + Z.of_nat n * heapCount < 2 ^ 64 →
  ∃ p' l',
    do_push_back_loop heapCount sizeof_T n i base (p, l) = Some (p', l') ∧
    list_ok p' l' ∧ vals l' = vals l ++ ((λ j, base + j) <$> seqZ i (Z.of_nat n)) ∧
    inuse_items p' = inuse_items p + Z.of_nat n ∧ (brk p ≤ brk p')%nat ∧
    total_slots (store (alloc l')) ≤ total_slots (store (alloc l)) + Z.of_nat n * heapCount.
Proof.
  induction n as [|n IH]; intros i base p l Hok Hroom.
  - exists p, l. cbn [do_push_back_loop]. change (Z.of_nat 0) with 0.
    rewrite app_nil_r.
    split; [done|]. split; [done|]. split; [done|]. split; [lia|]. split; lia.
  - assert (0 ≤ Z.of_nat n * heapCount) as Hnn by (apply Z.mul_nonneg_nonneg; lia).
    assert (Z.of_nat (S n) * heapCount = Z.of_nat n * heapCount + heapCount) as HSn by lia.
    rewrite HSn in *.
    destruct (push_back_spec stackCount heapCount sizeof_T heapCount_range (base + i) p l Hok)
      as (p1 & l1 & q & Hpb & Hok1 & Hn1 & Hin1 & Hbrk1 & Htot1); [unfold room; lia|].
    destruct (IH (i + 1) base p1 l1 Hok1) as (p' & l' & Hloop & Hok' & Hv & Hin & Hbrk & Htot);
      [lia|].
    exists p', l'. cbn [do_push_back_loop]. rewrite Hpb. cbn [mbind option_bind].
    split; [done|]. split; [done|].
    split.
    { rewrite Hv. unfold vals. rewrite Hn1, fmap_app. simpl.
      rewrite (seqZ_cons i (Z.of_nat (S n))) by lia. rewrite fmap_cons, <- app_assoc. simpl.
      replace (Z.pred (Z.of_nat (S n))) with (Z.of_nat n) by lia.
      by replace (Z.succ i) with (i + 1) by lia. }
    split; [lia|]. split; lia.
Qed.

End do_push_back.

Lemma _defaultHS_int_list : _defaultHS 4 2 = 12.
Proof. reflexivity. Qed.

(** The default heap slab has at least one slot and at most 256. *)
Lemma _defaultHS_range nodeSize extra : 1 ≤ _defaultHS nodeSize extra ≤ 256.
Proof.
  unfold _defaultHS, _slabSize, _desired_slab_size.
  assert (0 ≤ _nodeSize nodeSize extra) as Hn.
  { unfold _nodeSize, wrap64. apply Z.mod_pos_bound. lia. }
  destruct (decide (256 / _nodeSize nodeSize extra ≠ 0)) as [Hne|_]; [|lia].
  destruct (decide (_nodeSize nodeSize extra = 0)) as [H0|H0].
  - rewrite H0 in Hne. by rewrite Z.div_0_r in Hne.
  - assert (0 ≤ 256 / _nodeSize nodeSize extra) by (apply Z.div_pos; lia).
    split; [lia|]. apply Z.div_le_upper_bound; nia.
Qed.

Lemma list_context_spec i p b c :
  Z.of_nat i < 2 ^ 32 → list_context i = Some (p, b, c) →
  list_ok 4 24 p b ∧ list_ok 4 24 p c ∧ nodes c = [] ∧
  vals b = (λ j, Z.of_nat i + j) <$> seqZ 0 (Z.of_nat i) ∧
  inuse_items p = Z.of_nat i ∧ total_slots (store (alloc c)) = 4.
Proof.
  unfold list_context. rewrite _defaultHS_int_list. intros Hi H.
  destruct (slab_list_ctor 4 24 100 (mk_pool 0 0 0 0)) as [[p1 b0]|] eqn:H1; [|done].
  cbn [mbind option_bind] in H.
  destruct (slab_list_ctor 4 24 200 p1) as [[p2 c0]|] eqn:H2; [|done].
  cbn [mbind option_bind] in H.
  destruct (do_push_back 12 24 i (Z.of_nat i) (p2, b0)) as [[p3 b1]|] eqn:H3; [|done].
  cbn [mbind option_bind] in H. injection H as <- <- <-.
  destruct (slab_list_ctor_spec 4 24 ltac:(lia) 100 _ p1 b0 H1)
    as (Hb0 & Hnb0 & Hin1 & Hbrk1 & Htot1).
  destruct (slab_list_ctor_spec 4 24 ltac:(lia) 200 _ p2 c0 H2)
    as (Hc0 & Hnc0 & Hin2 & Hbrk2 & Htot2).
  destruct (do_push_back_loop_spec 4 12 24 ltac:(lia) i 0 (Z.of_nat i) p2 b0)
    as (p' & l' & Hpb & Hb1 & Hv & Hin3 & Hbrk3 & _).
  { apply (list_ok_mono 4 24 p1); [done|lia]. }
  { rewrite Htot1. lia. }
  unfold do_push_back in H3. rewrite H3 in Hpb. injection Hpb as <- <-.
  split; [done|]. split; [by apply (list_ok_mono 4 24 p2)|]. split; [done|].
  split; [unfold vals in *; by rewrite Hv, Hnb0|].
  split; [|done]. rewrite Hin3, Hin2, Hin1. unfold inuse_items. simpl. lia.
Qed.

Lemma list_context_5 : ∃ p b c, list_context 5 = Some (p, b, c).
Proof. eexists _, _, _. vm_compute. reflexivity. Qed.

(** The splice of the test [list_context], for [i = 5]. *)
Lemma C5_witness :
  ∃ p b c p' c' b',
    list_context 5 = Some (p, b, c) ∧
    splice4 12 24 (begin c) (begin b) None (p, c, b) = Some (p', c', b') ∧
    nodes b' = [] ∧
    vals c' = take 0 (vals c) ++ vals b ++ drop 0 (vals c) ∧
    (∀ q, q ∈ (nodes c').*1 → live (alloc c') q) ∧
    list_ok 4 24 p' c' ∧ list_ok 4 24 p' b' ∧
    inuse_items p' = inuse_items p.
Proof.
  destruct list_context_5 as (p & b & c & Hctx).
  destruct (list_context_spec 5 p b c ltac:(lia) Hctx) as (Hb & Hc & Hnc & Hv & Hin & Htot).
  destruct (C5_splice_moves_all 4 12 24 ltac:(lia) p c b (begin c) 0 Hc Hb)
    as (p' & c' & b' & H).
  - unfold begin, it_pos. rewrite Hnc. reflexivity.
  - rewrite Htot.
    assert (length (nodes b) = 5%nat) as ->; [|lia].
    apply (f_equal length) in Hv. unfold vals in Hv. rewrite !length_fmap in Hv.
    exact Hv.
  - exists p, b, c, p', c', b'. split; [exact Hctx|]. exact H.
Defined.

(** ** C6: swap *)

Section swap.

Context {node : Type}.
Variables (stackCount heapCount sizeof_T : Z).
Hypothesis heapCount_range : 1 ≤ heapCount < 2 ^ 32.

Implicit Types (ns : list (slot_ptr * node)) (l : slab_list node).

Local Abbreviation list_ok := (list_ok (node := node) stackCount sizeof_T).
Local Abbreviation inuse_of :=
  (λ w : pool_t * slab_list node * slab_list node, inuse_items w.1.1).
Local Abbreviation nodes_of :=
  (λ w : pool_t * slab_list node * slab_list node,
     (length (nodes w.1.2) + length (nodes w.2))%nat).

Lemma swap_loop_done fuel last (w : pool_t * slab_list node * slab_list node) :
  swap_loop heapCount sizeof_T fuel last last w = Some ([], w).
Proof. destruct fuel; simpl; by rewrite decide_True. Qed.

Lemma swap_loop_spec nb : ∀ fuel p dst src,
  nodes src = nb → (length nb ≤ fuel)%nat →
  list_ok p dst → list_ok p src →
  total_slots (store (alloc dst)) + Z.of_nat (length nb) * heapCount < 2 ^ 64 →
  ∃ tr p' dst' src',
    swap_loop heapCount sizeof_T fuel (begin src) None (p, dst, src)
      = Some (tr, (p', dst', src')) ∧
    nodes src' = [] ∧ vals dst' = vals dst ++ vals src ∧
    list_ok p' dst' ∧ list_ok p' src' ∧
    inuse_items p' = inuse_items p ∧
    inuse_of <$> tr
      = mjoin (replicate (length nb) [inuse_items p + 1; inuse_items p]) ∧
    nodes_of <$> tr
      = mjoin (replicate (length nb)
                 [S (length (nodes dst) + length nb); (length (nodes dst) + length nb)%nat]).
Proof.
  induction nb as [|[q v] nb IH]; intros fuel p dst src Hsrc Hfuel Hd Hs Hroom.
  - exists [], p, dst, src. unfold begin, vals. rewrite Hsrc. simpl.
    rewrite swap_loop_done. by rewrite app_nil_r.
  - destruct fuel as [|fuel]; [simpl in Hfuel; lia|].
    assert (0 ≤ Z.of_nat (length nb) * heapCount) as Hnn
      by (apply Z.mul_nonneg_nonneg; lia).
    assert (Z.of_nat (length ((q, v) :: nb)) * heapCount
            = Z.of_nat (length nb) * heapCount + heapCount) as HSn by (simpl length; lia).
    rewrite HSn in Hroom.
    destruct (push_back_spec stackCount heapCount sizeof_T heapCount_range v p dst Hd)
      as (p1 & dst1 & q1 & Hpb & Hd1 & Hn1 & Hin1 & Hbrk1 & Htot1); [unfold room; lia|].
    assert (pos_of q (nodes src) = Some O) as Hq.
    { rewrite Hsrc. simpl. by rewrite decide_True. }
    destruct (erase_spec stackCount sizeof_T q p1 src O
                (list_ok_mono _ _ p p1 src Hs Hbrk1) Hq)
      as (p2 & a2 & Her & Hs1 & Hin2 & Hbrk2).
    rewrite Hsrc in Her, Hs1. cbn [take drop app lookup list_lookup] in Her, Hs1.
    set (src1 := mk_list a2 nb) in *.
    destruct (IH fuel p2 dst1 src1)
      as (tr & p' & dst' & src' & Hloop & Hns' & Hvals & Hd' & Hs' & Hin' & Htr & Hcnt);
      [done|simpl in Hfuel; lia|by eapply list_ok_mono|done|lia|].
    exists ((p1, dst1, src) :: (p2, dst1, src1) :: tr), p', dst', src'. split.
    { assert (begin src = Some q) as Hbeg by (unfold begin; by rewrite Hsrc).
      cbn [swap_loop]. rewrite Hbeg. rewrite decide_False by done.
      unfold deref. cbn [mbind option_bind]. rewrite Hq. cbn [mbind option_bind].
      rewrite Hsrc. cbn [lookup list_lookup fmap option_fmap option_map snd mbind option_bind].
      rewrite Hpb. cbn [mbind option_bind]. rewrite Her. cbn [mbind option_bind].
      unfold begin in Hloop. subst src1. cbn [nodes] in Hloop.
      match goal with
      | |- context [swap_loop ?x1 ?x2 ?x3 ?x4 ?x5 ?x6] =>
          assert (swap_loop x1 x2 x3 x4 x5 x6 = Some (tr, (p', dst', src'))) as ->
            by (clear -Hloop; destruct nb; exact Hloop)
      end.
      done. }
    split; [done|]. split.
    { rewrite Hvals. unfold vals. subst src1. rewrite Hn1, Hsrc, fmap_app. simpl.
      by rewrite <- app_assoc. }
    split; [done|]. split; [done|]. split; [lia|].
    split.
    { cbn [fmap list_fmap length replicate mjoin list_join app fst].
      rewrite Htr. assert (inuse_items p2 = inuse_items p) as -> by lia.
      by rewrite Hin1. }
    cbn [fmap list_fmap length replicate mjoin list_join app fst snd].
    rewrite Hcnt. subst src1. cbn [nodes]. rewrite Hsrc, Hn1, length_app.
    cbn [length].
    replace (length (nodes dst) + 1 + S (length nb))%nat
      with (S (length (nodes dst) + S (length nb))) by lia.
    replace (length (nodes dst) + 1 + length nb)%nat
      with (length (nodes dst) + S (length nb))%nat by lia.
    done.
Qed.

(** C6 (as amended).  For a well-formed list [b] of [i] elements and an empty
    well-formed list [c] of the same pool, [c.swap(b)] returns; on the way
    the two lists hold [i + 1] nodes after the [push_back] of each iteration
    of the first loop and [i] nodes after the [erase] that follows, never
    more, and the pool's [inuse_items] is accordingly its initial value plus
    one and its initial value; on completion [b] is empty, [c] holds the
    elements of [b] in their order and [inuse_items] has its initial
    value. *)
Theorem C6_swap_into_empty p c b :
  list_ok p c → list_ok p b → nodes c = [] →
  total_slots (store (alloc c)) + Z.of_nat (length (nodes b)) * heapCount < 2 ^ 64 →
  ∃ tr p' c' b',
    swap_run heapCount sizeof_T (p, c, b) = Some (tr, (p', c', b')) ∧
    nodes b' = [] ∧ vals c' = vals b ∧
    inuse_items p' = inuse_items p ∧
    inuse_of <$> tr
      = mjoin (replicate (length (nodes b)) [inuse_items p + 1; inuse_items p]) ∧
    nodes_of <$> tr
      = mjoin (replicate (length (nodes b)) [S (length (nodes b)); length (nodes b)]) ∧
    Forall (λ w, inuse_items p ≤ inuse_of w ≤ inuse_items p + 1) tr ∧
    list_ok p' c' ∧ list_ok p' b'.
Proof.
  intros Hc Hb Hnc Hroom.
  destruct (swap_loop_spec (nodes b) (length (nodes b)) p c b)
    as (tr & p' & c' & b' & Hloop & Hnb' & Hvals & Hc' & Hb' & Hin & Htr & Hcnt); [done..|].
  rewrite Hnc in Hcnt. cbn [length plus] in Hcnt.
  exists tr, p', c', b'. split.
  { unfold swap_run. rewrite Hloop. cbn [mbind option_bind].
    unfold begin at 1. rewrite Hnc. cbn [head fmap option_fmap option_map].
    rewrite swap_loop_done. cbn [mbind option_bind fmap list_fmap].
    by rewrite app_nil_r. }
  split; [done|]. split; [unfold vals in *; by rewrite Hvals, Hnc|].
  split; [done|]. split; [done|]. split; [done|]. split; [|done].
  apply Forall_forall. intros w Hw.
  assert (inuse_of w ∈ inuse_of <$> tr) as Hin'.
  { apply list_elem_of_fmap. by exists w. }
  rewrite Htr in Hin'. clear -Hin'.
  induction (length (nodes b)) as [|n IH]; simpl in Hin'.
  - by apply elem_of_nil in Hin'.
  - apply elem_of_cons in Hin' as [->|Hin']; [lia|].
    apply elem_of_cons in Hin' as [->|Hin']; [lia|]. by apply IH.
Qed.

End swap.

(** The swap of the test [list_context], for [i = 5]. *)
Lemma C6_witness :
  ∃ p b c tr p' c' b',
    list_context 5 = Some (p, b, c) ∧ inuse_items p = 5 ∧
    swap_run 12 24 (p, c, b) = Some (tr, (p', c', b')) ∧
    nodes b' = [] ∧ vals c' = vals b ∧
    inuse_items p' = inuse_items p ∧
    (λ w : pool_t * slab_list Z * slab_list Z, inuse_items w.1.1) <$> tr
      = mjoin (replicate (length (nodes b)) [inuse_items p + 1; inuse_items p]) ∧
    (λ w : pool_t * slab_list Z * slab_list Z,
       (length (nodes w.1.2) + length (nodes w.2))%nat) <$> tr
      = mjoin (replicate (length (nodes b)) [S (length (nodes b)); length (nodes b)]) ∧
    Forall (λ w, inuse_items p ≤ inuse_items w.1.1 ≤ inuse_items p + 1) tr ∧
    list_ok 4 24 p' c' ∧ list_ok 4 24 p' b'.
Proof.
  destruct list_context_5 as (p & b & c & Hctx).
  destruct (list_context_spec 5 p b c ltac:(lia) Hctx) as (Hb & Hc & Hnc & Hv & Hin & Htot).
  destruct (C6_swap_into_empty 4 12 24 ltac:(lia) p c b Hc Hb Hnc)
    as (tr & p' & c' & b' & H).
  - rewrite Htot.
    assert (length (nodes b) = 5%nat) as ->; [|lia].
    apply (f_equal length) in Hv. unfold vals in Hv. rewrite !length_fmap in Hv.
    exact Hv.
  - exists p, b, c, tr, p', c', b'. split; [exact Hctx|]. split; [exact Hin|]. exact H.
Defined.

(** C6, counterexample: in the test [list_context] with [i = 1] the pool has
    one node in use before [c.swap(b)] and two after the [push_back] of the
    only iteration, before the [erase]. *)
Lemma C6_swap_transient_spike :
  ∃ p b c tr w,
    list_context 1 = Some (p, b, c) ∧ inuse_items p = 1 ∧ length (nodes b) = 1%nat ∧
    swap_run 12 24 (p, c, b) = Some (tr, w) ∧
    (λ w : pool_t * slab_list Z * slab_list Z, inuse_items w.1.1) <$> tr = [2; 1] ∧
    (λ w : pool_t * slab_list Z * slab_list Z,
       (length (nodes w.1.2) + length (nodes w.2))%nat) <$> tr = [2; 1]%nat ∧
    ¬ never_exceeds 1 tr.
Proof.
  eexists _, _, _, _, _. split; [vm_compute; reflexivity|].
  split; [reflexivity|]. split; [reflexivity|].
  split; [vm_compute; reflexivity|]. split; [reflexivity|]. split; [reflexivity|].
  intros H. apply Forall_cons in H as [H _]. vm_compute in H. discriminate H.
Qed.

(** ** C9: self-assignment *)

(** C9.  Copy-assigning a well-formed list to itself ([L = L]) returns and
    leaves the list empty: [copy] clears the destination, which is the
    source, and the loop over the source then finds nothing to push.  The
    same holds for a vector ([V = V]), whatever its state.  In both cases the
    other objects of the store are untouched. *)
Theorem C9_self_assignment_empties {node value : Type}
    (stackCount heapCount sizeof_T vstackCount vsizeof_T : Z)
    (h : pool_t * gmap nat (slab_list node)) (this : nat) (l : slab_list node)
    (hv : pool_t * gmap nat (slab_vector value)) (vthis : nat) (v : slab_vector value) :
  h.2 !! this = Some l → list_ok stackCount sizeof_T h.1 l →
  hv.2 !! vthis = Some v →
  (∃ p' l', slab_list_assign heapCount sizeof_T this this h
              = Some (p', <[this := l']> h.2) ∧ nodes l' = []) ∧
  (∃ p' v', slab_vector_assign vstackCount vsizeof_T vthis vthis hv
              = Some (p', <[vthis := v']> hv.2) ∧ elems v' = []).
Proof.
  intros Hl Hok Hv. split.
  - destruct (clear_spec stackCount sizeof_T h.1 l Hok) as (p' & a' & Hc & _).
    exists p', (mk_list a' []). split; [|done].
    unfold slab_list_assign, copy. rewrite Hl. cbn [mbind option_bind].
    rewrite Hc. cbn [mbind option_bind fst snd].
    rewrite lookup_insert_eq. cbn [mbind option_bind]. done.
  - unfold slab_vector_assign. rewrite Hv. cbn [mbind option_bind].
    destruct (slab_vector_reserve vstackCount vsizeof_T (slab_vector_size v) (hv.1, v))
      as [p1 v1] eqn:Hr.
    exists p1, (slab_vector_clear v1). split; [|done].
    rewrite lookup_insert_eq. cbn [mbind option_bind].
    rewrite lookup_insert_eq. cbn [mbind option_bind].
    cbn [slab_vector_clear elems length slab_vector_assign_loop].
    by rewrite insert_insert_eq.
Qed.

(** The list [b] of the test [list_context] with [i = 5], and a vector of
    three elements, each assigned to itself. *)
Lemma C9_witness :
  ∃ p b c v,
    list_context 5 = Some (p, b, c) ∧ vals b = [5; 6; 7; 8; 9] ∧
    v = mk_vec 9 (Some (StackSlot 9)) [1; 2; 3] 4 ∧
    (∃ p' l', slab_list_assign 12 24 100 100 (p, {[ 100%nat := b ]})
                = Some (p', <[100%nat := l']> {[ 100%nat := b ]}) ∧ nodes l' = []) ∧
    (∃ p' v', slab_vector_assign 4 4 9 9 (p, {[ 9%nat := v ]})
                = Some (p', <[9%nat := v']> {[ 9%nat := v ]}) ∧ elems v' = []).
Proof.
  destruct list_context_5 as (p & b & c & Hctx).
  destruct (list_context_spec 5 p b c ltac:(lia) Hctx) as (Hb & Hc & Hnc & Hv & Hin & Htot).
  exists p, b, c, (mk_vec 9 (Some (StackSlot 9)) [1; 2; 3] 4).
  split; [exact Hctx|]. split; [exact Hv|]. split; [reflexivity|].
  exact (C9_self_assignment_empties 4 12 24 4 4
           (p, {[ 100%nat := b ]}) 100 b
           (p, {[ 9%nat := mk_vec 9 (Some (StackSlot 9)) [1; 2; 3] 4 ]}) 9
           (mk_vec 9 (Some (StackSlot 9)) [1; 2; 3] 4)
           (lookup_singleton_eq _ _) Hb (lookup_singleton_eq _ _)).
Defined.

(** * Further properties *)

(** ** Sums over the slabs *)

Lemma map_sum_scale f g c m :
  map_sum (λ sl, (f sl - g sl) * c) m = (map_sum f m - map_sum g m) * c.
Proof.
  induction m as [|sp sl m Hn IH] using map_ind.
  - rewrite !map_sum_empty. lia.
  - rewrite !map_sum_insert by done. rewrite IH. lia.
Qed.

Lemma map_sum_size m : map_sum (λ _, 1) m = Z.of_nat (size m).
Proof.
  induction m as [|sp sl m Hn IH] using map_ind.
  - by rewrite map_sum_empty, map_size_empty.
  - rewrite map_sum_insert, map_size_insert_None by done. lia.
Qed.

Lemma map_sum_zero f m :
  (∀ sp sl, m !! sp = Some sl → f sl = 0) → map_sum f m = 0.
Proof.
  intros H. rewrite (map_sum_ext f (λ sl, (f sl - f sl) * 0) m).
  - rewrite map_sum_scale. lia.
  - intros sp sl Hs. rewrite (H sp sl Hs). lia.
Qed.

(** The slots of a slab that are not on its free chain. *)
Lemma length_filter_chain (chain : list Z) n :
  0 ≤ n → NoDup chain → (∀ i, i ∈ chain → 0 ≤ i < n) →
  Z.of_nat (length (filter (λ j, j ∉ chain) (seqZ 0 n))) = n - Z.of_nat (length chain).
Proof.
  intros Hn Hnd Hr.
  pose proof (filter_app_complement (λ j, j ∈ chain) (seqZ 0 n)) as Hp.
  apply Permutation_length in Hp. rewrite length_app, length_seqZ in Hp.
  assert (filter (λ j, j ∈ chain) (seqZ 0 n) ≡ₚ chain) as Hc.
  { apply NoDup_Permutation; [apply NoDup_filter, NoDup_seqZ|done|].
    intros x. rewrite list_elem_of_filter, elem_of_seqZ.
    split; [by intros [? _]|]. intros Hx. split; [done|]. specialize (Hr x Hx). lia. }
  apply Permutation_length in Hc. lia.
Qed.

Lemma length_live_slots a :
  Inv_core a → Z.of_nat (length (live_slots a)) = used a.
Proof.
  intros HI. unfold used. rewrite (inv_count a HI). unfold total_slots, sum_free.
  pose proof (inv_slab a HI) as Hok. unfold live_slots.
  generalize dependent (store a). clear a HI.
  intros m. induction m as [|sp sl m Hn IH] using map_ind; intros Hok.
  - rewrite map_to_list_empty, !map_sum_empty. done.
  - rewrite !map_sum_insert by done.
    match goal with
    | |- context [mbind ?F (map_to_list (<[sp := sl]> m))] =>
      rewrite (Permutation_length
                 (bind_Permutation F _ _ (map_to_list_insert m sp sl Hn)))
    end.
    cbn [mbind list_bind fst snd]. rewrite length_app, length_fmap, Nat2Z.inj_add.
    destruct (Hok sp sl (lookup_insert_eq _ _ _)) as [Hsz Hcnt Hnd Hr].
    rewrite (length_filter_chain (freeHead sl) (slabSize sl) ltac:(lia) Hnd Hr).
    assert (∀ sp' sl', m !! sp' = Some sl' → slab_ok sl') as Hok'.
    { intros sp' sl' Hs'. apply (Hok sp'). rewrite lookup_insert_ne; [done|].
      intros ->. congruence. }
    specialize (IH Hok'). rewrite Hcnt.
    transitivity (slabSize sl - Z.of_nat (length (freeHead sl))
                  + (map_sum slabSize m - map_sum freeSlots m)); [|lia].
    f_equal. exact IH.
Qed.

(** A free slot somewhere means a linked slab. *)
Lemma free_slot_linked a : Inv_core a → 1 ≤ freeSlotCount a → freeSlabHeads a ≠ [].
Proof.
  intros HI Hfc Hh. rewrite (inv_count a HI) in Hfc.
  unfold sum_free in Hfc. rewrite map_sum_zero in Hfc; [lia|].
  intros sp sl Hs.
  pose proof (slab_free_range sl (inv_slab a HI sp sl Hs)) as Hr.
  destruct (decide (1 ≤ freeSlots sl)) as [H1|H1]; [|lia].
  apply (inv_linked a HI sp sl Hs) in H1. rewrite Hh in H1. by apply elem_of_nil in H1.
Qed.

(** ** The slabs after one operation *)

Section store_steps.

Variables (stackSize heapSize sizeof_T : Z).
Hypothesis heapSize_range : 1 ≤ heapSize < 2 ^ 32.

Local Abbreviation Inv := (Inv stackSize sizeof_T).

(** [allocate] with a linked slab: no slab is requested. *)
Lemma allocate_linked p a sp rest :
  Inv (p, a) → freeSlabHeads a = sp :: rest →
  ∃ a' i sl,
    allocate heapSize sizeof_T 1 (p, a)
      = Some (slab_item_allocate (trueSlotSize a) p, a', (sp, i)) ∧
    store a !! sp = Some sl ∧
    (∃ chain, store a' = <[sp := mk_slab (slabSize sl) (freeSlots sl - 1) chain]> (store a)) ∧
    freeSlotCount a' = freeSlotCount a - 1 ∧
    Inv (slab_item_allocate (trueSlotSize a) p, a') ∧
    total_slots (store a') = total_slots (store a) ∧
    ¬ live a (sp, i) ∧ (∀ x, live a' x ↔ live a x ∨ x = (sp, i)) ∧
    used a' = used a + 1.
Proof.
  intros HInv Hh. pose proof HInv as (HI & Hfr & HS). cbn [fst snd] in *.
  destruct (pop_full_spec stackSize heapSize sizeof_T p a sp rest HInv Hh)
    as (p' & a' & i & Heq & HInv' & _ & _ & Hnl & Hl & Hused & _ & _ & Htot).
  destruct (inv_heads a HI sp) as [sl Hs]; [rewrite Hh; by left|].
  destruct (allocslot_pop heapSize p a sp rest sl HI Hh Hs) as (i2 & chain & Hfh & Heq2).
  rewrite Heq in Heq2. injection Heq2 as -> -> ->.
  eexists _, i2, sl.
  rewrite (allocate_eq heapSize sizeof_T (p, a)) by apply HS.
  split; [exact Heq|]. split; [done|]. split; [by exists chain|].
  split; [done|]. split; [exact HInv'|]. done.
Qed.

(** [allocate] with an empty ring: a slab of [heapSize] slots is requested. *)
Lemma allocate_grows p a :
  Inv (p, a) → room a heapSize → freeSlabHeads a = [] →
  ∃ p' a' i,
    allocate heapSize sizeof_T 1 (p, a) = Some (p', a', (HeapSlab (brk p), i)) ∧
    store a !! HeapSlab (brk p) = None ∧
    (∃ chain, store a' = <[HeapSlab (brk p) := mk_slab heapSize (heapSize - 1) chain]> (store a)) ∧
    brk p' = S (brk p) ∧ slabs p' = slabs p + 1 ∧
    allocated_items p' = allocated_items p + heapSize.
Proof.
  intros HInv Hroom Hh. pose proof HInv as (HI & Hfr & HS). cbn [fst snd] in *.
  rewrite (allocate_eq heapSize sizeof_T (p, a)) by apply HS.
  pose proof (addSlab_eq p a heapSize HI Hfr ltac:(lia) Hroom) as Hadd.
  rewrite decide_False in Hadd by lia. rewrite Hh in Hadd.
  pose proof (fresh_lookup p a Hfr) as Hnone.
  rewrite (allocslot_grow heapSize p a _ _ Hh Hadd) by done.
  match type of Hadd with _ = Some (?p1, ?a1) =>
    destruct (allocslot_pop heapSize p1 a1 (HeapSlab (brk p)) [] (full_slab heapSize))
      as (i & chain & Hfh & Heq)
  end.
  - assert (freeSlabHeads a = []) as Hh' by done.
    pose proof (Inv_full_slab a (HeapSlab (brk p)) heapSize HI Hnone ltac:(lia) Hroom) as HI1.
    rewrite decide_False in HI1 by lia. by rewrite Hh' in HI1.
  - done.
  - cbn [store]. apply lookup_insert_eq.
  - eexists _, _, i. split; [exact Heq|]. split; [done|].
    split; [exists chain; cbn [store slabSize freeSlots full_slab];
            by rewrite insert_insert_eq|].
    done.
Qed.

(** The slabs of the allocator after [allocate]: the sizes of the slabs stay,
    and a new slab has [heapSize] slots. *)
Lemma allocate_store st st' q sp sl' :
  Inv st → room st.2 heapSize →
  allocate heapSize sizeof_T 1 st = Some (st', q) →
  store st'.2 !! sp = Some sl' →
  (∃ sl, store st.2 !! sp = Some sl ∧ slabSize sl' = slabSize sl) ∨
  (store st.2 !! sp = None ∧ sp = HeapSlab (brk st.1) ∧ slabSize sl' = heapSize).
Proof.
  destruct st as [p a]. intros HInv Hroom Ha Hs'. cbn [fst snd] in *.
  destruct (freeSlabHeads a) as [|sp0 rest] eqn:Hh.
  - destruct (allocate_grows p a HInv Hroom Hh)
      as (p' & a' & i & Heq & Hnone & (chain & Hst) & _).
    rewrite Heq in Ha. injection Ha as <- <-. cbn [snd] in Hs'.
    rewrite Hst in Hs'. apply lookup_insert_Some in Hs' as [[<- <-]|[Hne Hs']].
    + right. done.
    + left. by exists sl'.
  - destruct (allocate_linked p a sp0 rest HInv Hh)
      as (a' & i & sl & Heq & Hs & (chain & Hst) & _).
    rewrite Heq in Ha. injection Ha as <- <-. cbn [snd] in Hs'.
    rewrite Hst in Hs'. apply lookup_insert_Some in Hs' as [[<- <-]|[Hne Hs']].
    + left. by exists sl.
    + left. by exists sl'.
Qed.

(** The slabs of the allocator after [deallocate]. *)
Lemma deallocate_store p a q s p' a' sp sl' :
  Inv (p, a) → live a q → deallocate q s (p, a) = Some (p', a') →
  store a' !! sp = Some sl' →
  ∃ sl, store a !! sp = Some sl ∧ slabSize sl' = slabSize sl.
Proof.
  intros HInv Hl Hd Hs'.
  destruct (deallocate_spec stackSize sizeof_T p a q s HInv Hl)
    as (p2 & a2 & sl & Hd2 & Hs & _ & _ & _ & _ & _ & _ & Hcase).
  rewrite Hd in Hd2. injection Hd2 as <- <-.
  destruct Hcase as [(_ & _ & Hst & _)|(_ & Hst & _)]; rewrite Hst in Hs'.
  - apply lookup_delete_Some in Hs' as [_ Hs']. by exists sl'.
  - apply lookup_insert_Some in Hs' as [[<- <-]|[Hne Hs']].
    + by exists sl.
    + by exists sl'.
Qed.

Lemma deallocate_total p a q s p' a' :
  Inv (p, a) → live a q → deallocate q s (p, a) = Some (p', a') →
  total_slots (store a') ≤ total_slots (store a).
Proof.
  intros HInv Hl Hd. pose proof HInv as (HI & _).  cbn [fst snd] in *.
  destruct (deallocate_spec stackSize sizeof_T p a q s HInv Hl)
    as (p2 & a2 & sl & Hd2 & Hs & _ & _ & _ & _ & _ & _ & Hcase).
  rewrite Hd in Hd2. injection Hd2 as <- <-.
  pose proof (ok_size sl (inv_slab a HI _ _ Hs)) as Hsz.
  destruct Hcase as [(_ & _ & Hst & _)|(_ & Hst & _)]; rewrite Hst; unfold total_slots.
  - rewrite (map_sum_delete slabSize (store a) _ _ Hs). lia.
  - rewrite (map_sum_insert_Some _ _ _ sl) by done. simpl. lia.
Qed.

End store_steps.

(** ** The allocator *)

Section allocator_properties.

Variables (stackSize heapSize sizeof_T : Z).
Variables (this : nat) (pinit : pool_t).
Hypothesis stackSize_range : 0 ≤ stackSize < 2 ^ 32.
Hypothesis heapSize_range : 1 ≤ heapSize < 2 ^ 32.

Local Abbreviation reachable := (reachable stackSize heapSize sizeof_T this pinit).
Local Abbreviation Inv := (Inv stackSize sizeof_T).

(** Without [reserve] every heap slab has [heapSize] slots. *)
Lemma reachable_heap_uniform st :
  reachable false st →
  ∀ addr sl, store st.2 !! HeapSlab addr = Some sl → slabSize sl = heapSize.
Proof.
  intros Hr. remember false as b eqn:Hb.
  induction Hr as [st Hc | st st' q Hr IH Hroom Ha | st st' q s Hr IH Hl Hd
                   | st st' n Hbt Hr IH Hn Hroom Hres]; intros addr sl' Hs'.
  - rewrite ctor_eq in Hc by done. injection Hc as <-. cbn [snd store] in Hs'.
    rewrite lookup_insert_ne in Hs' by done. by rewrite lookup_empty in Hs'.
  - destruct (reachable_Inv stackSize heapSize sizeof_T this pinit
                stackSize_range heapSize_range b st Hr) as (HInv & _).
    destruct (allocate_store stackSize heapSize sizeof_T heapSize_range
                st st' q _ _ HInv Hroom Ha Hs') as [(sl & Hs & ->)|(_ & _ & ->)]; [|done].
    by apply (IH addr).
  - destruct (reachable_Inv stackSize heapSize sizeof_T this pinit
                stackSize_range heapSize_range b st Hr) as (HInv & _).
    destruct st as [p a], st' as [p' a'].
    destruct (deallocate_store stackSize sizeof_T p a q s p' a' _ _ HInv Hl Hd Hs')
      as (sl & Hs & ->).
    by apply (IH addr).
  - congruence.
Qed.

(** X1.  In every state that [allocate], [deallocate] and [reserve] lead to
    from the constructor, the bookkeeping is exact: [freeSlotCount] is the
    sum of the [freeSlots] of the slabs, the chain of every slab holds
    [freeSlots] slots of the slab, each once, the slots in use are
    [total - freeSlotCount] many, [allocSlotCount] is still [stackSize],
    [trueSlotSize] is [sizeof(slot_t)], [selfPointer] is [this], the inline
    slab has [stackSize] slots, and the counters of the pool follow. *)
Theorem bookkeeping_invariant b st :
  reachable b st →
  freeSlotCount st.2 = sum_free (store st.2) ∧
  (∀ sp sl, store st.2 !! sp = Some sl →
     0 ≤ freeSlots sl ≤ slabSize sl ∧
     freeSlots sl = Z.of_nat (length (freeHead sl)) ∧ NoDup (freeHead sl) ∧
     ∀ i, i ∈ freeHead sl → 0 ≤ i < slabSize sl) ∧
  Z.of_nat (length (live_slots st.2)) = total_slots (store st.2) - freeSlotCount st.2 ∧
  allocSlotCount st.2 = stackSize ∧
  trueSlotSize st.2 = sizeof_slot_t sizeof_T ∧
  selfPointer st.2 = this ∧
  (∃ sl, store st.2 !! StackSlab this = Some sl ∧ slabSize sl = stackSize) ∧
  allocated_items st.1 = allocated_items pinit + total_slots (store st.2) ∧
  free_items st.1 = free_items pinit + freeSlotCount st.2 ∧
  inuse_items st.1 = inuse_items pinit + Z.of_nat (length (live_slots st.2)) ∧
  slabs st.1 = slabs pinit + Z.of_nat (size (store st.2)).
Proof.
  intros Hr.
  destruct (reachable_Inv stackSize heapSize sizeof_T this pinit
              stackSize_range heapSize_range b st Hr)
    as ((HI & _ & HS) & (Hal & Hfi & Hsl) & Hself & _).
  pose proof (length_live_slots st.2 HI) as Hlen. unfold used in Hlen.
  split; [apply (inv_count _ HI)|].
  split.
  { intros sp sl Hs. pose proof (inv_slab _ HI sp sl Hs) as Hok.
    split; [by apply slab_free_range|].
    split; [apply (ok_count _ Hok)|]. split; [apply (ok_nodup _ Hok)|apply (ok_range _ Hok)]. }
  split; [done|].
  split; [apply (inv_alloc_count _ _ _ HS)|].
  split; [apply (inv_slot_size _ _ _ HS)|].
  split; [done|].
  split; [rewrite <- Hself; apply (inv_stack_slab _ _ _ HS)|].
  split; [done|]. split; [done|]. split; [|done].
  unfold inuse_items. lia.
Qed.


(** X3.  [deallocate] of a slot in use succeeds, whatever the size argument;
    it frees that slot and no other, requests no memory and adds no slab. *)
Theorem deallocate_frees_one b st q s :
  reachable b st → live st.2 q →
  ∃ st',
    deallocate q s st = Some st' ∧
    (∀ x, live st'.2 x ↔ live st.2 x ∧ x ≠ q) ∧
    inuse_items st'.1 = inuse_items st.1 - 1 ∧
    brk st'.1 = brk st.1 ∧
    (∀ sp, is_Some (store st'.2 !! sp) → is_Some (store st.2 !! sp)) ∧
    total_slots (store st'.2) ≤ total_slots (store st.2).
Proof.
  intros Hr Hlive. destruct st as [p a].
  destruct (reachable_Inv stackSize heapSize sizeof_T this pinit
              stackSize_range heapSize_range b (p, a) Hr) as (HInv & _).
  destruct (deallocate_spec stackSize sizeof_T p a q s HInv Hlive)
    as (p' & a' & sl & Hd & Hs & _ & _ & Htr & Hl & Hused & _ & Hcase).
  exists (p', a'). cbn [fst snd] in *. split; [done|]. split; [done|].
  split; [pose proof (inuse_step (p, a) (p', a') Htr); cbn [fst snd] in *; lia|].
  split; [destruct Hcase as [(_ & _ & _ & _ & _ & ->)|(_ & _ & _ & _ & ->)]; done|].
  split.
  - intros sp [sl' Hs'].
    destruct (deallocate_store stackSize sizeof_T p a q s p' a' sp sl' HInv Hlive Hd Hs')
      as (sl0 & Hs0 & _). by exists sl0.
  - by apply (deallocate_total stackSize sizeof_T p a q s p' a').
Qed.

(** Allocations while free slots are left. *)
Lemma allocate_run (n : nat) : ∀ st,
  Inv st → room st.2 heapSize → Z.of_nat n ≤ freeSlotCount st.2 →
  ∃ st',
    run heapSize sizeof_T (replicate n Allocate) st = Some st' ∧
    brk st'.1 = brk st.1 ∧ slabs st'.1 = slabs st.1 ∧
    allocated_items st'.1 = allocated_items st.1 ∧
    freeSlotCount st'.2 = freeSlotCount st.2 - Z.of_nat n ∧
    used st'.2 = used st.2 + Z.of_nat n ∧
    (∀ sp, is_Some (store st'.2 !! sp) ↔ is_Some (store st.2 !! sp)).
Proof.
  induction n as [|n IH]; intros [p a] HInv Hroom Hfc; cbn [fst snd] in *.
  - exists (p, a). cbn [fst snd]. split; [done|]. repeat split; try done; lia.
  - pose proof HInv as (HI & _). cbn [fst snd] in HI.
    destruct (freeSlabHeads a) as [|sp rest] eqn:Hh.
    { exfalso. by apply (free_slot_linked a HI ltac:(lia)). }
    destruct (allocate_linked stackSize heapSize sizeof_T p a sp rest HInv Hh)
      as (a' & i & sl & Heq & Hs & (chain & Hst) & Hfc' & HInv' & Htot & _ & _ & Hused).
    destruct (IH (slab_item_allocate (trueSlotSize a) p, a') HInv')
      as (st' & Hrun & Hbrk & Hsl & Hal & Hfc2 & Hused2 & Hdom); cbn [fst snd] in *.
    { unfold room in *. lia. }
    { lia. }
    exists st'. split.
    { cbn [replicate run]. unfold step. rewrite option_guard_True by done.
      cbn [mbind option_bind fst snd]. rewrite Heq. exact Hrun. }
    split; [by rewrite Hbrk|]. split; [by rewrite Hsl|]. split; [by rewrite Hal|].
    split; [lia|]. split; [lia|].
    intros sp'. rewrite Hdom, Hst, lookup_insert_is_Some.
    split; [intros [<-|[_ ?]]; [by eexists|done]|].
    intros ?. destruct (decide (sp = sp')); [by left|by right].
Qed.

(** X4.  As long as free slots are left, allocations request no memory: with
    [n] slots free, as after [reserve(n)], the next [n] calls of
    [allocate] add no slab and leave [n] slots fewer free. *)
Theorem allocations_without_request b st (n : nat) :
  reachable b st → room st.2 heapSize → Z.of_nat n ≤ freeSlotCount st.2 →
  ∃ st',
    run heapSize sizeof_T (replicate n Allocate) st = Some st' ∧
    brk st'.1 = brk st.1 ∧ slabs st'.1 = slabs st.1 ∧
    allocated_items st'.1 = allocated_items st.1 ∧
    freeSlotCount st'.2 = freeSlotCount st.2 - Z.of_nat n ∧
    inuse_items st'.1 = inuse_items st.1 + Z.of_nat n ∧
    (∀ sp, is_Some (store st'.2 !! sp) ↔ is_Some (store st.2 !! sp)).
Proof.
  intros Hr Hroom Hfc.
  destruct (reachable_Inv stackSize heapSize sizeof_T this pinit
              stackSize_range heapSize_range b st Hr) as (HInv & Hrel & _).
  destruct (allocate_run n st HInv Hroom Hfc)
    as (st' & Hrun & Hbrk & Hsl & Hal & Hfc' & Hused & Hdom).
  exists st'. split; [done|]. split; [done|]. split; [done|]. split; [done|].
  split; [done|]. split; [|done].
  assert (reachable b st') as Hr'.
  { apply (run_reachable stackSize heapSize sizeof_T this pinit b
             (replicate n Allocate) st st'); [|done|done].
    intros _. apply Forall_replicate. done. }
  destruct (reachable_Inv stackSize heapSize sizeof_T this pinit
              stackSize_range heapSize_range b st' Hr') as (_ & Hrel' & _).
  destruct Hrel as (H1 & H2 & _), Hrel' as (H1' & H2' & _).
  unfold inuse_items, used in *. lia.
Qed.

(** X5.  Without [reserve], the unused memory is bounded as the header of
    the file says: every heap slab has a slot in use, so the heap slabs are
    at most as many as the slots in use, and the free slots are at most
    [stackSize] plus [heapSize - 1] for every slot in use. *)
Theorem unused_bound_without_reserve st :
  reachable false st →
  Z.of_nat (size (store st.2)) ≤ 1 + Z.of_nat (length (live_slots st.2)) ∧
  freeSlotCount st.2
    ≤ stackSize + Z.of_nat (length (live_slots st.2)) * (heapSize - 1).
Proof.
  intros Hr.
  pose proof (reachable_heap_uniform st Hr) as Hsize.
  destruct (reachable_Inv stackSize heapSize sizeof_T this pinit
              stackSize_range heapSize_range false st Hr)
    as ((HI & _ & HS) & _ & Hself & Hidle).
  specialize (Hidle eq_refl). destruct st as [p a]. cbn [fst snd] in *.
  rewrite (length_live_slots a HI).
  destruct (inv_stack_slab _ _ _ HS) as (sls & Hs & Hsz).
  pose proof (slab_free_range sls (inv_slab a HI _ _ Hs)) as Hrs.
  set (m := delete (StackSlab (selfPointer a)) (store a)).
  assert (∀ sp sl, m !! sp = Some sl →
            1 ≤ slabSize sl - freeSlots sl ∧
            freeSlots sl ≤ (slabSize sl - freeSlots sl) * (heapSize - 1)) as Hm.
  { intros sp sl Hl. apply lookup_delete_Some in Hl as [Hne Hl].
    destruct sp as [t|addr].
    - destruct Hne. f_equal. symmetry. apply (inv_stack_only _ _ _ HS). by eexists.
    - pose proof (Hidle addr sl Hl). pose proof (Hsize addr sl Hl).
      pose proof (slab_free_range sl (inv_slab a HI _ _ Hl)). nia. }
  assert (Z.of_nat (size m) ≤ map_sum slabSize m - map_sum freeSlots m) as H1.
  { rewrite <- map_sum_size.
    replace (map_sum slabSize m - map_sum freeSlots m)
      with ((map_sum slabSize m - map_sum freeSlots m) * 1) by lia.
    rewrite <- map_sum_scale. apply map_sum_le.
    intros sp sl Hl. destruct (Hm sp sl Hl). lia. }
  assert (map_sum freeSlots m ≤ (map_sum slabSize m - map_sum freeSlots m) * (heapSize - 1))
    as H2.
  { rewrite <- map_sum_scale. apply map_sum_le.
    intros sp sl Hl. by destruct (Hm sp sl Hl). }
  unfold used, total_slots. rewrite (inv_count a HI). unfold sum_free.
  rewrite (map_sum_delete slabSize _ _ _ Hs), (map_sum_delete freeSlots _ _ _ Hs).
  fold m.
  assert (size (store a) = S (size m)) as ->.
  { unfold m. rewrite map_size_delete, Hs. simpl.
    assert (size (store a) ≠ 0%nat); [|lia].
    intros H0. apply map_size_empty_inv in H0. by rewrite H0, lookup_empty in Hs. }
  split; [lia|]. nia.
Qed.

(** X7.  A [reserve] that adds a slab leaves a state that the destructor
    rejects: the new slab heads the list of the slabs with free slots, where
    the destructor asserts the inline slab. *)
Theorem dtor_after_reserve_fails st n :
  reachable true st → 0 ≤ n < 2 ^ 32 → room st.2 n → freeSlotCount st.2 < n →
  ∃ st', reserve n st = Some st' ∧
         head (freeSlabHeads st'.2) = Some (HeapSlab (brk st.1)) ∧
         slab_allocator_dtor stackSize st' = None.
Proof.
  intros Hr Hn Hroom Hlt. destruct st as [p a].
  destruct (reachable_Inv stackSize heapSize sizeof_T this pinit
              stackSize_range heapSize_range true (p, a) Hr) as ((HI & Hfr & HS) & _).
  cbn [fst snd] in *.
  pose proof (sum_free_nonneg a HI) as Hnn. rewrite <- (inv_count a HI) in Hnn.
  unfold reserve, _reserve. cbn [snd]. rewrite decide_True by done.
  rewrite wrap64_id by lia.
  rewrite (addSlab_eq p a (n - freeSlotCount a) HI Hfr) by (unfold room in Hroom; lia).
  rewrite decide_False by lia.
  eexists. split; [reflexivity|]. cbn [fst snd freeSlabHeads head]. split; [reflexivity|].
  unfold slab_allocator_dtor. repeat case_guard; simpl; done.
Qed.

End allocator_properties.

(** X8.  With [stackSize = 0] the destructor fails in every state: the
    inline slab has no slot, is never linked, and the destructor asserts
    that it heads the list. *)
Theorem dtor_without_inline_slots heapSize sizeof_T this pinit b st :
  1 ≤ heapSize < 2 ^ 32 →
  reachable 0 heapSize sizeof_T this pinit b st →
  slab_allocator_dtor 0 st = None.
Proof.
  intros Hh Hr.
  destruct (reachable_Inv 0 heapSize sizeof_T this pinit ltac:(lia) Hh b st Hr)
    as ((HI & _ & HS) & _ & Hself & _).
  destruct st as [p a]. cbn [fst snd] in *.
  destruct (inv_stack_slab _ _ _ HS) as (sls & Hs & Hsz).
  pose proof (slab_free_range sls (inv_slab a HI _ _ Hs)) as Hrs.
  unfold slab_allocator_dtor. repeat case_guard; simpl; try done. exfalso.
  match goal with H : head _ = _ |- _ => rename H into Hhead end.
  assert (StackSlab (selfPointer a) ∈ freeSlabHeads a) as Hin.
  { destruct (freeSlabHeads a) as [|x r]; [done|]. injection Hhead as ->. by left. }
  apply (inv_linked a HI _ _ Hs) in Hin. lia.
Qed.

(** X9.  The default size of a heap slab: for a node of [n] bytes, links
    included, it is the largest number of nodes that fit in 256 bytes, and 1
    when a single node is larger. *)
Theorem defaultHS_fills_slab nodeSize extra :
  0 ≤ nodeSize → 0 ≤ extra → 0 < nodeSize + extra * 8 < 2 ^ 64 →
  1 ≤ _defaultHS nodeSize extra ≤ 256 ∧
  _nodeSize nodeSize extra = nodeSize + extra * 8 ∧
  (nodeSize + extra * 8 ≤ 256 →
     _defaultHS nodeSize extra * (nodeSize + extra * 8) ≤ 256
       < (_defaultHS nodeSize extra + 1) * (nodeSize + extra * 8)) ∧
  (256 < nodeSize + extra * 8 → _defaultHS nodeSize extra = 1).
Proof.
  intros Hn He Hr.
  assert (_nodeSize nodeSize extra = nodeSize + extra * 8) as Hns.
  { unfold _nodeSize. rewrite (wrap64_id (extra * 8)) by lia. rewrite wrap64_id by lia. done. }
  unfold _defaultHS, _slabSize, _desired_slab_size. rewrite Hns.
  set (k := nodeSize + extra * 8) in *.
  pose proof (Z.mul_div_le 256 k ltac:(lia)).
  pose proof (Z.mul_succ_div_gt 256 k ltac:(lia)).
  pose proof (Z.div_pos 256 k ltac:(lia) ltac:(lia)).
  assert (256 / k ≤ 256) by (apply Z.div_le_upper_bound; lia).
  destruct (decide (256 / k ≠ 0)) as [Hne|He0].
  - split; [lia|]. split; [done|]. split; [lia|].
    intros Hbig. rewrite Z.div_small in Hne by lia. done.
  - split; [lia|]. split; [done|]. split; [|done].
    intros Hsmall. assert (256 / k = 0) as Hz by lia.
    apply Z.div_small_iff in Hz; lia.
Qed.

(** ** Examples for the allocator *)

(** A state of the allocator of a [slab_list<int,4>] at address 0, reached
    from the constructor by a script of operations. *)
Ltac reach_by b ops st Hrun Hr :=
  destruct (run_ctor 4 12 24 0 (mk_pool 0 0 0 0) ops) as [st|] eqn:Hrun;
    [|vm_compute in Hrun; discriminate Hrun];
  assert (reachable 4 12 24 0 (mk_pool 0 0 0 0) b st) as Hr
    by (apply (run_ctor_reachable 4 12 24 0 (mk_pool 0 0 0 0) b ops);
        [intros Hb; first [discriminate Hb | repeat constructor]|exact Hrun]).

Lemma bookkeeping_invariant_witness :
  ∃ st,
    run_ctor 4 12 24 0 (mk_pool 0 0 0 0)
      [Allocate; Allocate; Allocate; Allocate; Allocate;
       Deallocate (StackSlab 0, 2); Reserve 20] = Some st ∧
    freeSlotCount st.2 = sum_free (store st.2) ∧
    Z.of_nat (length (live_slots st.2)) = total_slots (store st.2) - freeSlotCount st.2 ∧
    allocSlotCount st.2 = 4 ∧
    inuse_items st.1 = inuse_items (mk_pool 0 0 0 0) + Z.of_nat (length (live_slots st.2)) ∧
    slabs st.1 = slabs (mk_pool 0 0 0 0) + Z.of_nat (size (store st.2)).
Proof.
  reach_by true [Allocate; Allocate; Allocate; Allocate; Allocate;
                 Deallocate (StackSlab 0, 2); Reserve 20] st Hrun Hr.
  exists st. split; [reflexivity|].
  destruct (bookkeeping_invariant 4 12 24 0 (mk_pool 0 0 0 0) ltac:(lia) ltac:(lia) true st Hr)
    as (H1 & _ & H3 & H4 & _ & _ & _ & _ & _ & H10 & H11).
  repeat split; assumption.
Defined.


Lemma deallocate_frees_one_witness :
  ∃ st st',
    run_ctor 4 12 24 0 (mk_pool 0 0 0 0) [Allocate; Allocate; Allocate] = Some st ∧
    live st.2 (StackSlab 0, 2) ∧
    deallocate (StackSlab 0, 2) 1 st = Some st' ∧
    (∀ x, live st'.2 x ↔ live st.2 x ∧ x ≠ (StackSlab 0, 2)) ∧
    inuse_items st'.1 = inuse_items st.1 - 1 ∧
    brk st'.1 = brk st.1 ∧
    (∀ sp, is_Some (store st'.2 !! sp) → is_Some (store st.2 !! sp)) ∧
    total_slots (store st'.2) ≤ total_slots (store st.2).
Proof.
  reach_by false [Allocate; Allocate; Allocate] st Hrun Hr.
  assert (live st.2 (StackSlab 0, 2)) as Hlive.
  { vm_compute in Hrun. injection Hrun as <-. refine (bool_decide_unpack _ _). vm_compute. exact I. }
  destruct (deallocate_frees_one 4 12 24 0 (mk_pool 0 0 0 0) ltac:(lia) ltac:(lia) false st
              (StackSlab 0, 2) 1 Hr Hlive) as (st' & H).
  exists st, st'. split; [reflexivity|]. split; [exact Hlive|]. exact H.
Defined.

Lemma allocations_without_request_witness :
  ∃ st st',
    run_ctor 4 12 24 0 (mk_pool 0 0 0 0) [Allocate; Allocate; Reserve 9] = Some st ∧
    freeSlotCount st.2 = 9 ∧
    run 12 24 (replicate 9 Allocate) st = Some st' ∧
    brk st'.1 = brk st.1 ∧ slabs st'.1 = slabs st.1 ∧
    allocated_items st'.1 = allocated_items st.1 ∧
    freeSlotCount st'.2 = freeSlotCount st.2 - 9 ∧
    inuse_items st'.1 = inuse_items st.1 + 9 ∧
    (∀ sp, is_Some (store st'.2 !! sp) ↔ is_Some (store st.2 !! sp)).
Proof.
  reach_by true [Allocate; Allocate; Reserve 9] st Hrun Hr.
  assert (freeSlotCount st.2 = 9) as Hfc.
  { vm_compute in Hrun. injection Hrun as <-. reflexivity. }
  destruct (allocations_without_request 4 12 24 0 (mk_pool 0 0 0 0) ltac:(lia) ltac:(lia)
              true st 9 Hr) as (st' & H).
  - vm_compute in Hrun. injection Hrun as <-. vm_compute. reflexivity.
  - rewrite Hfc. lia.
  - exists st, st'. split; [reflexivity|]. split; [exact Hfc|]. exact H.
Defined.

Lemma unused_bound_without_reserve_witness :
  ∃ st,
    run_ctor 4 12 24 0 (mk_pool 0 0 0 0)
      [Allocate; Allocate; Allocate; Allocate; Allocate; Deallocate (StackSlab 0, 1)] = Some st ∧
    Z.of_nat (size (store st.2)) ≤ 1 + Z.of_nat (length (live_slots st.2)) ∧
    freeSlotCount st.2 ≤ 4 + Z.of_nat (length (live_slots st.2)) * (12 - 1).
Proof.
  reach_by false [Allocate; Allocate; Allocate; Allocate; Allocate;
                  Deallocate (StackSlab 0, 1)] st Hrun Hr.
  exists st. split; [reflexivity|].
  exact (unused_bound_without_reserve 4 12 24 0 (mk_pool 0 0 0 0) ltac:(lia) ltac:(lia) st Hr).
Defined.

Lemma dtor_after_clear_witness :
  ∃ st st' p',
    run_ctor 4 12 24 0 (mk_pool 0 0 0 0)
      [Allocate; Allocate; Allocate; Allocate; Allocate; Allocate;
       Deallocate (StackSlab 0, 1)] = Some st ∧
    clear_nodes (live_slots st.2) st = Some st' ∧
    slab_allocator_dtor 4 st' = Some p' ∧
    allocated_items p' = 0 ∧ free_items p' = 0 ∧ slabs p' = 0.
Proof.
  reach_by false [Allocate; Allocate; Allocate; Allocate; Allocate; Allocate;
                  Deallocate (StackSlab 0, 1)] st Hrun Hr.
  destruct (dtor_after_clear 4 12 24 0 (mk_pool 0 0 0 0) ltac:(lia) ltac:(lia) st
              (live_slots st.2) ltac:(lia) Hr (NoDup_live_slots st.2)
              (λ q, elem_of_live_slots st.2 q))
    as (st' & p' & H).
  exists st, st', p'. split; [reflexivity|]. exact H.
Defined.

Lemma dtor_after_reserve_fails_witness :
  ∃ st st',
    slab_allocator_ctor 4 24 0 (mk_pool 0 0 0 0) = Some st ∧
    freeSlotCount st.2 < 9 ∧
    reserve 9 st = Some st' ∧
    head (freeSlabHeads st'.2) = Some (HeapSlab (brk st.1)) ∧
    slab_allocator_dtor 4 st' = None.
Proof.
  reach_by true (@nil op) st Hrun Hr.
  assert (freeSlotCount st.2 < 9) as Hfc.
  { vm_compute in Hrun. injection Hrun as <-. reflexivity. }
  destruct (dtor_after_reserve_fails 4 12 24 0 (mk_pool 0 0 0 0) ltac:(lia) ltac:(lia)
              st 9 Hr ltac:(lia)) as (st' & H).
  - vm_compute in Hrun. injection Hrun as <-. vm_compute. reflexivity.
  - exact Hfc.
  - exists st, st'. split.
    { vm_compute in Hrun. injection Hrun as <-. vm_compute. reflexivity. }
    split; [exact Hfc|]. exact H.
Defined.

Lemma dtor_without_inline_slots_witness :
  ∃ st,
    run_ctor 0 12 24 0 (mk_pool 0 0 0 0) [Allocate; Deallocate (HeapSlab 0, 11)] = Some st ∧
    (∀ q, ¬ live st.2 q) ∧
    slab_allocator_dtor 0 st = None.
Proof.
  destruct (run_ctor 0 12 24 0 (mk_pool 0 0 0 0) [Allocate; Deallocate (HeapSlab 0, 11)])
    as [st|] eqn:Hrun; [|vm_compute in Hrun; discriminate Hrun].
  exists st. split; [reflexivity|]. split.
  - intros q Hq. apply elem_of_live_slots in Hq.
    vm_compute in Hrun. injection Hrun as <-. vm_compute in Hq. by apply elem_of_nil in Hq.
  - apply (dtor_without_inline_slots 12 24 0 (mk_pool 0 0 0 0) false st ltac:(lia)).
    apply (run_ctor_reachable 0 12 24 0 (mk_pool 0 0 0 0) false
             [Allocate; Deallocate (HeapSlab 0, 11)]); [|exact Hrun].
    intros _. repeat constructor.
Defined.

Lemma defaultHS_fills_slab_witness :
  1 ≤ _defaultHS 4 2 ≤ 256 ∧
  _nodeSize 4 2 = 4 + 2 * 8 ∧
  (4 + 2 * 8 ≤ 256 →
     _defaultHS 4 2 * (4 + 2 * 8) ≤ 256 < (_defaultHS 4 2 + 1) * (4 + 2 * 8)) ∧
  (256 < 4 + 2 * 8 → _defaultHS 4 2 = 1).
Proof. apply (defaultHS_fills_slab 4 2); lia. Defined.

(** ** The list *)

Section clear_total.

Variables (stackSize sizeof_T : Z).

Lemma clear_nodes_total ns : ∀ st st',
  Inv stackSize sizeof_T st → NoDup ns → (∀ q, q ∈ ns → live st.2 q) →
  clear_nodes ns st = Some st' →
  total_slots (store st'.2) ≤ total_slots (store st.2).
Proof.
  induction ns as [|q ns IH]; intros [p a] st' HInv Hnd Hl Hc; cbn [clear_nodes] in Hc.
  - by injection Hc as <-.
  - apply NoDup_cons in Hnd as [Hq Hnd].
    assert (live a q) as Hlq by (apply Hl; by left).
    destruct (deallocate_spec stackSize sizeof_T p a q 1 HInv Hlq)
      as (p1 & a1 & sl & Hd & _ & HInv1 & _ & _ & Hl1 & _).
    pose proof (deallocate_total stackSize sizeof_T p a q 1 p1 a1 HInv Hlq Hd) as Ht.
    rewrite Hd in Hc. cbn [mbind option_bind] in Hc.
    specialize (IH (p1, a1) st' HInv1 Hnd). cbn [fst snd] in *.
    etrans; [apply IH|done]; [|done].
    intros x Hx. apply Hl1. split; [apply Hl; by right|]. intros ->. done.
Qed.

End clear_total.

Section list_more.

Context {node : Type}.
Variables (stackCount heapCount sizeof_T : Z).
Hypothesis heapCount_range : 1 ≤ heapCount < 2 ^ 32.

Implicit Types (ns : list (slot_ptr * node)) (l : slab_list node).

Local Abbreviation list_ok := (list_ok (node := node) stackCount sizeof_T).

Lemma erase_total q p l p' l' r :
  list_ok p l → erase (Some q) (p, l) = Some (p', l', r) →
  total_slots (store (alloc l')) ≤ total_slots (store (alloc l)).
Proof.
  intros (HInv & Hnd & Hl) He. unfold erase in He. cbn [mbind option_bind] in He.
  destruct (pos_of q (nodes l)) as [k|] eqn:Hpos; [|done]. cbn [mbind option_bind] in He.
  destruct (deallocate q 1 (p, alloc l)) as [[p1 a1]|] eqn:Hd; [|done].
  cbn [mbind option_bind] in He. injection He as <- <- <-. cbn [alloc].
  destruct (pos_of_Some q (nodes l) k Hpos) as (v & Hk & _).
  apply (deallocate_total stackCount sizeof_T p (alloc l) q 1 p1 a1 HInv); [|done].
  apply Hl. apply list_elem_of_fmap. exists (q, v). split; [done|].
  by eapply list_elem_of_lookup_2.
Qed.

Lemma clear_total p l p' l' :
  list_ok p l → clear (p, l) = Some (p', l') →
  total_slots (store (alloc l')) ≤ total_slots (store (alloc l)).
Proof.
  intros (HInv & Hnd & Hl) Hc. unfold clear in Hc.
  destruct (clear_nodes (nodes l).*1 (p, alloc l)) as [[p1 a1]|] eqn:Hcn; [|done].
  cbn [mbind option_bind] in Hc. injection Hc as <- <-. cbn [alloc].
  apply (clear_nodes_total stackCount sizeof_T (nodes l).*1 (p, alloc l) (p1, a1) HInv Hnd);
    [|done].
  intros q. apply Hl.
Qed.

(** [insert], and the iterator after the one it returns. *)
Lemma insert_next pos v p l k :
  list_ok p l → room (alloc l) heapCount → it_pos l pos = Some k →
  ∃ p' a' q,
    insert heapCount sizeof_T pos v (p, l) =
      Some (p', mk_list a' (take k (nodes l) ++ (q, v) :: drop k (nodes l)), Some q) ∧
    pos_of q (take k (nodes l) ++ (q, v) :: drop k (nodes l)) = Some k ∧
    next (mk_list a' (take k (nodes l) ++ (q, v) :: drop k (nodes l))) (Some q) = Some pos ∧
    list_ok p' (mk_list a' (take k (nodes l) ++ (q, v) :: drop k (nodes l))) ∧
    inuse_items p' = inuse_items p + 1 ∧ (brk p ≤ brk p')%nat.
Proof.
  intros Hok Hroom Hpos.
  pose proof (it_pos_le l pos k Hpos) as Hk.
  destruct (insert_spec stackCount heapCount sizeof_T heapCount_range pos v p l k Hok Hroom Hpos)
    as (p' & a' & q & Hins & Hok' & Hin & Hbrk & _).
  destruct (take_S_middle (nodes l) k (q, v) Hk) as (_ & _ & Hlk).
  assert (pos_of q (take k (nodes l) ++ (q, v) :: drop k (nodes l)) = Some k) as Hq.
  { apply (pos_of_lookup q v); [apply Hok'|done]. }
  exists p', a', q. split; [done|]. split; [done|]. split; [|done].
  unfold next. cbn [mbind option_bind nodes]. rewrite Hq. cbn [mbind option_bind]. f_equal.
  assert ((take k (nodes l) ++ (q, v) :: drop k (nodes l)) !! S k = nodes l !! k) as ->.
  { rewrite lookup_app_r by (rewrite length_take; lia).
    rewrite length_take, Nat.min_l by lia.
    replace (S k - k)%nat with 1%nat by lia. simpl. rewrite lookup_drop. f_equal. lia. }
  destruct pos as [q0|]; simpl in Hpos.
  - destruct (pos_of_Some q0 (nodes l) k Hpos) as (v0 & -> & _). done.
  - injection Hpos as <-. by rewrite lookup_ge_None_2.
Qed.

(** X10.  [insert(pos, v)] on a list, [pos] its [k]th position: the value
    stands at position [k] in a new node, the elements keep their order and
    their nodes, the iterator returned points to the new node and the one
    after it is [pos]; one more node is in use. *)
Theorem insert_before_pos pos v p l k :
  list_ok p l → room (alloc l) heapCount → it_pos l pos = Some k →
  ∃ p' l' q,
    insert heapCount sizeof_T pos v (p, l) = Some (p', l', Some q) ∧
    nodes l' = take k (nodes l) ++ (q, v) :: drop k (nodes l) ∧
    vals l' = take k (vals l) ++ v :: drop k (vals l) ∧
    deref l' (Some q) = Some v ∧ it_pos l' (Some q) = Some k ∧
    next l' (Some q) = Some pos ∧
    (q ∉ (nodes l).*1) ∧
    list_ok p' l' ∧ inuse_items p' = inuse_items p + 1.
Proof.
  intros Hok Hroom Hpos.
  pose proof (it_pos_le l pos k Hpos) as Hk.
  destruct (insert_next pos v p l k Hok Hroom Hpos)
    as (p' & a' & q & Hins & Hq & Hnext & Hok' & Hin & _).
  set (l' := mk_list a' (take k (nodes l) ++ (q, v) :: drop k (nodes l))) in *.
  destruct (take_S_middle (nodes l) k (q, v) Hk) as (_ & _ & Hlk).
  exists p', l', q. split; [done|]. split; [done|].
  split.
  { unfold vals. subst l'. cbn [nodes].
    by rewrite fmap_app, fmap_cons, fmap_take, fmap_drop. }
  split.
  { unfold deref. subst l'. cbn [mbind option_bind nodes]. rewrite Hq.
    cbn [mbind option_bind]. by rewrite Hlk. }
  split; [done|]. split; [done|]. split; [|done].
  destruct Hok' as (_ & Hnd' & _). subst l'. cbn [nodes] in Hnd'.
  rewrite middle_Permutation in Hnd'. simpl in Hnd'. by apply NoDup_cons in Hnd' as [? _].
Qed.

(** X11.  [erase(it)] of the [k]th node: the other elements keep their order
    and their nodes, the iterator returned points to the node that followed
    ([end()] after the last), the slot of the node is free again, and one
    node fewer is in use.  [erase(end())] fails. *)
Theorem erase_removes_node q p l k :
  list_ok p l → pos_of q (nodes l) = Some k →
  ∃ p' l',
    erase (Some q) (p, l) = Some (p', l', fst <$> nodes l !! S k) ∧
    nodes l' = take k (nodes l) ++ drop (S k) (nodes l) ∧
    vals l' = take k (vals l) ++ drop (S k) (vals l) ∧
    it_pos l' (fst <$> nodes l !! S k) = Some k ∧
    ¬ live (alloc l') q ∧
    list_ok p' l' ∧ inuse_items p' = inuse_items p - 1 ∧
    erase None (p, l) = None.
Proof.
  intros Hok Hpos.
  destruct (erase_spec stackCount sizeof_T q p l k Hok Hpos)
    as (p' & a' & Her & Hok' & Hin & _).
  set (l' := mk_list a' (take k (nodes l) ++ drop (S k) (nodes l))) in *.
  destruct (pos_of_Some q (nodes l) k Hpos) as (v & Hk & _).
  pose proof (lookup_lt_Some _ _ _ Hk) as Hlt.
  assert (length (take k (nodes l)) = k) as Hlen by (rewrite length_take; lia).
  exists p', l'. split; [done|]. split; [done|].
  split; [unfold vals; subst l'; cbn [nodes]; by rewrite fmap_app, fmap_take, fmap_drop|].
  split.
  { assert (nodes l !! S k = nodes l' !! k) as ->.
    { subst l'. cbn [nodes]. rewrite lookup_app_r by lia.
      rewrite Hlen, Nat.sub_diag, lookup_drop. f_equal. lia. }
    apply it_pos_lookup; [apply Hok'|]. subst l'. cbn [nodes].
    rewrite length_app, length_drop. lia. }
  split; [|done].
  destruct Hok as (_ & Hnd & _). destruct Hok' as (_ & _ & Hl').
  rewrite <- Hl'. subst l'. cbn [nodes].
  rewrite (nodes_split (nodes l) k q v Hk) in Hnd.
  rewrite fmap_app, fmap_cons in Hnd. apply NoDup_app in Hnd as (_ & Hdis & Hnd).
  apply NoDup_cons in Hnd as [Hq _]. cbn [fst] in *.
  rewrite fmap_app, elem_of_app. intros [Hin1|Hin2]; [|done].
  apply (Hdis q Hin1). by left.
Qed.

Lemma swap_loop_moves nb : ∀ fuel p dst src,
  nodes src = nb → (length nb ≤ fuel)%nat →
  list_ok p dst → list_ok p src →
  total_slots (store (alloc dst)) + Z.of_nat (length nb) * heapCount < 2 ^ 64 →
  ∃ tr p' dst' src' tail,
    swap_loop heapCount sizeof_T fuel (begin src) None (p, dst, src)
      = Some (tr, (p', dst', src')) ∧
    nodes src' = [] ∧ nodes dst' = nodes dst ++ tail ∧ tail.*2 = vals src ∧
    list_ok p' dst' ∧ list_ok p' src' ∧
    inuse_items p' = inuse_items p ∧ (brk p ≤ brk p')%nat ∧
    total_slots (store (alloc src')) ≤ total_slots (store (alloc src)) ∧
    total_slots (store (alloc dst'))
      ≤ total_slots (store (alloc dst)) + Z.of_nat (length nb) * heapCount.
Proof.
  induction nb as [|[q v] nb IH]; intros fuel p dst src Hsrc Hfuel Hd Hs Hroom.
  - exists [], p, dst, src, []. unfold begin, vals. rewrite Hsrc. simpl.
    rewrite swap_loop_done. rewrite app_nil_r.
    do 9 (split; [first [done|lia]|]). simpl. lia.
  - destruct fuel as [|fuel]; [simpl in Hfuel; lia|].
    assert (0 ≤ Z.of_nat (length nb) * heapCount) as Hnn
      by (apply Z.mul_nonneg_nonneg; lia).
    assert (Z.of_nat (length ((q, v) :: nb)) * heapCount
            = Z.of_nat (length nb) * heapCount + heapCount) as HSn by (simpl length; lia).
    rewrite HSn in Hroom. rewrite HSn.
    destruct (push_back_spec stackCount heapCount sizeof_T heapCount_range v p dst Hd)
      as (p1 & dst1 & q1 & Hpb & Hd1 & Hn1 & Hin1 & Hbrk1 & Htot1); [unfold room; lia|].
    assert (pos_of q (nodes src) = Some O) as Hq.
    { rewrite Hsrc. simpl. by rewrite decide_True. }
    pose proof (list_ok_mono stackCount sizeof_T p p1 src Hs Hbrk1) as Hs1'.
    destruct (erase_spec stackCount sizeof_T q p1 src O Hs1' Hq)
      as (p2 & a2 & Her & Hs1 & Hin2 & Hbrk2).
    pose proof (erase_total q p1 src _ _ _ Hs1' Her) as Htot2. cbn [alloc] in Htot2.
    rewrite Hsrc in Her, Hs1. cbn [take drop app lookup list_lookup] in Her, Hs1.
    set (src1 := mk_list a2 nb) in *.
    destruct (IH fuel p2 dst1 src1)
      as (tr & p' & dst' & src' & tail & Hloop & Hns' & Hnd' & Htail & Hd' & Hs' & Hin'
          & Hbrk' & Hts & Htd);
      [done|simpl in Hfuel; lia|by eapply list_ok_mono|done|lia|].
    exists ((p1, dst1, src) :: (p2, dst1, src1) :: tr), p', dst', src', ((q1, v) :: tail).
    split.
    { assert (begin src = Some q) as Hbeg by (unfold begin; by rewrite Hsrc).
      cbn [swap_loop]. rewrite Hbeg. rewrite decide_False by done.
      unfold deref. cbn [mbind option_bind]. rewrite Hq. cbn [mbind option_bind].
      rewrite Hsrc. cbn [lookup list_lookup fmap option_fmap option_map snd mbind option_bind].
      rewrite Hpb. cbn [mbind option_bind]. rewrite Her. cbn [mbind option_bind].
      unfold begin in Hloop. subst src1. cbn [nodes] in Hloop.
      match goal with
      | |- context [swap_loop ?x1 ?x2 ?x3 ?x4 ?x5 ?x6] =>
          assert (swap_loop x1 x2 x3 x4 x5 x6 = Some (tr, (p', dst', src'))) as ->
            by (clear -Hloop; destruct nb; exact Hloop)
      end.
      done. }
    split; [done|].
    split; [rewrite Hnd', Hn1; by rewrite <- app_assoc|].
    split; [unfold vals in *; subst src1; cbn [nodes] in Htail; rewrite Hsrc, !fmap_cons;
            cbn [snd]; by rewrite Htail|].
    split; [done|]. split; [done|]. split; [lia|]. split; [lia|].
    subst src1. cbn [alloc] in *. split; lia.
Qed.

(** [c.swap(b)] with [c] empty. *)
Lemma swap_of_empty p (c b : slab_list node) :
  list_ok p c → list_ok p b → nodes c = [] →
  total_slots (store (alloc c)) + Z.of_nat (length (nodes b)) * heapCount < 2 ^ 64 →
  ∃ p' c' b',
    swap heapCount sizeof_T (p, c, b) = Some (p', c', b') ∧
    nodes b' = [] ∧ vals c' = vals b ∧ list_ok p' c' ∧ list_ok p' b' ∧
    inuse_items p' = inuse_items p ∧ (brk p ≤ brk p')%nat ∧
    total_slots (store (alloc b')) ≤ total_slots (store (alloc b)) ∧
    total_slots (store (alloc c'))
      ≤ total_slots (store (alloc c)) + Z.of_nat (length (nodes b)) * heapCount.
Proof.
  intros Hc Hb Hnc Hroom.
  destruct (swap_loop_moves (nodes b) (length (nodes b)) p c b)
    as (tr1 & p1 & c1 & b1 & tail1 & Hloop1 & Hnb1 & Hnc1 & Htail1 & Hc1 & Hb1 & Hin1
        & Hbrk1 & Htb1 & Htc1); [done..|].
  exists p1, c1, b1. split.
  { unfold swap, swap_run. rewrite Hloop1. cbn [mbind option_bind].
    unfold begin at 1. rewrite Hnc. cbn [head fmap option_fmap option_map].
    rewrite swap_loop_done. reflexivity. }
  split; [done|]. split; [|done].
  unfold vals in *. rewrite Hnc1, Hnc. simpl. by rewrite Htail1.
Qed.

(** X12.  [c.swap(b)]: the nodes of [b] are moved to the end of [c], then
    the nodes of [c] from its former first node on are moved to [b].  When
    [c] was empty this exchanges the contents; when [c] had elements, its
    second loop runs over the moved nodes too: [c] ends empty and [b] holds
    the elements of [c] followed by those of [b]. *)
Theorem swap_contents p (c b : slab_list node) :
  list_ok p c → list_ok p b →
  total_slots (store (alloc c)) + Z.of_nat (length (nodes b)) * heapCount < 2 ^ 64 →
  total_slots (store (alloc b))
    + Z.of_nat (length (nodes c) + length (nodes b)) * heapCount < 2 ^ 64 →
  ∃ p' c' b',
    swap heapCount sizeof_T (p, c, b) = Some (p', c', b') ∧
    (nodes c = [] → vals c' = vals b ∧ vals b' = []) ∧
    (nodes c ≠ [] → vals c' = [] ∧ vals b' = vals c ++ vals b) ∧
    inuse_items p' = inuse_items p ∧ list_ok p' c' ∧ list_ok p' b'.
Proof.
  intros Hc Hb Hroom1 Hroom2.
  destruct (swap_loop_moves (nodes b) (length (nodes b)) p c b)
    as (tr1 & p1 & c1 & b1 & tail1 & Hloop1 & Hnb1 & Hnc1 & Htail1 & Hc1 & Hb1 & Hin1
        & Hbrk1 & Htb1 & Htc1); [done..|].
  assert (length tail1 = length (nodes b)) as Hlen1.
  { apply (f_equal length) in Htail1. unfold vals in Htail1.
    by rewrite !length_fmap in Htail1. }
  destruct (nodes c) as [|x nc] eqn:Hnc.
  - (* [*this] was empty: the second loop does not run *)
    exists p1, c1, b1. split.
    { unfold swap, swap_run. rewrite Hloop1. cbn [mbind option_bind].
      unfold begin at 1. rewrite Hnc. cbn [head fmap option_fmap option_map].
      rewrite swap_loop_done. cbn [mbind option_bind fmap list_fmap option_fmap option_map].
      done. }
    split.
    { intros _. unfold vals in *. rewrite Hnc1, Hnb1. simpl. by rewrite Htail1. }
    split; [done|]. done.
  - destruct (swap_loop_moves (nodes c1) (length (nodes c1)) p1 b1 c1)
      as (tr2 & p2 & b2 & c2 & tail2 & Hloop2 & Hnc2 & Hnb2 & Htail2 & Hb2 & Hc2 & Hin2 & _);
      [done..| |].
    { rewrite Hnc1, length_app, Hlen1. cbn [length] in *. lia. }
    exists p2, c2, b2. split.
    { unfold swap, swap_run. rewrite Hloop1. cbn [mbind option_bind].
      assert (begin c = begin c1) as ->.
      { unfold begin. rewrite Hnc1, Hnc. done. }
      rewrite Hloop2. reflexivity. }
    split; [intros [=]|]. split; [|split; [lia|done]].
    intros _. unfold vals in *. rewrite Hnc2, Hnb2, Hnb1, Hnc. cbn [app].
    rewrite Htail2, Hnc1, fmap_app, Htail1. done.
Qed.

(** The loop of [copy], with [this] and [o] two lists: [k] nodes of [o] have
    been copied. *)
Lemma copy_loop_spec this o (src : slab_list node) rest : ∀ k fuel p objs dst,
  this ≠ o → objs !! o = Some src → objs !! this = Some dst →
  drop k (nodes src) = rest → NoDup (nodes src).*1 → (length rest ≤ fuel)%nat →
  list_ok p dst →
  total_slots (store (alloc dst)) + Z.of_nat (length rest) * heapCount < 2 ^ 64 →
  ∃ p' dst',
    copy_loop heapCount sizeof_T fuel this o (fst <$> nodes src !! k) (p, objs)
      = Some (p', <[this := dst']> objs) ∧
    vals dst' = vals dst ++ rest.*2 ∧ list_ok p' dst' ∧
    inuse_items p' = inuse_items p + Z.of_nat (length rest) ∧ (brk p ≤ brk p')%nat.
Proof.
  induction rest as [|[q v] rest IH];
    intros k fuel p objs dst Hne Ho Ht Hdrop Hnd Hfuel Hd Hroom.
  - exists p, dst. assert (nodes src !! k = None) as ->.
    { apply lookup_ge_None. apply (f_equal length) in Hdrop.
      rewrite length_drop in Hdrop. simpl in Hdrop. lia. }
    destruct fuel; cbn [copy_loop fmap option_fmap option_map];
      rewrite insert_id by done; rewrite app_nil_r;
      (do 4 (split; [first [done|simpl; lia]|])); lia.
  - destruct fuel as [|fuel]; [simpl in Hfuel; lia|].
    assert (0 ≤ Z.of_nat (length rest) * heapCount) as Hnn
      by (apply Z.mul_nonneg_nonneg; lia).
    assert (Z.of_nat (length ((q, v) :: rest)) * heapCount
            = Z.of_nat (length rest) * heapCount + heapCount) as HSn by (simpl length; lia).
    rewrite HSn in Hroom.
    assert (nodes src !! k = Some (q, v)) as Hk.
    { pose proof (lookup_drop (nodes src) k 0) as H0.
      rewrite Hdrop, Nat.add_0_r in H0. done. }
    assert (drop (S k) (nodes src) = rest) as Hdrop'.
    { replace (S k) with (k + 1)%nat by lia. rewrite <- drop_drop, Hdrop. done. }
    pose proof (pos_of_lookup q v (nodes src) k Hnd Hk) as Hq.
    destruct (push_back_spec stackCount heapCount sizeof_T heapCount_range v p dst Hd)
      as (p1 & dst1 & q1 & Hpb & Hd1 & Hn1 & Hin1 & Hbrk1 & Htot1); [unfold room; lia|].
    destruct (IH (S k) fuel p1 (<[this := dst1]> objs) dst1)
      as (p' & dst' & Hloop & Hvals & Hd' & Hin' & Hbrk');
      [done|by rewrite lookup_insert_ne|apply lookup_insert_eq|done|done|
       simpl in Hfuel; lia|done|lia|].
    exists p', dst'. split.
    { rewrite Hk. cbn [copy_loop fmap option_fmap option_map fst snd].
      rewrite Ho. cbn [mbind option_bind].
      unfold deref. cbn [mbind option_bind]. rewrite Hq. cbn [mbind option_bind].
      rewrite Hk. cbn [fmap option_fmap option_map snd mbind option_bind].
      rewrite Ht. cbn [mbind option_bind]. rewrite Hpb. cbn [mbind option_bind].
      rewrite lookup_insert_ne by done. rewrite Ho. cbn [mbind option_bind].
      unfold next. cbn [mbind option_bind]. rewrite Hq. cbn [mbind option_bind].
      rewrite Hloop. by rewrite insert_insert_eq. }
    split.
    { rewrite Hvals. unfold vals. rewrite Hn1, fmap_app. simpl. by rewrite <- app_assoc. }
    split; [done|]. split; [simpl length; lia|lia].
Qed.

(** X13.  [this = o] for two lists: afterwards [this] holds the elements of
    [o], in their order, in nodes of its own allocator; [o] is as before. *)
Theorem assign_copies this o p objs (dst src : slab_list node) :
  this ≠ o → objs !! this = Some dst → objs !! o = Some src →
  list_ok p dst → list_ok p src →
  total_slots (store (alloc dst)) + Z.of_nat (length (nodes src)) * heapCount < 2 ^ 64 →
  ∃ p' dst',
    slab_list_assign heapCount sizeof_T this o (p, objs) = Some (p', <[this := dst']> objs) ∧
    vals dst' = vals src ∧
    list_ok p' dst' ∧ list_ok p' src ∧
    inuse_items p'
      = inuse_items p - Z.of_nat (length (nodes dst)) + Z.of_nat (length (nodes src)).
Proof.
  intros Hne Ht Ho Hd Hs Hroom.
  destruct (clear_spec stackCount sizeof_T p dst Hd) as (p1 & a1 & Hcl & Hd1 & Hin1 & Hbrk1).
  pose proof (clear_total p dst _ _ Hd Hcl) as Htot1. cbn [alloc] in Htot1.
  destruct (copy_loop_spec this o src (nodes src) 0 (length (nodes src)) p1
              (<[this := mk_list a1 []]> objs) (mk_list a1 []))
    as (p' & dst' & Hloop & Hvals & Hd' & Hin' & Hbrk');
    [done|by rewrite lookup_insert_ne|apply lookup_insert_eq|done|apply Hs|done|done|
     cbn [alloc]; lia|].
  exists p', dst'. split.
  { unfold slab_list_assign, copy. cbn [fst snd]. rewrite Ht. cbn [mbind option_bind].
    rewrite Hcl. cbn [mbind option_bind]. rewrite lookup_insert_ne by done.
    rewrite Ho. cbn [mbind option_bind].
    unfold begin. rewrite head_lookup. rewrite Hloop. by rewrite insert_insert_eq. }
  split; [by rewrite Hvals|]. split; [done|].
  split; [apply (list_ok_mono stackCount sizeof_T p p' src Hs); lia|lia].
Qed.

(** X14.  [c.splice(pos, b, it)] moves the one element at [it] in front of
    [pos]; with [it == b.end()] nothing happens. *)
Theorem splice_one pos i p (c b : slab_list node) k j :
  list_ok p c → list_ok p b → it_pos c pos = Some k → pos_of i (nodes b) = Some j →
  room (alloc c) heapCount →
  ∃ p' c' b' v,
    splice3 heapCount sizeof_T pos (Some i) (p, c, b) = Some (p', c', b') ∧
    vals b !! j = Some v ∧
    vals c' = take k (vals c) ++ v :: drop k (vals c) ∧
    vals b' = take j (vals b) ++ drop (S j) (vals b) ∧
    inuse_items p' = inuse_items p ∧ list_ok p' c' ∧ list_ok p' b' ∧
    splice3 heapCount sizeof_T pos None (p, c, b) = Some (p, c, b).
Proof.
  intros Hc Hb Hpos Hi Hroom.
  destruct (pos_of_Some i (nodes b) j Hi) as (v & Hj & _).
  pose proof (lookup_lt_Some _ _ _ Hj) as Hlt.
  destruct (insert_next pos v p c k Hc Hroom Hpos)
    as (p1 & a1 & q1 & Hins & _ & Hnext & Hc1 & Hin1 & Hbrk1).
  set (c1 := mk_list a1 (take k (nodes c) ++ (q1, v) :: drop k (nodes c))) in *.
  assert (vals c1 = take k (vals c) ++ v :: drop k (vals c)) as Hv1.
  { unfold vals. subst c1. cbn [nodes].
    by rewrite fmap_app, fmap_cons, fmap_take, fmap_drop. }
  pose proof (list_ok_mono stackCount sizeof_T p p1 b Hb Hbrk1) as Hb1.
  destruct (erase_spec stackCount sizeof_T i p1 b j Hb1 Hi)
    as (p2 & a2 & Her & Hb2 & Hin2 & Hbrk2).
  set (b2 := mk_list a2 (take j (nodes b) ++ drop (S j) (nodes b))) in *.
  assert (vals b2 = take j (vals b) ++ drop (S j) (vals b)) as Hv2.
  { unfold vals. subst b2. cbn [nodes]. by rewrite fmap_app, fmap_take, fmap_drop. }
  assert (Some i ≠ fst <$> nodes b !! S j) as Hne.
  { destruct (nodes b !! S j) as [[i' v']|] eqn:HS; [|done]. simpl. intros [= <-].
    destruct Hb as (_ & Hnd & _).
    pose proof (pos_of_lookup i v' (nodes b) (S j) Hnd HS) as Hi'. rewrite Hi in Hi'.
    injection Hi'. lia. }
  exists p2, c1, b2, v. split.
  { unfold splice3. rewrite decide_False by done. unfold next at 1. cbn [snd].
    cbn [mbind option_bind]. rewrite Hi. cbn [mbind option_bind].
    unfold splice4. cbn [snd].
    destruct (length (nodes b)) as [|fuel] eqn:Hlen; [lia|].
    cbn [splice_loop]. rewrite decide_False by done.
    unfold deref. cbn [mbind option_bind]. rewrite Hi. cbn [mbind option_bind].
    rewrite Hj. cbn [fmap option_fmap option_map snd mbind option_bind].
    rewrite Hins. cbn [mbind option_bind]. rewrite Hnext. cbn [mbind option_bind].
    rewrite Her. cbn [mbind option_bind]. apply splice_loop_done. }
  split; [unfold vals; by rewrite list_lookup_fmap, Hj|].
  split; [done|]. split; [done|]. split; [lia|].
  split; [by apply (list_ok_mono stackCount sizeof_T p1 p2 c1 Hc1)|split; [done|]].
  unfold splice3. rewrite decide_True by done. cbn [mbind option_bind].
  unfold splice4. apply splice_loop_done.
Qed.

End list_more.

Section list_reserve.

Context {node : Type}.
Variables (stackCount heapCount sizeof_T : Z).

Local Abbreviation list_ok := (list_ok (node := node) stackCount sizeof_T).

(** [reserve] of a list: the check of [get_my_actual_allocator] passes, the
    nodes stay, and one slab brings the free slots to [n]. *)
Lemma slab_list_reserve_spec this n p (l : slab_list node) :
  list_ok p l → selfPointer (alloc l) = this → 0 ≤ n < 2 ^ 32 → room (alloc l) n →
  ∃ p' l',
    slab_list_reserve this n (p, l) = Some (p', l') ∧
    nodes l' = nodes l ∧ list_ok p' l' ∧ selfPointer (alloc l') = this ∧
    freeSlotCount (alloc l') = Z.max n (freeSlotCount (alloc l)) ∧
    allocated_items p' = allocated_items p + Z.max 0 (n - freeSlotCount (alloc l)) ∧
    free_items p' = free_items p + Z.max 0 (n - freeSlotCount (alloc l)) ∧
    slabs p' = slabs p + (if decide (freeSlotCount (alloc l) < n) then 1 else 0) ∧
    (brk p ≤ brk p')%nat.
Proof.
  intros (HInv & Hnd & Hl) Hself Hn Hroom.
  pose proof HInv as (HI & Hfr & HS). cbn [fst snd] in *.
  destruct (reserve_spec stackCount sizeof_T p (alloc l) n HInv Hn Hroom)
    as (p' & a' & Hres & HInv' & (Hsp & _ & _ & Hbrk) & _ & Hl' & _).
  cbn [fst snd] in *.
  exists p', (mk_list a' (nodes l)). split.
  { unfold slab_list_reserve, get_my_actual_allocator, selfCheck. cbn [fst snd].
    rewrite option_guard_True by done. cbn [mbind option_bind].
    rewrite Hres. done. }
  split; [done|]. split.
  { split; [done|]. split; [done|]. intros q. cbn [nodes alloc]. by rewrite Hl', Hl. }
  split; [cbn [alloc]; congruence|]. cbn [alloc].
  pose proof (sum_free_nonneg (alloc l) HI) as Hnn. rewrite <- (inv_count _ HI) in Hnn.
  unfold reserve, _reserve in Hres. cbn [snd] in Hres.
  destruct (decide (freeSlotCount (alloc l) < n)) as [Hlt|Hge].
  - rewrite wrap64_id in Hres by lia.
    rewrite (addSlab_eq p (alloc l) (n - freeSlotCount (alloc l)) HI Hfr) in Hres
      by (unfold room in Hroom; lia).
    injection Hres as <- <-. cbn [freeSlotCount allocated_items free_items slabs brk].
    repeat split; lia.
  - injection Hres as <- <-. repeat split; lia.
Qed.

End list_reserve.

(** X15.  The start of the second loop of the test [list_context], for any
    [i]: after [b.reserve(i)] and [c.reserve(i)] on two new lists of four
    inline slots no item is in use, the pool counts [2 * max(i, 4)] items,
    at least [2 * i], and two slabs for every list that had to add one, one
    otherwise. *)
Theorem list_context_reserve_spec (i : nat) :
  Z.of_nat i < 2 ^ 32 →
  ∃ p b c,
    list_context_reserve i = Some (p, b, c) ∧
    inuse_items p = 0 ∧
    allocated_items p = 2 * Z.max (Z.of_nat i) 4 ∧ 2 * Z.of_nat i ≤ allocated_items p ∧
    slabs p = 2 * (if decide (4 < Z.of_nat i) then 2 else 1) ∧
    freeSlotCount (alloc b) = Z.max (Z.of_nat i) 4 ∧
    freeSlotCount (alloc c) = Z.max (Z.of_nat i) 4 ∧
    nodes b = [] ∧ nodes c = [] ∧ list_ok 4 24 p b ∧ list_ok 4 24 p c.
Proof.
  intros Hi. unfold list_context_reserve.
  destruct (slab_list_ctor (node := Z) 4 24 100 (mk_pool 0 0 0 0)) as [[p1 b0]|] eqn:Hb0;
    [|unfold slab_list_ctor in Hb0; rewrite ctor_eq in Hb0 by lia; done].
  cbn [mbind option_bind].
  destruct (slab_list_ctor (node := Z) 4 24 200 p1) as [[p2 c0]|] eqn:Hc0;
    [|unfold slab_list_ctor in Hc0; rewrite ctor_eq in Hc0 by lia; done].
  cbn [mbind option_bind].
  destruct (slab_list_ctor_spec 4 24 ltac:(lia) 100 _ _ _ Hb0) as (Hbok & Hbn & _ & Hbrk1 & Hbt).
  destruct (slab_list_ctor_spec 4 24 ltac:(lia) 200 _ _ _ Hc0) as (Hcok & Hcn & _ & Hbrk2 & Hct).
  unfold slab_list_ctor in Hb0, Hc0. rewrite ctor_eq in Hb0, Hc0 by lia.
  cbn [mbind option_bind] in Hb0, Hc0.
  injection Hb0 as <- <-. injection Hc0 as <- <-.
  cbn [allocated_items free_items slabs brk] in *.
  set (p2 := mk_pool (0 + 4 + 4) (0 + 4 + 4) (0 + 1 + 1) 0) in *.
  match type of Hbok with list_ok _ _ _ ?b => set (b0 := b) in * end.
  match type of Hcok with list_ok _ _ _ ?c => set (c0 := c) in * end.
  destruct (slab_list_reserve_spec 4 24 100 (Z.of_nat i) p2 b0)
    as (p3 & b1 & Hrb & Hbn1 & Hbok1 & _ & Hbf & Hal3 & Hfr3 & Hsl3 & Hbrk3);
    [apply (list_ok_mono 4 24 _ p2 b0 Hbok); simpl; lia|done|lia|
     unfold room; rewrite Hbt; lia|].
  rewrite Hrb. cbn [mbind option_bind].
  destruct (slab_list_reserve_spec 4 24 200 (Z.of_nat i) p3 c0)
    as (p4 & c1 & Hrc & Hcn1 & Hcok1 & _ & Hcf & Hal4 & Hfr4 & Hsl4 & Hbrk4);
    [by apply (list_ok_mono 4 24 p2 p3 c0 Hcok)|done|lia|
     unfold room; rewrite Hct; lia|].
  rewrite Hrc. cbn [mbind option_bind].
  exists p4, b1, c1. split; [done|].
  assert (freeSlotCount (alloc b0) = 4) as Hfb by done.
  assert (freeSlotCount (alloc c0) = 4) as Hfc by done.
  rewrite Hfb in *. rewrite Hfc in *. subst p2. cbn [allocated_items free_items slabs] in *.
  unfold inuse_items.
  split; [lia|]. split; [lia|]. split; [lia|].
  split; [destruct (decide (4 < Z.of_nat i)); lia|].
  split; [lia|]. split; [lia|]. split; [congruence|]. split; [congruence|].
  split; [by apply (list_ok_mono 4 24 p3 p4 b1 Hbok1)|done].
Qed.

Lemma eq_elements_vals (a : list Z) (b : slab_list Z) :
  vals b = a → eq_elements a b = true.
Proof.
  intros <-. unfold eq_elements, vals. induction (nodes b) as [|[q v] ns IH]; [done|].
  rewrite fmap_cons. cbn [eq_elements_from snd]. by rewrite bool_decide_eq_true_2.
Qed.

Lemma vals_length {node} (l : slab_list node) : length (vals l) = length (nodes l).
Proof. unfold vals. by rewrite length_fmap. Qed.

(** X24. The first loop of the test [list_context], for any [i >= 1]: the
    six readings of [inuse_items()] are [i], [i], [i - 1], [0], [i] and [i],
    as the test expects, and every call of [eq_elements] finds the slab list
    equal to the standard list. *)
Theorem list_context_loop_spec (i : nat) :
  (1 ≤ i)%nat → 2 * Z.of_nat i < 2 ^ 31 →
  list_context_loop i
    = Some ([Z.of_nat i; Z.of_nat i; Z.of_nat i - 1; 0; Z.of_nat i; Z.of_nat i],
            [true; true; true; true; true]).
Proof.
  intros Hpos Hi. unfold list_context_loop. rewrite _defaultHS_int_list.
  set (pushed := (λ j, Z.of_nat i + j) <$> seqZ 0 (Z.of_nat i)).
  assert (length pushed = i) as Hlp.
  { unfold pushed. rewrite length_fmap, length_seqZ. lia. }
  assert (0 ≤ Z.of_nat i * 12) as Hnn by lia.
  (* the two lists *)
  destruct (slab_list_ctor (node := Z) 4 24 100 (mk_pool 0 0 0 0)) as [[p1 b0]|] eqn:Hb0;
    [|unfold slab_list_ctor in Hb0; rewrite ctor_eq in Hb0 by lia; done].
  cbn [mbind option_bind].
  destruct (slab_list_ctor (node := Z) 4 24 200 p1) as [[p2 c0]|] eqn:Hc0;
    [|unfold slab_list_ctor in Hc0; rewrite ctor_eq in Hc0 by lia; done].
  cbn [mbind option_bind].
  destruct (slab_list_ctor_spec 4 24 ltac:(lia) 100 _ _ _ Hb0)
    as (Hbok & Hbn & Hin1 & Hbrk1 & Hbt).
  destruct (slab_list_ctor_spec 4 24 ltac:(lia) 200 _ _ _ Hc0)
    as (Hcok & Hcn & Hin2 & Hbrk2 & Hct).
  assert (inuse_items p2 = 0) as Hin0 by (rewrite Hin2, Hin1; reflexivity).
  (* do_push_back(a, b, i, i) *)
  destruct (do_push_back_loop_spec 4 12 24 ltac:(lia) i 0 (Z.of_nat i) p2 b0)
    as (p3 & b1 & Hpb & Hb1 & Hv1 & Hin3 & Hbrk3 & Htot3);
    [apply (list_ok_mono 4 24 p1); [done|lia]|rewrite Hbt; lia|].
  unfold do_push_back. rewrite Hpb. cbn [mbind option_bind].
  assert (vals b1 = pushed) as Hvb1.
  { rewrite Hv1. unfold vals. rewrite Hbn. reflexivity. }
  assert (length (nodes b1) = i) as Hlb1 by (rewrite <- vals_length, Hvb1; exact Hlp).
  (* c.swap(b) *)
  destruct (swap_of_empty 4 12 24 ltac:(lia) p3 c0 b1)
    as (p4 & c1 & b2 & Hsw & Hnb2 & Hvc1 & Hc1 & Hb2 & Hin4 & Hbrk4 & Htb2 & Htc1);
    [by apply (list_ok_mono 4 24 p2)|done|done|rewrite Hct, Hlb1; lia|].
  rewrite Hsw. cbn [mbind option_bind].
  (* c.erase(c.begin()) *)
  assert (length (nodes c1) = i) as Hlc1 by (rewrite <- vals_length, Hvc1, Hvb1; exact Hlp).
  destruct (nodes c1) as [|[q v] nc] eqn:Hnc1; [simpl in Hlc1; lia|].
  assert (begin c1 = Some q) as Hbeg by (unfold begin; by rewrite Hnc1).
  assert (pos_of q (nodes c1) = Some 0%nat) as Hq.
  { rewrite Hnc1. simpl. by rewrite decide_True. }
  destruct (erase_spec 4 24 q p4 c1 0 Hc1 Hq) as (p5 & a5 & Her & Hc2 & Hin5 & Hbrk5).
  pose proof (erase_total 4 24 q p4 c1 _ _ _ Hc1 Her) as Htc2. cbn [alloc] in Htc2.
  rewrite Hnc1 in Her, Hc2. cbn [take drop app] in Her, Hc2.
  rewrite ?drop_0 in Her, Hc2.
  rewrite Hbeg, Her. cbn [mbind option_bind].
  set (c2 := mk_list a5 nc) in *.
  assert (vals c2 = drop 1 pushed) as Hvc2.
  { rewrite <- Hvb1, <- Hvc1. unfold vals. rewrite Hnc1. subst c2. reflexivity. }
  (* b.clear(); c.clear() *)
  destruct (clear_spec 4 24 p5 b2) as (p6 & a6 & Hcb & Hb3 & Hin6 & Hbrk6);
    [apply (list_ok_mono 4 24 p4); [done|lia]|].
  pose proof (clear_total 4 24 p5 b2 _ _
                (list_ok_mono 4 24 p4 p5 b2 Hb2 Hbrk5) Hcb) as Htb3.
  cbn [alloc] in Htb3.
  rewrite Hcb. cbn [mbind option_bind].
  destruct (clear_spec 4 24 p6 c2) as (p7 & a7 & Hcc & Hc3 & Hin7 & Hbrk7);
    [apply (list_ok_mono 4 24 p5); [done|lia]|].
  pose proof (clear_total 4 24 p6 c2 _ _
                (list_ok_mono 4 24 p5 p6 c2 Hc2 Hbrk6) Hcc) as Htc3.
  unfold c2 in Htc3. cbn [alloc] in Htc3. rewrite Hlb1 in Htc1.
  rewrite Hcc. cbn [mbind option_bind].
  assert (length nc = (i - 1)%nat) as Hlnc by (simpl in Hlc1; lia).
  (* do_push_back(a, b, i, i) *)
  destruct (do_push_back_loop_spec 4 12 24 ltac:(lia) i 0 (Z.of_nat i) p7 (mk_list a6 []))
    as (p8 & b4 & Hpb2 & Hb4 & Hv4 & Hin8 & Hbrk8 & Htot8);
    [apply (list_ok_mono 4 24 p6); [done|lia]|cbn [alloc]; lia|].
  rewrite Hpb2. cbn [mbind option_bind].
  assert (vals b4 = pushed) as Hvb4 by (rewrite Hv4; reflexivity).
  assert (length (nodes b4) = i) as Hlb4 by (rewrite <- vals_length, Hvb4; exact Hlp).
  (* c.splice(c.begin(), b, b.begin(), b.end()) *)
  destruct (splice_loop_spec 4 12 24 ltac:(lia) (nodes b4) (length (nodes b4)) None
              p8 (mk_list a7 []) b4 0)
    as (p9 & c4 & b5 & Hsp & Hnb5 & Hvc4 & Hc4 & Hb5 & Hin9);
    [done|done|apply (list_ok_mono 4 24 p7); [done|lia]|done|reflexivity|
     cbn [alloc]; rewrite Hlb4; lia|].
  unfold splice4. cbn [snd begin nodes head fmap option_fmap option_map] in *.
  rewrite Hsp. cbn [mbind option_bind].
  (* the readings *)
  unfold c2 in Hin7. cbn [nodes] in Hin7.
  rewrite Hnb2 in Hin6. rewrite Hlnc in Hin7. cbn [length] in *.
  f_equal. f_equal.
  - repeat f_equal; lia.
  - repeat match goal with |- _ :: _ = _ :: _ => f_equal end;
      apply eq_elements_vals; rewrite ?app_nil_l.
    + unfold vals. by rewrite Hbn.
    + exact Hvb1.
    + rewrite Hvc1. exact Hvb1.
    + exact Hvc2.
    + rewrite Hvc4. cbn [vals nodes fmap list_fmap take drop app]. by rewrite app_nil_r.
Qed.

Section list_copy_ctor.

Context {node : Type}.
Variables (stackCount heapCount sizeof_T : Z).
Hypothesis stackCount_range : 0 ≤ stackCount < 2 ^ 32.
Hypothesis heapCount_range : 1 ≤ heapCount < 2 ^ 32.

Local Abbreviation list_ok := (list_ok (node := node) stackCount sizeof_T).

(** X16.  The copy constructor: the new list at [this] holds the elements of
    [o], in their order and in nodes of its own allocator; [o] is as
    before. *)
Theorem copy_ctor_copies this o p objs (src : slab_list node) :
  this ≠ o → objs !! o = Some src → list_ok p src →
  stackCount + Z.of_nat (length (nodes src)) * heapCount < 2 ^ 64 →
  ∃ p' dst,
    slab_list_copy_ctor stackCount heapCount sizeof_T this o (p, objs)
      = Some (p', <[this := dst]> objs) ∧
    vals dst = vals src ∧
    list_ok p' dst ∧ list_ok p' src ∧
    inuse_items p' = inuse_items p + Z.of_nat (length (nodes src)).
Proof.
  intros Hne Ho Hs Hroom.
  destruct (slab_list_ctor (node := node) stackCount sizeof_T this p) as [[p1 l]|] eqn:Hc;
    [|unfold slab_list_ctor in Hc; rewrite ctor_eq in Hc by done; done].
  destruct (slab_list_ctor_spec stackCount sizeof_T stackCount_range this _ _ _ Hc)
    as (Hlok & Hln & Hin1 & Hbrk1 & Hlt).
  destruct (clear_spec stackCount sizeof_T p1 l Hlok) as (p2 & a2 & Hcl & Hok2 & Hin2 & Hbrk2).
  pose proof (clear_total stackCount sizeof_T p1 l _ _ Hlok Hcl) as Htot2. cbn [alloc] in Htot2.
  destruct (copy_loop_spec stackCount heapCount sizeof_T heapCount_range this o src
              (nodes src) 0 (length (nodes src)) p2
              (<[this := mk_list a2 []]> (<[this := l]> objs)) (mk_list a2 []))
    as (p' & dst' & Hloop & Hvals & Hd' & Hin' & Hbrk');
    [done|by rewrite !lookup_insert_ne|apply lookup_insert_eq|done|apply Hs|done|done|
     cbn [alloc]; lia|].
  exists p', dst'. split.
  { unfold slab_list_copy_ctor. cbn [fst snd]. rewrite Hc. cbn [mbind option_bind].
    unfold copy. cbn [fst snd]. rewrite lookup_insert_eq. cbn [mbind option_bind].
    rewrite Hcl. cbn [mbind option_bind]. rewrite !lookup_insert_ne by done.
    rewrite Ho. cbn [mbind option_bind].
    unfold begin. rewrite head_lookup. rewrite Hloop. by rewrite !insert_insert_eq. }
  split; [by rewrite Hvals|].
  split; [done|].
  split; [apply (list_ok_mono stackCount sizeof_T p p' src Hs); lia|].
  rewrite Hln in Hin2. simpl in Hin2. lia.
Qed.

End list_copy_ctor.

(** ** The vector *)

Section vector_facts.

Context {value : Type}.
Variables (stackCount sizeof_T : Z).
Hypothesis stackCount_range : 0 ≤ stackCount.

Implicit Types (v : slab_vector value) (p : pool_t).

Local Abbreviation vok := (vec_ok (value := value) stackCount).
Local Abbreviation vitems := (vec_items (value := value) stackCount).
Local Abbreviation reserve := (slab_vector_reserve (value := value) stackCount sizeof_T).
Local Abbreviation push_back := (slab_vector_push_back (value := value) stackCount sizeof_T).
Local Abbreviation ctor := (slab_vector_ctor (value := value) stackCount sizeof_T).

Lemma vec_ctor_spec this p :
  let w := slab_vector_ctor (value := value) stackCount sizeof_T this p in
  vok w.2 ∧ elems w.2 = [] ∧ vthis w.2 = this ∧ capacity w.2 = stackCount ∧
  start w.2 = (if decide (stackCount = 0) then None else Some (StackSlot this)) ∧
  allocated_items w.1 = allocated_items p + vitems w.2 ∧
  slabs w.1 = slabs p + vec_slabs w.2 ∧ brk w.1 = brk p.
Proof.
  unfold slab_vector_ctor, slab_vector_reserve, slab_vector_allocator.ctor,
    slab_vector_allocator.allocate, slab_new, vec_ok, vec_items, vec_slabs.
  cbn [capacity fst]. destruct (decide (0 < stackCount)) as [Hpos|Hz].
  - rewrite decide_True by lia. rewrite decide_False by lia.
    cbn [fst snd start elems capacity vthis length allocated_items slabs brk].
    repeat split; try done; lia.
  - rewrite decide_True by lia.
    cbn [fst snd start elems capacity vthis length allocated_items slabs brk].
    repeat split; try done; lia.
Qed.

Lemma vec_reserve_spec n p v :
  vok v →
  let w := reserve n (p, v) in
  vok w.2 ∧ elems w.2 = elems v ∧ vthis w.2 = vthis v ∧
  capacity w.2 = Z.max n (capacity v) ∧
  (n ≤ capacity v → w = (p, v)) ∧
  (capacity v < n → start w.2 = Some (HeapBuf (brk p)) ∧ brk w.1 = S (brk p)) ∧
  allocated_items w.1 - allocated_items p = vitems w.2 - vitems v ∧
  slabs w.1 - slabs p = vec_slabs w.2 - vec_slabs v ∧
  (brk p ≤ brk w.1)%nat.
Proof.
  intros (Hlen & Hst). unfold slab_vector_reserve.
  destruct (decide (capacity v < n)) as [Hlt|Hge].
  - assert (stackCount < n) as Hbig.
    { destruct (start v) as [[t|ad]|]; lia. }
    unfold slab_vector_allocator.allocate. rewrite decide_False by lia.
    unfold slab_new, slab_vector_allocator.deallocate, slab_delete,
      vec_ok, vec_items, vec_slabs.
    cbn [fst snd start elems capacity vthis].
    destruct (start v) as [[t|ad]|] eqn:Hs.
    + destruct Hst as [-> Hc]. rewrite decide_False by (intros H; by apply H).
      cbn [allocated_items slabs brk]. repeat split; try done; try lia.
    + rewrite decide_True by done.
      cbn [allocated_items slabs brk]. repeat split; try done; try lia.
    + cbn [allocated_items slabs brk]. repeat split; try done; try lia.
  - cbn [fst snd]. unfold vec_ok.
    repeat split; try done; try lia.
Qed.

Lemma vec_push_back_spec x p v :
  vok v →
  let w := push_back x (p, v) in
  vok w.2 ∧ elems w.2 = elems v ++ [x] ∧ vthis w.2 = vthis v ∧
  (Z.of_nat (length (elems v)) < capacity v →
     w.1 = p ∧ start w.2 = start v ∧ capacity w.2 = capacity v) ∧
  (Z.of_nat (length (elems v)) = capacity v →
     start w.2 = Some (HeapBuf (brk p)) ∧ brk w.1 = S (brk p) ∧
     capacity w.2 = capacity v + Z.max (capacity v) 1) ∧
  allocated_items w.1 - allocated_items p = vitems w.2 - vitems v ∧
  slabs w.1 - slabs p = vec_slabs w.2 - vec_slabs v ∧
  (brk p ≤ brk w.1)%nat.
Proof.
  intros (Hlen & Hst). unfold slab_vector_push_back, slab_vector_size.
  destruct (decide (Z.of_nat (length (elems v)) = capacity v)) as [Heq|Hne].
  - assert (stackCount < capacity v + Z.max (capacity v) 1) as Hbig.
    { destruct (start v) as [[t|ad]|]; lia. }
    rewrite Heq.
    unfold slab_vector_allocator.allocate. rewrite decide_False by lia.
    unfold slab_new, slab_vector_allocator.deallocate, slab_delete,
      vec_ok, vec_items, vec_slabs.
    cbn [fst snd start elems capacity vthis]. rewrite length_app. cbn [length].
    destruct (start v) as [[t|ad]|] eqn:Hs.
    + destruct Hst as [-> Hc]. rewrite decide_False by (intros H; by apply H).
      cbn [allocated_items slabs brk]. repeat split; try done; try lia.
    + rewrite decide_True by done.
      cbn [allocated_items slabs brk]. repeat split; try done; try lia.
    + cbn [allocated_items slabs brk]. repeat split; try done; try lia.
  - cbn [fst snd]. unfold vec_ok, vec_items, vec_slabs.
    cbn [start elems capacity vthis]. rewrite length_app. cbn [length].
    repeat split; try done; try lia.
Qed.

Lemma vec_dtor_spec p v :
  vok v →
  allocated_items (slab_vector_dtor stackCount sizeof_T (p, v)) = allocated_items p - vitems v ∧
  slabs (slab_vector_dtor stackCount sizeof_T (p, v)) = slabs p - vec_slabs v.
Proof.
  intros (Hlen & Hst). unfold slab_vector_dtor, slab_vector_allocator.dtor,
    slab_vector_allocator.deallocate, slab_delete, vec_items, vec_slabs.
  destruct (start v) as [[t|ad]|] eqn:Hs.
  - destruct Hst as [-> Hc]. rewrite decide_False by (intros H; by apply H).
    cbn [allocated_items slabs]. lia.
  - rewrite decide_True by done. cbn [allocated_items slabs]. lia.
  - cbn [allocated_items slabs]. lia.
Qed.



Lemma vec_clear_spec v :
  vok v → vok (slab_vector_clear v) ∧ vitems (slab_vector_clear v) = vitems v ∧
          vec_slabs (slab_vector_clear v) = vec_slabs v.
Proof.
  intros (Hlen & Hst). unfold vec_ok, vec_items, vec_slabs, slab_vector_clear.
  cbn [elems start capacity vthis length]. repeat split; try done.
  destruct (start v) as [[t|ad]|]; lia.
Qed.

(** X17.  The storage of a [slab_vector]: after the constructor the vector
    uses its own inline array, with capacity [stackCount]; [reserve] and
    [push_back] keep the buffer while the capacity suffices, and when they
    enlarge it the elements move to a new heap buffer, never to the inline
    array again; the elements are kept, [push_back] appends. *)
Theorem slab_vector_storage this p0 p v :
  vok v →
  vok (ctor this p0).2 ∧
  start (ctor this p0).2 = (if decide (stackCount = 0) then None else Some (StackSlot this)) ∧
  capacity (ctor this p0).2 = stackCount ∧
  (∀ n, vok (reserve n (p, v)).2 ∧ elems (reserve n (p, v)).2 = elems v ∧
        (n ≤ capacity v → reserve n (p, v) = (p, v)) ∧
        (capacity v < n → start (reserve n (p, v)).2 = Some (HeapBuf (brk p)) ∧
                          capacity (reserve n (p, v)).2 = n ∧ stackCount < n)) ∧
  (∀ x, vok (push_back x (p, v)).2 ∧ elems (push_back x (p, v)).2 = elems v ++ [x] ∧
        (Z.of_nat (length (elems v)) < capacity v →
           (push_back x (p, v)).1 = p ∧ start (push_back x (p, v)).2 = start v ∧
           capacity (push_back x (p, v)).2 = capacity v) ∧
        (Z.of_nat (length (elems v)) = capacity v →
           start (push_back x (p, v)).2 = Some (HeapBuf (brk p)) ∧
           stackCount < capacity (push_back x (p, v)).2)) ∧
  vok (slab_vector_clear v).
Proof.
  intros Hv.
  destruct (vec_ctor_spec this p0) as (H1 & _ & _ & H2 & H3 & _).
  split; [done|]. split; [done|]. split; [done|].
  split; [|split].
  - intros n.
    destruct (vec_reserve_spec n p v Hv)
      as (Hok & Hel & _ & Hcap & Hsame & Hgrow & _).
    split; [done|]. split; [done|]. split; [done|].
    intros Hlt. destruct (Hgrow Hlt) as [Hs _]. split; [done|]. split; [lia|].
    destruct Hok as (_ & Hst). rewrite Hs in Hst. lia.
  - intros x.
    destruct (vec_push_back_spec x p v Hv)
      as (Hok & Hel & _ & Hfit & Hgrow & _).
    split; [done|]. split; [done|]. split; [done|].
    intros Heq. destruct (Hgrow Heq) as (Hs & _ & Hc). split; [done|].
    destruct Hok as (_ & Hst). by rewrite Hs in Hst.
  - by apply vec_clear_spec.
Qed.

(** Pushes into a buffer with room. *)
Lemma vec_pushes_fit (xs : list value) : ∀ (w : pool_t * slab_vector value),
  vok w.2 → Z.of_nat (length (elems w.2)) + Z.of_nat (length xs) ≤ capacity w.2 →
  let w' := foldl (λ w x, push_back x w) w xs in
  w'.1 = w.1 ∧ elems w'.2 = elems w.2 ++ xs ∧ start w'.2 = start w.2 ∧
  capacity w'.2 = capacity w.2 ∧ vthis w'.2 = vthis w.2 ∧ vok w'.2.
Proof.
  induction xs as [|x xs IH]; intros [p v] Hv Hfit; cbn [fst snd] in *.
  - cbn [foldl]. by rewrite app_nil_r.
  - cbn [foldl length] in *.
    destruct (vec_push_back_spec x p v Hv)
      as (Hok & Hel & Hth & Hfit1 & _).
    destruct Hfit1 as (Hp & Hs & Hc); [lia|].
    destruct (IH (push_back x (p, v)) Hok) as (H1 & H2 & H3 & H4 & H5 & H6).
    { rewrite Hel, length_app, Hc. simpl. lia. }
    rewrite H1, H2, H3, H4, H5, Hel, Hp, Hs, Hc, Hth, <- app_assoc. done.
Qed.

(** X18.  A vector that never holds more than [stackCount] elements needs no
    memory: the elements pushed after the constructor stay in the inline
    array, and the pool is as the constructor left it.  The push that
    exceeds [stackCount] moves the elements to a heap buffer of twice the
    size. *)
Theorem slab_vector_inline_pushes this p (xs : list value) x :
  1 ≤ stackCount → Z.of_nat (length xs) ≤ stackCount →
  let w := foldl (λ w x, push_back x w) (ctor this p) xs in
  w.1 = (ctor this p).1 ∧ brk w.1 = brk p ∧
  allocated_items w.1 = allocated_items p + stackCount ∧
  elems w.2 = xs ∧ start w.2 = Some (StackSlot this) ∧ capacity w.2 = stackCount ∧
  (Z.of_nat (length xs) = stackCount →
     start (push_back x w).2 = Some (HeapBuf (brk p)) ∧
     capacity (push_back x w).2 = 2 * stackCount ∧
     elems (push_back x w).2 = xs ++ [x] ∧
     allocated_items (push_back x w).1 = allocated_items p + 3 * stackCount).
Proof.
  intros Hpos Hlen.
  destruct (vec_ctor_spec this p)
    as (Hok & Hel & Hth & Hcap & Hst & Hal & _ & Hbrk).
  rewrite decide_False in Hst by lia.
  destruct (vec_pushes_fit xs (ctor this p) Hok) as (H1 & H2 & H3 & H4 & H5 & H6).
  { rewrite Hel, Hcap. simpl. lia. }
  cbn zeta. rewrite H1, H2, H3, H4, Hel, Hst, Hcap, Hbrk, Hal.
  unfold vec_items at 1. rewrite Hst.
  split; [done|]. split; [done|]. split; [lia|]. split; [done|]. split; [done|].
  split; [done|]. intros Hfull.
  set (w := foldl (λ w x, push_back x w) (ctor this p) xs) in *.
  destruct (vec_push_back_spec x w.1 w.2 H6)
    as (Hok' & Hel' & _ & _ & Hgrow & Hal' & _).
  rewrite <- surjective_pairing in Hok', Hel', Hgrow, Hal'.
  destruct Hgrow as (Hs' & _ & Hc'); [rewrite H2, Hel, H4, Hcap; simpl; lia|].
  rewrite Hs', Hc', Hel', H2, Hel, H4, Hcap, H1, Hbrk. cbn [app].
  split; [done|]. split; [lia|]. split; [done|].
  unfold vec_items in Hal'. rewrite Hs', H3, Hst, Hc', H4, Hcap, H1, Hal in Hal'.
  unfold vec_items in Hal'. rewrite Hst in Hal'. lia.
Qed.

(** X19.  [this->swap(rhs)] on two vectors: both leave their inline arrays
    first, so that afterwards each holds the elements, the capacity and the
    heap buffer of the other, with its allocator in place; a vector that was
    on the heap already hands its buffer over as it is. *)
Theorem slab_vector_swap_spec p (a b : slab_vector value) :
  stackCount < 2 ^ 64 - 1 → vok a → vok b →
  ∃ p' a' b' x y,
    slab_vector_swap stackCount sizeof_T (p, a, b) = (p', a', b') ∧
    elems a' = elems b ∧ elems b' = elems a ∧
    vthis a' = vthis a ∧ vthis b' = vthis b ∧
    start a' = Some (HeapBuf x) ∧ start b' = Some (HeapBuf y) ∧
    capacity a' = Z.max (stackCount + 1) (capacity b) ∧
    capacity b' = Z.max (stackCount + 1) (capacity a) ∧
    vok a' ∧ vok b' ∧
    (stackCount < capacity a → start b' = start a) ∧
    (stackCount < capacity b → start a' = start b) ∧
    allocated_items p' - allocated_items p
      = vitems a' + vitems b' - (vitems a + vitems b) ∧
    slabs p' - slabs p = vec_slabs a' + vec_slabs b' - (vec_slabs a + vec_slabs b).
Proof.
  intros Hmax Ha Hb. unfold slab_vector_swap. rewrite wrap64_id by lia.
  destruct (vec_reserve_spec (stackCount + 1) p a Ha)
    as (Hok1 & Hel1 & Hth1 & Hc1 & Hsame1 & Hgrow1 & Hal1 & Hsl1 & _).
  destruct (reserve (stackCount + 1) (p, a)) as [p1 a1]. cbn [fst snd] in *.
  destruct (vec_reserve_spec (stackCount + 1) p1 b Hb)
    as (Hok2 & Hel2 & Hth2 & Hc2 & Hsame2 & Hgrow2 & Hal2 & Hsl2 & _).
  destruct (reserve (stackCount + 1) (p1, b)) as [p2 b1]. cbn [fst snd] in *.
  assert (∃ y, start a1 = Some (HeapBuf y)) as [y Hy].
  { destruct Hok1 as (_ & Hst). destruct (start a1) as [[t|ad]|]; [lia|by eexists|lia]. }
  assert (∃ x, start b1 = Some (HeapBuf x)) as [x Hx].
  { destruct Hok2 as (_ & Hst). destruct (start b1) as [[t|ad]|]; [lia|by eexists|lia]. }
  eexists _, _, _, x, y. split; [reflexivity|]. cbn [elems vthis start capacity].
  split; [done|]. split; [done|]. split; [done|]. split; [done|].
  split; [done|]. split; [done|]. split; [done|]. split; [done|].
  split.
  { destruct Hok2 as (Hl & Hst). split; [done|]. cbn [start capacity]. rewrite Hx in *. done. }
  split.
  { destruct Hok1 as (Hl & Hst). split; [done|]. cbn [start capacity]. rewrite Hy in *. done. }
  split; [intros Hh; specialize (Hsame1 ltac:(lia)); by injection Hsame1 as -> ->|].
  split; [intros Hh; specialize (Hsame2 ltac:(lia)); by injection Hsame2 as -> ->|].
  unfold vec_items, vec_slabs in *. cbn [start capacity]. rewrite Hx, Hy in *. lia.
Qed.

(** X20.  [slab_vector(initSize, val)] holds [initSize] copies of [val], in
    the inline array when [initSize <= stackCount] and in one heap buffer of
    [initSize] elements otherwise; the pushes of the constructor never
    enlarge the buffer. *)
Theorem slab_vector_ctor_n_spec this initSize (val : value) p :
  0 ≤ initSize →
  let w := slab_vector_ctor_n stackCount sizeof_T this initSize val p in
  elems w.2 = replicate (Z.to_nat initSize) val ∧
  capacity w.2 = Z.max initSize stackCount ∧
  start w.2 =
    (if decide (initSize ≤ stackCount)
     then (if decide (stackCount = 0) then None else Some (StackSlot this))
     else Some (HeapBuf (brk p))) ∧
  vok w.2 ∧
  allocated_items w.1
    = allocated_items p + stackCount + (if decide (initSize ≤ stackCount) then 0 else initSize) ∧
  brk w.1 = (if decide (initSize ≤ stackCount) then brk p else S (brk p)).
Proof.
  intros Hinit. unfold slab_vector_ctor_n.
  set (w0 := reserve (Z.max initSize stackCount)
               (slab_vector_allocator.ctor stackCount sizeof_T this p, mk_vec this None [] 0)).
  assert (vok w0.2 ∧ elems w0.2 = [] ∧ capacity w0.2 = Z.max initSize stackCount ∧
          start w0.2 =
            (if decide (initSize ≤ stackCount)
             then (if decide (stackCount = 0) then None else Some (StackSlot this))
             else Some (HeapBuf (brk p))) ∧
          allocated_items w0.1
            = allocated_items p + stackCount
              + (if decide (initSize ≤ stackCount) then 0 else initSize) ∧
          brk w0.1 = (if decide (initSize ≤ stackCount) then brk p else S (brk p)))
    as (Hok & Hel & Hcap & Hst & Hal & Hbrk).
  { subst w0. unfold slab_vector_reserve, slab_vector_allocator.ctor,
      slab_vector_allocator.allocate, slab_new, vec_ok.
    cbn [capacity fst snd].
    destruct (decide (initSize ≤ stackCount)) as [Hle|Hgt].
    - rewrite Z.max_r by lia. destruct (decide (stackCount = 0)) as [Hz|Hnz].
      + rewrite decide_False by lia.
        cbn [fst snd start elems capacity vthis length allocated_items brk].
        repeat split; try done; lia.
      + rewrite decide_True by lia. rewrite decide_True by lia.
        cbn [fst snd start elems capacity vthis length allocated_items brk].
        repeat split; try done; lia.
    - rewrite Z.max_l by lia. rewrite decide_True by lia. rewrite decide_False by lia.
      cbn [fst snd start elems capacity vthis length allocated_items brk].
      repeat split; try done; lia. }
  assert (∀ n (w : pool_t * slab_vector value),
            slab_vector_fill stackCount sizeof_T n val w
            = foldl (λ w x, push_back x w) w (replicate n val)) as Hfill.
  { induction n as [|n IH]; intros w; [done|]. cbn [slab_vector_fill replicate foldl].
    apply IH. }
  rewrite Hfill.
  destruct (vec_pushes_fit (replicate (Z.to_nat initSize) val) w0 Hok)
    as (H1 & H2 & H3 & H4 & _ & H6).
  { rewrite Hel, Hcap, length_replicate. simpl. lia. }
  cbn zeta. rewrite H1, H2, H3, H4, Hel. done.
Qed.

(** The loop of [operator=] with room for the elements. *)
Lemma vec_assign_loop_spec this rhs (src : slab_vector value) : ∀ n k p objs dst,
  this ≠ rhs → objs !! rhs = Some src → objs !! this = Some dst →
  (k + n)%nat = length (elems src) → vok dst →
  Z.of_nat (length (elems dst)) + Z.of_nat n ≤ capacity dst →
  ∃ dst',
    slab_vector_assign_loop stackCount sizeof_T n k this rhs (p, objs)
      = Some (p, <[this := dst']> objs) ∧
    elems dst' = elems dst ++ take n (drop k (elems src)) ∧
    start dst' = start dst ∧ capacity dst' = capacity dst ∧ vthis dst' = vthis dst ∧
    vok dst'.
Proof.
  induction n as [|n IH]; intros k p objs dst Hne Hr Ht Hkn Hok Hfit.
  - exists dst. cbn [slab_vector_assign_loop take]. rewrite insert_id by done.
    by rewrite app_nil_r.
  - destruct (lookup_lt_is_Some_2 (elems src) k ltac:(lia)) as [e He].
    destruct (vec_push_back_spec e p dst Hok)
      as (Hok1 & Hel1 & Hth1 & Hfit1 & _).
    destruct Hfit1 as (Hp1 & Hs1 & Hc1); [lia|].
    destruct (push_back e (p, dst)) as [p1 dst1] eqn:Hpb. cbn [fst snd] in *. subst p1.
    destruct (IH (S k) p (<[this := dst1]> objs) dst1)
      as (dst' & Hloop & Hel' & Hs' & Hc' & Hth' & Hok');
      [done|by rewrite lookup_insert_ne|apply lookup_insert_eq|lia|done| |].
    { rewrite Hel1, length_app, Hc1. simpl. lia. }
    exists dst'. split.
    { cbn [slab_vector_assign_loop fst snd]. rewrite Hr. cbn [mbind option_bind].
      rewrite He. cbn [mbind option_bind]. rewrite Ht. cbn [mbind option_bind].
      rewrite Hpb. rewrite Hloop. by rewrite insert_insert_eq. }
    split.
    { rewrite Hel', Hel1, <- app_assoc. f_equal.
      rewrite (drop_S _ e k He). done. }
    split; [by rewrite Hs'|]. split; [by rewrite Hc'|]. split; [by rewrite Hth'|done].
Qed.

(** [operator=] for two vectors. *)
Lemma vec_assign_spec this rhs p objs (dst src : slab_vector value) :
  this ≠ rhs → objs !! this = Some dst → objs !! rhs = Some src → vok dst →
  ∃ p' dst',
    slab_vector_assign stackCount sizeof_T this rhs (p, objs)
      = Some (p', <[this := dst']> objs) ∧
    elems dst' = elems src ∧ vthis dst' = vthis dst ∧ vok dst' ∧
    capacity dst' = Z.max (Z.of_nat (length (elems src))) (capacity dst) ∧
    (Z.of_nat (length (elems src)) ≤ capacity dst → p' = p ∧ start dst' = start dst) ∧
    (capacity dst < Z.of_nat (length (elems src)) →
       start dst' = Some (HeapBuf (brk p)) ∧ brk p' = S (brk p)) ∧
    allocated_items p' - allocated_items p = vitems dst' - vitems dst.
Proof.
  intros Hne Ht Hr Hok.
  destruct (vec_reserve_spec (slab_vector_size src) p dst Hok)
    as (Hok1 & Hel1 & Hth1 & Hc1 & Hsame1 & Hgrow1 & Hal1 & _).
  destruct (reserve (slab_vector_size src) (p, dst)) as [p1 dst1] eqn:Hres.
  cbn [fst snd] in *. unfold slab_vector_size in *.
  destruct (vec_clear_spec dst1 Hok1) as (Hok2 & _).
  destruct (vec_assign_loop_spec this rhs src (length (elems src)) 0 p1
              (<[this := slab_vector_clear dst1]> (<[this := dst1]> objs))
              (slab_vector_clear dst1))
    as (dst' & Hloop & Hel' & Hs' & Hc' & Hth' & Hok');
    [done|by rewrite !lookup_insert_ne|apply lookup_insert_eq|done|done|
     cbn [slab_vector_clear elems capacity length]; lia|].
  exists p1, dst'. split.
  { unfold slab_vector_assign. cbn [fst snd]. rewrite Hr. cbn [mbind option_bind].
    rewrite Ht. cbn [mbind option_bind]. unfold slab_vector_size. rewrite Hres.
    rewrite lookup_insert_eq. cbn [mbind option_bind].
    rewrite !lookup_insert_ne by done. rewrite Hr. cbn [mbind option_bind].
    rewrite Hloop. by rewrite !insert_insert_eq. }
  cbn [slab_vector_clear elems start capacity vthis] in *.
  split; [rewrite Hel'; cbn [app]; by rewrite drop_0, firstn_all|].
  split; [by rewrite Hth'|]. split; [done|]. split; [by rewrite Hc'|].
  split; [|split].
  - intros Hle. specialize (Hsame1 Hle). injection Hsame1 as -> ->. by rewrite Hs'.
  - intros Hlt. destruct (Hgrow1 Hlt) as [Hs Hb]. by rewrite Hs'.
  - unfold vec_items in *. rewrite Hs', Hc'. done.
Qed.


(** X21.  [this = rhs] for two vectors: [this] holds the elements of [rhs],
    [rhs] is as before; the buffer of [this] is kept when it has room for
    them, and is otherwise replaced once, by a heap buffer of [rhs.size()]
    elements. *)
Theorem slab_vector_assign_copies this rhs p objs (dst src : slab_vector value) :
  this ≠ rhs → objs !! this = Some dst → objs !! rhs = Some src → vok dst →
  ∃ p' dst',
    slab_vector_assign stackCount sizeof_T this rhs (p, objs)
      = Some (p', <[this := dst']> objs) ∧
    elems dst' = elems src ∧ vthis dst' = vthis dst ∧ vok dst' ∧
    capacity dst' = Z.max (Z.of_nat (length (elems src))) (capacity dst) ∧
    (Z.of_nat (length (elems src)) ≤ capacity dst → p' = p ∧ start dst' = start dst) ∧
    (capacity dst < Z.of_nat (length (elems src)) →
       start dst' = Some (HeapBuf (brk p)) ∧ brk p' = S (brk p)) ∧
    allocated_items p' - allocated_items p = vitems dst' - vitems dst ∧
    (<[this := dst']> objs) !! rhs = Some src ∧
    (∀ x, x ≠ this → (<[this := dst']> objs) !! x = objs !! x).
Proof.
  intros Hne Ht Hr Hok.
  destruct (vec_assign_spec this rhs p objs dst src Hne Ht Hr Hok)
    as (p' & dst' & Has & Hel & Hth & Hok' & Hcap & Hfit & Hgrow & Hal).
  exists p', dst'. split; [done|]. split; [done|]. split; [done|]. split; [done|].
  split; [done|]. split; [done|]. split; [done|]. split; [done|].
  split; [by rewrite lookup_insert_ne|].
  intros x Hx. by rewrite lookup_insert_ne.
Qed.

(** X22.  The copy constructor: the new vector at [this] holds the elements
    of [rhs], in its inline array when they are at most [stackCount] and in
    one heap buffer of [rhs.size()] elements otherwise; [rhs] is as
    before. *)
Theorem slab_vector_copy_ctor_spec this rhs p objs (src : slab_vector value) :
  this ≠ rhs → objs !! rhs = Some src →
  ∃ p' dst,
    slab_vector_copy_ctor stackCount sizeof_T this rhs (p, objs)
      = Some (p', <[this := dst]> objs) ∧
    elems dst = elems src ∧ vthis dst = this ∧ vok dst ∧
    capacity dst = Z.max (Z.of_nat (length (elems src))) stackCount ∧
    start dst =
      (if decide (Z.of_nat (length (elems src)) ≤ stackCount)
       then (if decide (stackCount = 0) then None else Some (StackSlot this))
       else Some (HeapBuf (brk p))) ∧
    allocated_items p' = allocated_items p + vitems dst.
Proof.
  intros Hne Hr.
  destruct (vec_ctor_spec this p) as (Hok & Hel & Hth & Hcap & Hst & Hal & _ & Hbrk).
  destruct (ctor this p) as [p1 v] eqn:Hc. cbn [fst snd] in *.
  destruct (vec_assign_spec this rhs p1 (<[this := v]> objs) v src)
    as (p' & dst & Has & Hel' & Hth' & Hok' & Hcap' & Hfit & Hgrow & Hal');
    [done|apply lookup_insert_eq|by rewrite lookup_insert_ne|done|].
  exists p', dst. split.
  { unfold slab_vector_copy_ctor. cbn [fst snd]. rewrite Hc, Has.
    by rewrite insert_insert_eq. }
  split; [done|]. split; [congruence|]. split; [done|]. split; [lia|].
  split; [|lia].
  rewrite Hcap in Hfit, Hgrow.
  destruct (decide (Z.of_nat (length (elems src)) ≤ stackCount)) as [Hle|Hgt].
  - destruct (Hfit Hle) as [_ Hs]. by rewrite Hs, Hst.
  - destruct (Hgrow ltac:(lia)) as [Hs _]. by rewrite Hs, Hbrk.
Qed.

End vector_facts.


Lemma do_push_back_vector_loop_spec stackCount sizeof_T (n : nat) : ∀ i base p v,
  0 ≤ stackCount → vec_ok stackCount v →
  let w := do_push_back_vector_loop stackCount sizeof_T n i base (p, v) in
  vec_ok stackCount w.2 ∧ vthis w.2 = vthis v ∧
  elems w.2 = elems v ++ ((λ j, base + j) <$> seqZ i (Z.of_nat n)) ∧
  allocated_items w.1 - allocated_items p = vec_items stackCount w.2 - vec_items stackCount v ∧
  slabs w.1 - slabs p = vec_slabs w.2 - vec_slabs v.
Proof.
  induction n as [|n IH]; intros i base p v Hsc Hok.
  - cbn [do_push_back_vector_loop]. cbn zeta. cbn [fst snd seqZ]. simpl. rewrite app_nil_r.
    split; [done|]. split; [done|]. split; [done|]. split; lia.
  - cbn [do_push_back_vector_loop].
    destruct (vec_push_back_spec stackCount sizeof_T Hsc (base + i) p v Hok)
      as (Hok1 & Hel1 & Hth1 & _ & _ & Hal1 & Hsl1 & _).
    destruct (slab_vector_push_back stackCount sizeof_T (base + i) (p, v)) as [p1 v1].
    cbn [fst snd] in *.
    destruct (IH (i + 1) base p1 v1 Hsc Hok1) as (Hok' & Hth' & Hel' & Hal' & Hsl').
    cbn zeta in *. split; [done|]. split; [by rewrite Hth'|].
    split.
    { rewrite Hel', Hel1, <- app_assoc. f_equal.
      rewrite (seqZ_cons i (Z.of_nat (S n))) by lia. rewrite fmap_cons. cbn [app].
      f_equal. f_equal. f_equal; lia. }
    split; lia.
Qed.

(** X23.  The test [vector_context] for any [i]: after the two constructors
    the pool counts 8 items; after [do_push_back(a, b, i, i)] and
    [c.swap(b)], [c] holds [i, ..., 2i - 1] and [b] is empty, both in heap
    buffers; the destructors give all items and slabs back. *)
Theorem vector_context_spec (i : nat) :
  2 * Z.of_nat i < 2 ^ 31 →
  ∃ x y pf,
    vector_context i
      = (8, (λ j, Z.of_nat i + j) <$> seqZ 0 (Z.of_nat i), [],
         Some (HeapBuf x), Some (HeapBuf y), pf) ∧
    allocated_items pf = 0 ∧ slabs pf = 0.
Proof.
  intros _. unfold vector_context.
  destruct (vec_ctor_spec (value := Z) 4 4 ltac:(lia) 100 (mk_pool 0 0 0 0))
    as (Hb & Hbe & _ & _ & Hbs & Hba & Hbsl & _).
  destruct (slab_vector_ctor 4 4 100 (mk_pool 0 0 0 0)) as [p1 b0]. cbn [fst snd] in *.
  destruct (vec_ctor_spec (value := Z) 4 4 ltac:(lia) 200 p1)
    as (Hc & Hce & _ & _ & Hcs & Hca & Hcsl & _).
  destruct (slab_vector_ctor 4 4 200 p1) as [p2 c0]. cbn [fst snd] in *.
  destruct (do_push_back_vector_loop_spec 4 4 i 0 (Z.of_nat i) p2 b0 ltac:(lia) Hb)
    as (Hb1 & _ & Hbe1 & Hba1 & Hbsl1).
  unfold do_push_back_vector.
  destruct (do_push_back_vector_loop 4 4 i 0 (Z.of_nat i) (p2, b0)) as [p3 b1].
  cbn [fst snd] in *.
  destruct (slab_vector_swap_spec 4 4 ltac:(lia) p3 c0 b1 ltac:(lia) Hc Hb1)
    as (p4 & c2 & b2 & x & y & Hsw & Hce2 & Hbe2 & _ & _ & Hcs2 & Hbs2 & _ & _ & Hc2 & Hb2
        & _ & _ & Hal4 & Hsl4).
  rewrite Hsw.
  destruct (vec_clear_spec 4 ltac:(lia) c2 Hc2) as (Hc3 & Hci3 & Hcsl3).
  destruct (vec_clear_spec 4 ltac:(lia) b2 Hb2) as (Hb3 & Hbi3 & Hbsl3).
  destruct (vec_dtor_spec 4 4 p4 (slab_vector_clear c2) Hc3) as (Hd1 & Hd1s).
  destruct (vec_dtor_spec 4 4 (slab_vector_dtor 4 4 (p4, slab_vector_clear c2))
              (slab_vector_clear b2) Hb3) as (Hd2 & Hd2s).
  exists x, y, (slab_vector_dtor 4 4
                  (slab_vector_dtor 4 4 (p4, slab_vector_clear c2), slab_vector_clear b2)).
  split.
  { rewrite Hce2, Hbe2, Hbe1, Hbe, Hce, Hcs2, Hbs2. cbn [app].
    f_equal. f_equal. f_equal. f_equal. f_equal.
    rewrite Hca, Hba. unfold vec_items. rewrite Hbs, Hcs. simpl. done. }
  unfold vec_items, vec_slabs in *. rewrite Hbs, Hcs in *. simpl in *. lia.
Qed.

(** ** Examples for the list and the vector *)

(** ** The lists of the test, for the examples *)

Lemma list_context_total i p b c :
  Z.of_nat i < 2 ^ 32 → list_context i = Some (p, b, c) →
  total_slots (store (alloc b)) ≤ 4 + Z.of_nat i * 12.
Proof.
  unfold list_context. rewrite _defaultHS_int_list. intros Hi H.
  destruct (slab_list_ctor 4 24 100 (mk_pool 0 0 0 0)) as [[p1 b0]|] eqn:H1; [|done].
  cbn [mbind option_bind] in H.
  destruct (slab_list_ctor 4 24 200 p1) as [[p2 c0]|] eqn:H2; [|done].
  cbn [mbind option_bind] in H.
  destruct (do_push_back 12 24 i (Z.of_nat i) (p2, b0)) as [[p3 b1]|] eqn:H3; [|done].
  cbn [mbind option_bind] in H. injection H as <- <- <-.
  destruct (slab_list_ctor_spec 4 24 ltac:(lia) 100 _ p1 b0 H1)
    as (Hb0 & Hnb0 & Hin1 & Hbrk1 & Htot1).
  destruct (slab_list_ctor_spec 4 24 ltac:(lia) 200 _ p2 c0 H2)
    as (Hc0 & Hnc0 & Hin2 & Hbrk2 & Htot2).
  destruct (do_push_back_loop_spec 4 12 24 ltac:(lia) i 0 (Z.of_nat i) p2 b0)
    as (p' & l' & Hpb & _ & _ & _ & _ & Htot).
  { apply (list_ok_mono 4 24 p1); [done|lia]. }
  { rewrite Htot1. lia. }
  unfold do_push_back in H3. rewrite H3 in Hpb. injection Hpb as <- <-. lia.
Qed.

Lemma begin_pos_of {node} (l : slab_list node) q :
  begin l = Some q → pos_of q (nodes l) = Some 0%nat.
Proof.
  unfold begin. destruct (nodes l) as [|[q' v] r]; [done|]. simpl.
  intros [= ->]. by rewrite decide_True.
Qed.

(** The lists [b] and [c] of the test [list_context] with [i = 5]. *)
Ltac lists_of_test p b c Hctx Hb Hc Hnc Hv Hin Htot Htb Hlen :=
  destruct list_context_5 as (p & b & c & Hctx);
  destruct (list_context_spec 5 p b c ltac:(lia) Hctx) as (Hb & Hc & Hnc & Hv & Hin & Htot);
  pose proof (list_context_total 5 p b c ltac:(lia) Hctx) as Htb;
  assert (length (nodes b) = 5%nat) as Hlen
    by (pose proof (f_equal length Hv) as Hl; unfold vals in Hl;
        rewrite !length_fmap in Hl; exact Hl).

Lemma insert_before_pos_witness :
  ∃ p b c p' l' q,
    list_context 5 = Some (p, b, c) ∧
    insert 12 24 None 42 (p, b) = Some (p', l', Some q) ∧
    vals l' = [5; 6; 7; 8; 9; 42] ∧
    deref l' (Some q) = Some 42 ∧ it_pos l' (Some q) = Some 5%nat ∧
    next l' (Some q) = Some None ∧
    inuse_items p' = 6.
Proof.
  lists_of_test p b c Hctx Hb Hc Hnc Hv Hin Htot Htb Hlen.
  destruct (insert_before_pos 4 12 24 ltac:(lia) None 42 p b 5 Hb)
    as (p' & l' & q & Hins & _ & Hvl & Hd & Hip & Hnx & _ & _ & Hin').
  - unfold room. lia.
  - unfold it_pos. rewrite Hlen. reflexivity.
  - exists p, b, c, p', l', q. split; [exact Hctx|]. split; [exact Hins|].
    split; [rewrite Hvl, Hv; reflexivity|]. split; [exact Hd|]. split; [exact Hip|].
    split; [exact Hnx|]. rewrite Hin', Hin. reflexivity.
Defined.

Lemma erase_removes_node_witness :
  ∃ p b c q p' l',
    list_context 5 = Some (p, b, c) ∧ begin b = Some q ∧
    erase (Some q) (p, b) = Some (p', l', fst <$> nodes b !! 1%nat) ∧
    vals l' = [6; 7; 8; 9] ∧
    it_pos l' (fst <$> nodes b !! 1%nat) = Some 0%nat ∧
    ¬ live (alloc l') q ∧
    inuse_items p' = 4 ∧
    erase None (p, b) = None.
Proof.
  lists_of_test p b c Hctx Hb Hc Hnc Hv Hin Htot Htb Hlen.
  destruct (begin b) as [q|] eqn:Hbeg;
    [|unfold begin in Hbeg; destruct (nodes b); [discriminate Hlen|discriminate Hbeg]].
  destruct (erase_removes_node 4 24 q p b 0 Hb (begin_pos_of b q Hbeg))
    as (p' & l' & Her & _ & Hvl & Hip & Hnl & _ & Hin' & Hend).
  exists p, b, c, q, p', l'. split; [exact Hctx|]. split; [exact Hbeg|].
  split; [exact Her|]. split; [rewrite Hvl, Hv; reflexivity|]. split; [exact Hip|].
  split; [exact Hnl|]. split; [rewrite Hin', Hin; reflexivity|exact Hend].
Defined.

Lemma swap_contents_witness :
  ∃ p b c p1 c1 p' c' b',
    list_context 5 = Some (p, b, c) ∧
    push_back 12 24 42 (p, c) = Some (p1, c1) ∧ vals c1 = [42] ∧
    swap 12 24 (p1, c1, b) = Some (p', c', b') ∧
    vals c' = [] ∧ vals b' = [42; 5; 6; 7; 8; 9] ∧
    inuse_items p' = 6.
Proof.
  lists_of_test p b c Hctx Hb Hc Hnc Hv Hin Htot Htb Hlen.
  destruct (push_back_spec 4 12 24 ltac:(lia) 42 p c Hc)
    as (p1 & c1 & q1 & Hpb & Hc1 & Hn1 & Hin1 & Hbrk1 & Htot1); [unfold room; lia|].
  rewrite Hnc in Hn1. cbn [app] in Hn1.
  destruct (swap_contents 4 12 24 ltac:(lia) p1 c1 b Hc1
              (list_ok_mono 4 24 p p1 b Hb Hbrk1))
    as (p' & c' & b' & Hsw & _ & Hne & Hin' & _).
  - rewrite Hlen. lia.
  - rewrite Hlen, Hn1. simpl length. lia.
  - destruct Hne as [Hvc Hvb]; [by rewrite Hn1|].
    exists p, b, c, p1, c1, p', c', b'. split; [exact Hctx|]. split; [exact Hpb|].
    split; [unfold vals; rewrite Hn1; reflexivity|]. split; [exact Hsw|].
    split; [exact Hvc|].
    split; [rewrite Hvb, Hv; unfold vals; rewrite Hn1; reflexivity|].
    rewrite Hin', Hin1, Hin. reflexivity.
Defined.

Lemma assign_copies_witness :
  ∃ p b c p' dst',
    list_context 5 = Some (p, b, c) ∧
    slab_list_assign 12 24 200 100 (p, <[200%nat := c]> {[ 100%nat := b ]})
      = Some (p', <[200%nat := dst']> (<[200%nat := c]> {[ 100%nat := b ]})) ∧
    vals dst' = [5; 6; 7; 8; 9] ∧
    list_ok 4 24 p' dst' ∧ list_ok 4 24 p' b ∧
    inuse_items p' = 10.
Proof.
  lists_of_test p b c Hctx Hb Hc Hnc Hv Hin Htot Htb Hlen.
  destruct (assign_copies 4 12 24 ltac:(lia) 200 100 p
              (<[200%nat := c]> {[ 100%nat := b ]}) c b)
    as (p' & dst' & Has & Hvl & Hok' & Hokb & Hin');
    [lia|apply lookup_insert_eq|
     rewrite lookup_insert_ne by lia; apply lookup_singleton_eq|exact Hc|exact Hb|
     rewrite Hlen; lia|].
  exists p, b, c, p', dst'. split; [exact Hctx|]. split; [exact Has|].
  split; [rewrite Hvl; exact Hv|]. split; [exact Hok'|]. split; [exact Hokb|].
  rewrite Hin', Hin, Hlen, Hnc. reflexivity.
Defined.

Lemma copy_ctor_copies_witness :
  ∃ p b c p' dst,
    list_context 5 = Some (p, b, c) ∧
    slab_list_copy_ctor 4 12 24 300 100 (p, {[ 100%nat := b ]})
      = Some (p', <[300%nat := dst]> {[ 100%nat := b ]}) ∧
    vals dst = [5; 6; 7; 8; 9] ∧
    list_ok 4 24 p' dst ∧ list_ok 4 24 p' b ∧
    inuse_items p' = 10.
Proof.
  lists_of_test p b c Hctx Hb Hc Hnc Hv Hin Htot Htb Hlen.
  destruct (copy_ctor_copies 4 12 24 ltac:(lia) ltac:(lia) 300 100 p {[ 100%nat := b ]} b)
    as (p' & dst & Hcc & Hvl & Hok' & Hokb & Hin');
    [lia|apply lookup_singleton_eq|exact Hb|rewrite Hlen; lia|].
  exists p, b, c, p', dst. split; [exact Hctx|]. split; [exact Hcc|].
  split; [rewrite Hvl; exact Hv|]. split; [exact Hok'|]. split; [exact Hokb|].
  rewrite Hin', Hin, Hlen. reflexivity.
Defined.

Lemma splice_one_witness :
  ∃ p b c i p' c' b',
    list_context 5 = Some (p, b, c) ∧ begin b = Some i ∧
    splice3 12 24 None (Some i) (p, c, b) = Some (p', c', b') ∧
    vals c' = [5] ∧ vals b' = [6; 7; 8; 9] ∧
    inuse_items p' = 5 ∧
    splice3 12 24 None None (p, c, b) = Some (p, c, b).
Proof.
  lists_of_test p b c Hctx Hb Hc Hnc Hv Hin Htot Htb Hlen.
  destruct (begin b) as [i|] eqn:Hbeg;
    [|unfold begin in Hbeg; destruct (nodes b); [discriminate Hlen|discriminate Hbeg]].
  destruct (splice_one 4 12 24 ltac:(lia) None i p c b 0 0 Hc Hb)
    as (p' & c' & b' & v & Hsp & Hvj & Hvc & Hvb & Hin' & _ & _ & Hend).
  - unfold it_pos. rewrite Hnc. reflexivity.
  - exact (begin_pos_of b i Hbeg).
  - unfold room. lia.
  - rewrite Hv in Hvj. injection Hvj as <-.
    exists p, b, c, i, p', c', b'. split; [exact Hctx|]. split; [exact Hbeg|].
    split; [exact Hsp|].
    split; [rewrite Hvc; unfold vals; rewrite Hnc; reflexivity|].
    split; [rewrite Hvb, Hv; reflexivity|].
    split; [rewrite Hin', Hin; reflexivity|exact Hend].
Defined.

Lemma list_context_reserve_spec_witness :
  ∃ p b c,
    list_context_reserve 9 = Some (p, b, c) ∧
    inuse_items p = 0 ∧ allocated_items p = 18 ∧ slabs p = 4 ∧
    freeSlotCount (alloc b) = 9 ∧ freeSlotCount (alloc c) = 9.
Proof.
  destruct (list_context_reserve_spec 9 ltac:(lia))
    as (p & b & c & H & Hin & Hal & _ & Hsl & Hfb & Hfc & _).
  exists p, b, c. split; [exact H|]. split; [exact Hin|].
  split; [exact Hal|]. split; [exact Hsl|]. split; [exact Hfb|exact Hfc].
Defined.

Lemma list_context_loop_spec_witness :
  list_context_loop 5 = Some ([5; 5; 5 - 1; 0; 5; 5], [true; true; true; true; true]).
Proof. exact (list_context_loop_spec 5 ltac:(lia) ltac:(lia)). Defined.

(** ** Vectors, for the examples *)

Lemma slab_vector_storage_witness :
  let v := mk_vec 7 (Some (StackSlot 7)) [1; 2; 3; 4] 4 in
  let p := mk_pool 4 0 1 0 in
  vec_ok 4 v ∧
  slab_vector_reserve 4 4 3 (p, v) = (p, v) ∧
  start (slab_vector_reserve 4 4 9 (p, v)).2 = Some (HeapBuf 0) ∧
  elems (slab_vector_push_back 4 4 5 (p, v)).2 = [1; 2; 3; 4; 5] ∧
  start (slab_vector_push_back 4 4 5 (p, v)).2 = Some (HeapBuf 0) ∧
  vec_ok 4 (slab_vector_push_back 4 4 5 (p, v)).2.
Proof.
  intros v p.
  assert (vec_ok 4 v) as Hv by (split; [simpl; lia|split; reflexivity]).
  destruct (slab_vector_storage 4 4 ltac:(lia) 7 (mk_pool 0 0 0 0) p v Hv)
    as (_ & _ & _ & Hres & Hpush & _).
  split; [exact Hv|].
  destruct (Hres 3) as (_ & _ & Hsame & _).
  destruct (Hres 9) as (_ & _ & _ & Hgrow).
  destruct (Hpush 5) as (Hok & Hel & _ & Hfull).
  split; [apply Hsame; simpl; lia|].
  split; [apply Hgrow; simpl; lia|].
  split; [exact Hel|]. split; [apply Hfull; reflexivity|exact Hok].
Defined.

Lemma slab_vector_inline_pushes_witness :
  let w := foldl (λ w x, slab_vector_push_back 4 4 x w)
             (slab_vector_ctor 4 4 7 (mk_pool 0 0 0 0)) [1; 2; 3; 4] in
  brk w.1 = 0%nat ∧ allocated_items w.1 = 4 ∧
  elems w.2 = [1; 2; 3; 4] ∧ start w.2 = Some (StackSlot 7) ∧ capacity w.2 = 4 ∧
  start (slab_vector_push_back 4 4 5 w).2 = Some (HeapBuf 0) ∧
  capacity (slab_vector_push_back 4 4 5 w).2 = 8 ∧
  elems (slab_vector_push_back 4 4 5 w).2 = [1; 2; 3; 4; 5] ∧
  allocated_items (slab_vector_push_back 4 4 5 w).1 = 12.
Proof.
  destruct (slab_vector_inline_pushes 4 4 ltac:(lia) 7 (mk_pool 0 0 0 0) [1; 2; 3; 4] 5)
    as (_ & Hbrk & Hal & Hel & Hst & Hcap & Hfull); [lia|simpl; lia|].
  destruct Hfull as (H1 & H2 & H3 & H4); [reflexivity|].
  intros w. split; [exact Hbrk|]. split; [exact Hal|]. split; [exact Hel|].
  split; [exact Hst|]. split; [exact Hcap|]. split; [exact H1|]. split; [exact H2|].
  split; [exact H3|exact H4].
Defined.

Lemma slab_vector_swap_spec_witness :
  let a := mk_vec 7 (Some (StackSlot 7)) [1; 2] 4 in
  let b := mk_vec 9 (Some (HeapBuf 0)) [3; 4; 5; 6; 7] 8 in
  ∃ p' a' b' x y,
    slab_vector_swap 4 4 (mk_pool 16 0 3 1, a, b) = (p', a', b') ∧
    elems a' = [3; 4; 5; 6; 7] ∧ elems b' = [1; 2] ∧
    vthis a' = 7%nat ∧ vthis b' = 9%nat ∧
    start a' = Some (HeapBuf x) ∧ start b' = Some (HeapBuf y) ∧
    capacity a' = 8 ∧ capacity b' = 5 ∧
    start a' = start b ∧
    allocated_items p' = 21.
Proof.
  intros a b.
  assert (vec_ok 4 a) as Ha by (split; [simpl; lia|split; reflexivity]).
  assert (vec_ok 4 b) as Hb by (split; simpl; lia).
  destruct (slab_vector_swap_spec 4 4 ltac:(lia) (mk_pool 16 0 3 1) a b ltac:(lia) Ha Hb)
    as (p' & a' & b' & x & y & Hsw & Hea & Heb & Hta & Htb & Hsa & Hsb & Hca & Hcb
        & _ & _ & _ & Hkeep & Hal & _).
  exists p', a', b', x, y. split; [exact Hsw|]. split; [exact Hea|]. split; [exact Heb|].
  split; [exact Hta|]. split; [exact Htb|]. split; [exact Hsa|]. split; [exact Hsb|].
  split; [exact Hca|]. split; [exact Hcb|]. split; [apply Hkeep; simpl; lia|].
  unfold vec_items in Hal. rewrite Hsa, Hsb, Hca, Hcb in Hal. simpl in Hal. lia.
Defined.

Lemma slab_vector_ctor_n_spec_witness :
  let w := slab_vector_ctor_n 4 4 7 6 0 (mk_pool 0 0 0 0) in
  elems w.2 = [0; 0; 0; 0; 0; 0] ∧ capacity w.2 = 6 ∧
  start w.2 = Some (HeapBuf 0) ∧ vec_ok 4 w.2 ∧
  allocated_items w.1 = 10 ∧ brk w.1 = 1%nat.
Proof.
  exact (slab_vector_ctor_n_spec 4 4 ltac:(lia) 7 6 0 (mk_pool 0 0 0 0) ltac:(lia)).
Defined.

Lemma slab_vector_assign_copies_witness :
  let dst := mk_vec 7 (Some (StackSlot 7)) [1; 2] 4 in
  let src := mk_vec 9 (Some (HeapBuf 0)) [3; 4; 5; 6; 7] 8 in
  let objs : gmap nat (slab_vector Z) := <[7%nat := dst]> {[ 9%nat := src ]} in
  ∃ p' dst',
    slab_vector_assign 4 4 7 9 (mk_pool 16 0 3 1, objs) = Some (p', <[7%nat := dst']> objs) ∧
    elems dst' = [3; 4; 5; 6; 7] ∧ vthis dst' = 7%nat ∧ vec_ok 4 dst' ∧
    capacity dst' = 5 ∧ start dst' = Some (HeapBuf 1) ∧ brk p' = 2%nat ∧
    allocated_items p' = 21.
Proof.
  intros dst src objs.
  assert (vec_ok 4 dst) as Hd by (split; [simpl; lia|split; reflexivity]).
  destruct (slab_vector_assign_copies 4 4 ltac:(lia) 7 9 (mk_pool 16 0 3 1) objs dst src)
    as (p' & dst' & Has & Hel & Hth & Hok & Hcap & _ & Hgrow & Hal);
    [lia|apply lookup_insert_eq|
     unfold objs; rewrite lookup_insert_ne by lia; apply lookup_singleton_eq|exact Hd|].
  destruct Hgrow as [Hs Hb]; [simpl; lia|].
  exists p', dst'. split; [exact Has|]. split; [exact Hel|]. split; [exact Hth|].
  split; [exact Hok|]. split; [exact Hcap|]. split; [exact Hs|]. split; [exact Hb|].
  unfold vec_items in Hal. rewrite Hs, Hcap in Hal. simpl in Hal. lia.
Defined.

Lemma slab_vector_copy_ctor_spec_witness :
  let src := mk_vec 9 (Some (StackSlot 9)) [3; 4; 5] 4 in
  ∃ p' dst,
    slab_vector_copy_ctor 4 4 7 9 (mk_pool 4 0 1 0, {[ 9%nat := src ]})
      = Some (p', <[7%nat := dst]> {[ 9%nat := src ]}) ∧
    elems dst = [3; 4; 5] ∧ vthis dst = 7%nat ∧ vec_ok 4 dst ∧
    capacity dst = 4 ∧ start dst = Some (StackSlot 7) ∧
    allocated_items p' = 8.
Proof.
  intros src.
  destruct (slab_vector_copy_ctor_spec 4 4 ltac:(lia) 7 9 (mk_pool 4 0 1 0)
              {[ 9%nat := src ]} src)
    as (p' & dst & Hcc & Hel & Hth & Hok & Hcap & Hst & Hal);
    [lia|apply lookup_singleton_eq|].
  exists p', dst. split; [exact Hcc|]. split; [exact Hel|]. split; [exact Hth|].
  split; [exact Hok|]. split; [exact Hcap|]. split; [exact Hst|].
  unfold vec_items in Hal. rewrite Hst in Hal. simpl in Hal. lia.
Defined.

Lemma vector_context_spec_witness :
  ∃ x y pf,
    vector_context 5 = (8, [5; 6; 7; 8; 9], [], Some (HeapBuf x), Some (HeapBuf y), pf) ∧
    allocated_items pf = 0 ∧ slabs pf = 0.
Proof. exact (vector_context_spec 5 ltac:(lia)). Defined.
